(** * SonarVision: the semantic mapper and merge engine

    A shallow embedding of the field-to-entity inference code of the
    SonarVision front-end script ([normalizeDetails], [normalizeList],
    [mergeList], [getByPath], [setByPath], [buildSemanticMap],
    [deriveProjectUpdates], the persisting part of [applySuggestions],
    the prefill passes and the pasted-response extraction), followed by
    the properties the specification states about them.  The step of the
    interactive workflow that calls the extraction, the participant
    table behind a hidden list field and the form of the project manager
    are embedded as well, with properties read off the code.

    Modelling conventions.
    - A JavaScript string is a [string]; its characters are the code
      units U+0000..U+00FF.  [trim], [toLowerCase] and the [i] flag of a
      regular expression follow ECMAScript on that range.
    - A JavaScript value is a [value]: [undefined], [null], a string or a
      plain object.  Numbers, booleans and arrays do not occur in the
      stored trees this program writes and are not modelled.
    - An object is an association list with unique keys in insertion
      order.  Only own properties are modelled: property names (field
      identifiers, phase keys, the keys of a path) are not names of
      members of [Object.prototype] such as [constructor] or [__proto__],
      nor array indices, and a string is never read as a container.
    - A thrown exception is the [Throw] outcome of the [result] monad;
      the script is not in strict mode.
    - The DOM form is the list of the elements below the root of the
      form fields, in document order, in a document in standards mode.
      The selector [#id] is refused with a [SyntaxError] when [id] is no
      CSS identifier; identifiers hold no character that would continue
      the selector with something else (white space, NUL, a backslash
      or one of [. , > + ~ : [ # * | &]). *)

From Stdlib Require Import Ascii String.
From stdpp Require Import base option list strings gmap.

Local Open Scope stdpp_scope.

(** ** Exceptions *)

Inductive result (A : Type) : Type :=
  | Ok (a : A)
  | Throw.
Arguments Ok {A} a.
Arguments Throw {A}.

#[global] Instance result_ret : MRet result := fun A a => Ok a.
#[global] Instance result_bind : MBind result :=
  fun A B f m => match m with Ok a => f a | Throw => Throw end.
#[global] Instance result_fmap : FMap result :=
  fun A B f m => match m with Ok a => Ok (f a) | Throw => Throw end.

(** [try { m } catch (e) { handler }] *)
Definition try_catch {A} (m : result A) (handler : A) : A :=
  match m with Ok a => a | Throw => handler end.

(** ** Strings *)

Module Js.

(** WhiteSpace and LineTerminator code units below U+0100:
    TAB, LF, VT, FF, CR, SP and NBSP. *)
Definition is_space (c : ascii) : bool :=
  let n := nat_of_ascii c in
  ((9 <=? n) && (n <=? 13)) || (n =? 32) || (n =? 160).

(** [String.prototype.toLowerCase] on one code unit: A-Z and the
    Latin-1 capitals U+00C0..U+00DE except the multiplication sign. *)
Definition lower_char (c : ascii) : ascii :=
  let n := nat_of_ascii c in
  if ((65 <=? n) && (n <=? 90))
     || ((192 <=? n) && (n <=? 222) && negb (n =? 215))
  then ascii_of_nat (n + 32) else c.

Fixpoint toLowerCase (s : string) : string :=
  match s with
  | EmptyString => EmptyString
  | String c s' => String (lower_char c) (toLowerCase s')
  end.

Fixpoint trimStart (s : string) : string :=
  match s with
  | EmptyString => EmptyString
  | String c s' => if is_space c then trimStart s' else s
  end.

Fixpoint trimEnd (s : string) : string :=
  match s with
  | EmptyString => EmptyString
  | String c s' =>
      match trimEnd s' with
      | EmptyString => if is_space c then EmptyString else String c EmptyString
      | r => String c r
      end
  end.

Definition trim (s : string) : string := trimEnd (trimStart s).

(** [xs.join(sep)] *)
Fixpoint join (sep : string) (xs : list string) : string :=
  match xs with
  | [] => ""
  | [x] => x
  | x :: rest => x +:+ sep +:+ join sep rest
  end.

(** [s.includes(sub)] *)
Fixpoint includes (s sub : string) : bool :=
  String.prefix sub s
  || match s with
     | EmptyString => false
     | String _ s' => includes s' sub
     end.

(** The separator class of the regular expression [/[,\n;]+/]. *)
Definition is_delim (c : ascii) : bool :=
  match c with
  | ","%char | "010"%char | ";"%char => true
  | _ => false
  end.

Definition starts_with_delim (s : string) : bool :=
  match s with
  | String c _ => is_delim c
  | EmptyString => false
  end.

(** [s.split(/[,\n;]+/)]: the pieces between maximal runs of
    separators; a leading or trailing run leaves an empty piece, and
    the empty string splits into one empty piece. *)
Fixpoint split_delims (s : string) : list string :=
  match s with
  | EmptyString => [""]
  | String c s' =>
      if is_delim c then
        if starts_with_delim s' then split_delims s'
        else "" :: split_delims s'
      else
        match split_delims s' with
        | t :: ts => String c t :: ts
        | [] => [String c ""]
        end
  end.

(** [s.split(".")] and [s.split("-")]: split at every occurrence of
    one character. *)
Fixpoint split_char (d : ascii) (s : string) : list string :=
  match s with
  | EmptyString => [""]
  | String c s' =>
      if Ascii.eqb c d then "" :: split_char d s'
      else
        match split_char d s' with
        | t :: ts => String c t :: ts
        | [] => [String c ""]
        end
  end.

End Js.

(** ** Values *)

#[warnings="-register-all"]
Inductive value : Type :=
  | VUndef
  | VNull
  | VStr (s : string)
  | VObj (props : list (string * value)).

Definition empty_obj : value := VObj [].

(** ToBoolean *)
Definition truthy (v : value) : bool :=
  match v with
  | VUndef | VNull => false
  | VStr s => negb (String.eqb s "")
  | VObj _ => true
  end.

(** [a || b] *)
Definition js_or (a b : value) : value := if truthy a then a else b.

(** [v.toString()] for a truthy [v], [String(v)] in general. *)
Definition js_toString (v : value) : string :=
  match v with
  | VUndef => "undefined"
  | VNull => "null"
  | VStr s => s
  | VObj _ => "[object Object]"
  end.

(** Own-property lookup in an association list. *)
Fixpoint alist_get {A} (l : list (string * A)) (k : string) : option A :=
  match l with
  | [] => None
  | (k', v) :: l' => if String.eqb k' k then Some v else alist_get l' k
  end.

(** [obj[k] = v] on an association list: an existing key keeps its
    place, a new key goes last. *)
Fixpoint alist_set {A} (l : list (string * A)) (k : string) (v : A)
  : list (string * A) :=
  match l with
  | [] => [(k, v)]
  | (k', v') :: l' =>
      if String.eqb k' k then (k', v) :: l' else (k', v') :: alist_set l' k v
  end.

(** [v[k]] where [v] is not [undefined] or [null]. *)
Definition getProp (v : value) (k : string) : value :=
  match v with
  | VObj props => default VUndef (alist_get props k)
  | _ => VUndef
  end.

(** [v[k] = x].  Assignment to a property of a primitive string is
    ignored (the script is not in strict mode); on [undefined] or [null]
    it throws. *)
Definition setProp (v : value) (k : string) (x : value) : result value :=
  match v with
  | VObj props => Ok (VObj (alist_set props k x))
  | VStr _ => Ok v
  | VUndef | VNull => Throw
  end.

(** The own enumerable properties copied by [{...v}]. *)
Definition spread (v : value) : list (string * value) :=
  match v with
  | VObj props => props
  | _ => []
  end.

(** [{...a, ...b}] on property lists. *)
Definition alist_assign {A} (a b : list (string * A)) : list (string * A) :=
  foldl (fun acc kv => alist_set acc kv.1 kv.2) a b.

(** ** Stored details *)

Section Details.

(** [JSON.parse], which throws on malformed text. *)
Variable JSON_parse : string -> result value.

Definition normalizeDetails (details : value) : value :=
  if negb (truthy details) then empty_obj
  else
    match details with
    | VStr s => try_catch (JSON_parse s) empty_obj
    | _ => details
    end.

End Details.

(** ** List normalisation and merge *)

Definition nonempty (s : string) : bool := negb (String.eqb s "").

(** The pipeline [.split(/[,\n;]+/).map(trim).filter(Boolean)]. *)
Definition list_items (s : string) : list string :=
  List.filter nonempty (map Js.trim (Js.split_delims s)).

(** [normalizeList(val = "")]: the default replaces [undefined], and
    [split] is not a function of an object. *)
Definition normalizeList (val : value) : result (list string) :=
  match js_or (match val with VUndef => VStr "" | _ => val end) (VStr "") with
  | VStr s => Ok (list_items s)
  | _ => Throw
  end.

(** One turn of the [incoming.forEach] loop of [mergeList]; the state is
    the array [base] and the set [lower]. *)
Definition mergeList_step (st : list string * gset string) (val : string)
  : list string * gset string :=
  let '(base, lower) := st in
  if negb (nonempty val) then st
  else
    let trimmed := Js.trim val in
    if nonempty trimmed && negb (bool_decide (Js.toLowerCase trimmed ∈ lower))
    then (base ++ [trimmed], lower ∪ {[Js.toLowerCase trimmed]})
    else st.

Definition merge_items (base : list string) (incoming : list string)
  : list string :=
  (foldl mergeList_step
     (base, list_to_set (map Js.toLowerCase base)) incoming).1.

Definition mergeList (existing : value) (incoming : list string)
  : result string :=
  base ← normalizeList existing;
  mret (Js.join ", " (merge_items base incoming)).

(** ** Paths *)

(** [path.split(".").reduce((acc, key) => acc && acc[key] !== undefined
    ? acc[key] : undefined, obj)] *)
Definition getByPath (obj : value) (path : string) : value :=
  if negb (truthy obj) || negb (nonempty path) then VUndef
  else
    foldl (fun acc key => if truthy acc then getProp acc key else VUndef)
      obj (Js.split_char "."%char path).

(** The loop of [setByPath] from the cursor on.  The objects on the way
    are mutated in place; here each one is rebuilt and stored back in its
    parent.  When the cursor is a primitive string the assignment is
    ignored and the next cursor is [undefined], so a further step throws. *)
Fixpoint set_parts (cursor : value) (parts : list string) (x : value)
  : result value :=
  match parts with
  | [] => Ok cursor
  | [k] => setProp cursor k x
  | k :: rest =>
      c1 ← setProp cursor k (js_or (getProp cursor k) empty_obj);
      child ← set_parts (getProp c1 k) rest x;
      setProp c1 k child
  end.

Definition setByPath (target : value) (path : string) (x : value)
  : result value :=
  if negb (truthy target) || negb (nonempty path) then Ok target
  else set_parts target (Js.split_char "."%char path) x.

(** ** The semantic map *)

(** [label] is [""] when the entry has none; [isList] is [false] when the
    entry does not set it.  A map from field identifiers to entries is an
    association list in the order of [Object.entries]; the identifiers
    are not array indices, which would be enumerated first. *)
Record SemanticFieldMeta : Type := {
  entity : string;
  path : string;
  label : string;
  isList : bool;
}.

Definition meta (e p l : string) (b : bool) : SemanticFieldMeta :=
  {| entity := e; path := p; label := l; isList := b |}.

Definition FIELD_SEMANTIC_MAP : list (string * list (string * SemanticFieldMeta)) :=
  [ ("discovery",
      [ ("teamMembers", meta "project" "general.teamMembers" "Team members" true);
        ("featureSize", meta "feature" "general.tShirtSize" "Feature size" false);
        ("featureDescription", meta "feature" "general.description" "Feature description" false);
        ("stakeholders", meta "project" "general.stakeholders" "Stakeholders" true);
        ("business-objectives", meta "project" "general.goals" "Business objectives" false);
        ("current-pain-points", meta "project" "general.issues" "Pain points" false);
        ("success-metrics", meta "project" "general.goals" "Success metrics" false) ]);
    ("stories",
      [ ("epicName", meta "feature" "general.name" "Epic/Feature name" false);
        ("storyDetails", meta "feature" "general.description" "Story context (feature description)" false);
        ("userRoles", meta "project" "general.roles" "User roles" true);
        ("acceptanceCriteria", meta "project" "general.acStyle" "Acceptance criteria style" false) ]);
    ("requirements",
      [ ("projectName", meta "project" "general.name" "Project name" false);
        ("businessGoals", meta "project" "general.goals" "Business goals" false);
        ("userTypes", meta "project" "general.roles" "User types/roles" true);
        ("constraints", meta "project" "general.issues" "Constraints / pain points" false);
        ("acceptanceCriteria", meta "project" "general.acStyle" "Acceptance criteria style" false);
        ("meetingObjectives", meta "project" "general.goals" "Meeting objectives / goals" false);
        ("meetingAttendees", meta "project" "general.teamMembers" "Attendees / team members" true) ]) ].

(** An element of the rendered form that matches
    [[data-entity][data-path]]: its [id], [name] and [dataset]. *)
Record semanticEl : Type := {
  sem_id : string;
  sem_name : string;
  data_entity : string;
  data_path : string;
  data_label : option string;
  data_isList : option string;
}.

Definition str_or (a b : string) : string := if nonempty a then a else b.

(** [buildSemanticMap(phaseKey)]; [root] is [None] when
    [getFormFieldsRoot()] finds no form, and otherwise lists the elements
    that carry semantic hints, in document order. *)
Definition buildSemanticMap (root : option (list semanticEl)) (phaseKey : string)
  : list (string * SemanticFieldMeta) :=
  let merged := default [] (alist_get FIELD_SEMANTIC_MAP phaseKey) in
  match root with
  | None => merged
  | Some semanticEls =>
      foldl
        (fun merged el =>
           let name := str_or (sem_id el) (sem_name el) in
           if negb (nonempty name) then merged
           else
             alist_set merged name
               {| entity := data_entity el;
                  path := data_path el;
                  label := str_or (default "" (data_label el)) name;
                  isList := bool_decide (data_isList el = Some "true") |})
        merged semanticEls
  end.

(** ** Forward mapping *)

Record entityRec : Type := {
  ent_id : string;
  ent_name : string;
  details : value;
}.

Record Suggestion : Type := {
  s_entity : string;
  s_path : string;
  s_label : string;
  oldValue : value;
  newValue : value;
}.

Record UpdatePayload : Type := {
  projectUpdates : value;
  featureUpdates : value;
  suggestions : list Suggestion;
}.

Definition general_empty : value := VObj [("general", empty_obj)].

(** [entity?.details] *)
Definition opt_details (e : option entityRec) : value :=
  match e with
  | Some r => details r
  | None => VUndef
  end.

(** [a.toLowerCase() === b.toLowerCase()] *)
Definition ci_eqb (a b : string) : bool :=
  String.eqb (Js.toLowerCase a) (Js.toLowerCase b).

(** [s !== v] for a string [s] *)
Definition str_strict_neq (s : string) (v : value) : bool :=
  match v with
  | VStr t => negb (String.eqb s t)
  | _ => true
  end.

(** The write shared by both branches of the callback: [setByPath] into
    the payload of the entity, then [suggestions.push]. *)
Definition emit (st : UpdatePayload) (fieldKey : string) (m : SemanticFieldMeta)
    (currentVal new : value) : result UpdatePayload :=
  st' ← (if String.eqb (entity m) "feature" then
           fu ← setByPath (featureUpdates st) (path m) new;
           mret {| projectUpdates := projectUpdates st;
                   featureUpdates := fu;
                   suggestions := suggestions st |}
         else
           pu ← setByPath (projectUpdates st) (path m) new;
           mret {| projectUpdates := pu;
                   featureUpdates := featureUpdates st;
                   suggestions := suggestions st |});
  mret {| projectUpdates := projectUpdates st';
          featureUpdates := featureUpdates st';
          suggestions :=
            suggestions st' ++
              [ {| s_entity := entity m;
                   s_path := path m;
                   s_label := str_or (label m) fieldKey;
                   oldValue := js_or currentVal (VStr "");
                   newValue := new |} ] |}.

(** The callback of [Object.entries(map).forEach] in
    [deriveProjectUpdates]. *)
Definition deriveField (project feature : option entityRec)
    (formValues : list (string * value))
    (st : UpdatePayload) (entry : string * SemanticFieldMeta)
  : result UpdatePayload :=
  let '(fieldKey, m) := entry in
  let value := default VUndef (alist_get formValues fieldKey) in
  match value with
  | VUndef | VNull => Ok st
  | _ =>
    let trimmed := match value with VStr s => VStr (Js.trim s) | _ => value end in
    if negb (truthy trimmed) then Ok st
    else
      let entityDetails :=
        if String.eqb (entity m) "feature"
        then js_or (opt_details feature) empty_obj
        else js_or (opt_details project) empty_obj in
      let currentVal := getByPath entityDetails (path m) in
      if isList m then
        incomingItems ← normalizeList trimmed;
        if bool_decide (incomingItems = []) then Ok st
        else
          currentList ← normalizeList (js_or currentVal (VStr ""));
          let newItems :=
            List.filter
              (fun v => negb (existsb (fun existing => ci_eqb existing v) currentList))
              incomingItems in
          if bool_decide (newItems = []) then Ok st
          else
            merged ← mergeList (js_or currentVal (VStr "")) newItems;
            emit st fieldKey m currentVal (VStr merged)
      else
        let currentString := Js.trim (js_toString (js_or currentVal (VStr ""))) in
        if negb (nonempty currentString) || str_strict_neq currentString trimmed
        then emit st fieldKey m currentVal trimmed
        else Ok st
  end.

(** [xs.forEach(f)] threading the state, stopping at the first throw. *)
Fixpoint forEachM {A S : Type} (f : S -> A -> result S) (xs : list A) (s : S)
  : result S :=
  match xs with
  | [] => Ok s
  | x :: xs' => s' ← f s x; forEachM f xs' s'
  end.

(** How a run of statements over a mutable state ends.  What was
    written before a throw stays written. *)
Inductive completion : Type := Normal | Threw.

(** [xs.forEach(f)] over a state that is mutated in place: at the first
    throw the state is the one reached so far. *)
Fixpoint forEachKeep {A S : Type} (f : S -> A -> result S) (xs : list A) (s : S)
  : S * completion :=
  match xs with
  | [] => (s, Normal)
  | x :: xs' =>
      match f s x with
      | Ok s' => forEachKeep f xs' s'
      | Throw => (s, Threw)
      end
  end.

(** The same when the body is itself a run of statements over the
    state. *)
Fixpoint forEachStop {A S : Type} (f : S -> A -> S * completion) (xs : list A)
    (s : S) : S * completion :=
  match xs with
  | [] => (s, Normal)
  | x :: xs' =>
      match f s x with
      | (s', Normal) => forEachStop f xs' s'
      | (s', Threw) => (s', Threw)
      end
  end.

Definition deriveProjectUpdates (root : option (list semanticEl))
    (project feature : option entityRec) (formId : string)
    (formValues : list (string * value)) : result UpdatePayload :=
  forEachM (deriveField project feature formValues)
    (buildSemanticMap root formId)
    {| projectUpdates := general_empty;
       featureUpdates := general_empty;
       suggestions := [] |}.

(** ** Persisting the suggestions

    The part of [applySuggestions] that computes the details sent to the
    Store and replaces the cached records by the Store's answer.  The
    session is logged in, the requests succeed, and the Store answers
    with the details it was sent. *)

(** [d.phaseData = d.phaseData || {}; if (phaseKey) d.phaseData[phaseKey]
    = formValues] *)
Definition savePhaseData (d : value) (phaseKey : string)
    (formValues : list (string * value)) : result value :=
  d1 ← setProp d "phaseData" (js_or (getProp d "phaseData") empty_obj);
  if nonempty phaseKey then
    pd ← setProp (getProp d1 "phaseData") phaseKey (VObj formValues);
    setProp d1 "phaseData" pd
  else Ok d1.

Definition projectDetailsToSave (proj : entityRec) (projUpdates : value)
    (phaseKey : string) (formValues : list (string * value)) : result value :=
  let projDetails := VObj (spread (js_or (details proj) empty_obj)) in
  d1 ← setProp projDetails "general"
         (VObj (spread (js_or (getProp projDetails "general") empty_obj)));
  d2 ← savePhaseData d1 phaseKey formValues;
  if truthy (getProp projUpdates "general") then
    g ← forEachM (fun g kv => setProp g kv.1 kv.2)
          (spread (getProp projUpdates "general")) (getProp d2 "general");
    setProp d2 "general" g
  else Ok d2.

Definition featureDetailsToSave (feat : entityRec) (featUpdates : value)
    (phaseKey : string) (formValues : list (string * value)) : result value :=
  let fDetails := VObj (spread (js_or (details feat) empty_obj)) in
  d1 ← setProp fDetails "general"
         (VObj (alist_assign
                  (spread (js_or (getProp fDetails "general") empty_obj))
                  (spread (getProp featUpdates "general"))));
  savePhaseData d1 phaseKey formValues.

Definition with_details (e : entityRec) (d : value) : entityRec :=
  {| ent_id := ent_id e; ent_name := ent_name e; details := d |}.

(** The cached project and feature after [applySuggestions]. *)
Definition applySuggestions (proj feat : option entityRec)
    (pendingUpdatePayload : option UpdatePayload) (phaseKey : string)
    (formValues : list (string * value))
  : result (option entityRec * option entityRec) :=
  match proj with
  | None => Ok (proj, feat)
  | Some p =>
      let projUpdates :=
        match pendingUpdatePayload with
        | Some u => js_or (projectUpdates u) empty_obj
        | None => empty_obj
        end in
      let featUpdates :=
        match pendingUpdatePayload with
        | Some u => js_or (featureUpdates u) empty_obj
        | None => empty_obj
        end in
      pd ← projectDetailsToSave p projUpdates phaseKey formValues;
      match feat with
      | Some f =>
          if truthy (getProp featUpdates "general")
             && negb (bool_decide (spread (getProp featUpdates "general") = []))
          then
            fd ← featureDetailsToSave f featUpdates phaseKey formValues;
            mret (Some (with_details p pd), Some (with_details f fd))
          else mret (Some (with_details p pd), feat)
      | None => mret (Some (with_details p pd), feat)
      end
  end.

Fixpoint str_forall (p : ascii -> bool) (s : string) : bool :=
  match s with
  | EmptyString => true
  | String c s' => p c && str_forall p s'
  end.

(** ** The rendered form

    An element below the root of the form fields, with what the prefill
    code reads from it.  A control is an [input], a [textarea] or a
    [select]; the other elements (the container of a group of fields,
    the body of a table) are listed because a selector can find them.
    [el_id] and [el_name] are [""] on an element without the attribute,
    [el_type] is the property [type], [el_label] is the text of the
    label of the enclosing form group ([""] if there is none) and
    [el_options] lists the options of a select as (text, value).

    [el_value] is the string held by the property [value].  On a control
    the property turns what it is assigned into a string.  The other
    elements that a selector finds are containers, without a [value] of
    their own: on them it is a plain property, undefined until it is
    assigned, that keeps what it is assigned as it is.  The code only
    tests it for being falsy or blank, so [undefined], [null] and the
    empty string are all [""], and [el_object] tells that it holds an
    object instead of a string.

    The form has no participant table and no file input, and assigning
    [value] to a control stores the string as it is except on a
    select. *)
Record formEl : Type := {
  el_id : string;
  el_name : string;
  el_tag : string;
  el_type : string;
  el_classes : list string;
  el_label : string;
  el_options : list (string * string);
  el_value : string;
  el_object : bool;
}.

Definition with_value (el : formEl) (v : string) : formEl :=
  {| el_id := el_id el; el_name := el_name el; el_tag := el_tag el;
     el_type := el_type el; el_classes := el_classes el;
     el_label := el_label el; el_options := el_options el;
     el_value := v; el_object := el_object el |}.

Definition str_in (s : string) (l : list string) : bool :=
  existsb (String.eqb s) l.

(** What [querySelectorAll("input, textarea, select")] selects. *)
Definition is_control (el : formEl) : bool :=
  str_in (el_tag el) ["INPUT"; "TEXTAREA"; "SELECT"].

(** What a plain property keeps of [val]. *)
Definition with_property (el : formEl) (val : value) : formEl :=
  {| el_id := el_id el; el_name := el_name el; el_tag := el_tag el;
     el_type := el_type el; el_classes := el_classes el;
     el_label := el_label el; el_options := el_options el;
     el_value := match val with VStr s => s | _ => "" end;
     el_object := match val with VObj _ => true | _ => false end |}.

(** [el.value = val]: a select takes the value only if one of its options
    has it and is otherwise left without selection; [null] is the empty
    string for an input or a textarea. *)
Definition assign_value (el : formEl) (val : value) : formEl :=
  if String.eqb (el_tag el) "SELECT" then
    let v := js_toString val in
    with_value el (if str_in v (map snd (el_options el)) then v else "")
  else if is_control el then
    with_value el (match val with VNull => "" | _ => js_toString val end)
  else with_property el val.

(** [!s || s.trim() === ""] *)
Definition is_blank (s : string) : bool :=
  negb (nonempty s) || negb (nonempty (Js.trim s)).

(** [!el.value || el.value.trim() === ""]: an object is truthy and has
    no [trim]. *)
Definition blank (el : formEl) : result bool :=
  if negb (is_control el) && el_object el then Throw
  else Ok (is_blank (el_value el)).

Fixpoint find_index {A} (p : A -> bool) (l : list A) : option nat :=
  match l with
  | [] => None
  | x :: l' => if p x then Some 0 else S <$> find_index p l'
  end.

(** A CSS identifier without escapes: letters, digits, [_], [-] and the
    code units from U+0080 on, not starting with a digit, nor with a
    hyphen that a digit or nothing follows. *)
Definition name_start (c : ascii) : bool :=
  let n := nat_of_ascii c in
  ((65 <=? n) && (n <=? 90)) || ((97 <=? n) && (n <=? 122))
  || (n =? 95) || (128 <=? n).

Definition name_char (c : ascii) : bool :=
  let n := nat_of_ascii c in
  name_start c || ((48 <=? n) && (n <=? 57)) || (n =? 45).

Definition css_ident (s : string) : bool :=
  match s with
  | EmptyString => false
  | String c s' =>
      if Ascii.eqb c "-"%char then
        match s' with
        | EmptyString => false
        | String d _ =>
            (name_start d || Ascii.eqb d "-"%char) && str_forall name_char s'
        end
      else name_start c && str_forall name_char s'
  end.

(** [formFields.querySelector(`#${id}`)]: the first element with the
    identifier. *)
Definition query_id (form : list formEl) (id : string) : result (option nat) :=
  if css_ident id
  then Ok (find_index (fun el => String.eqb (el_id el) id) form)
  else Throw.

(** [formFields.querySelector(`[name="${id}"]`)], which is evaluated
    only when [#id] was no error. *)
Definition query_name (form : list formEl) (id : string) : option nat :=
  find_index (fun el => String.eqb (el_name el) id) form.

Definition query_id_or_name (form : list formEl) (id : string)
  : result (option nat) :=
  found ← query_id form id;
  match found with
  | Some i => Ok (Some i)
  | None => Ok (query_name form id)
  end.

(** [collectRawFormValues()] *)
Definition collectRawFormValues (form : list formEl) : list (string * value) :=
  foldl (fun values el => alist_set values (el_id el) (VStr (el_value el)))
    [] (List.filter is_control form).

(** [applyRawFormValues(values)]: the form afterwards and how the loop
    over the saved values ended. *)
Definition applyRawValue (form : list formEl) (kv : string * value)
  : result (list formEl) :=
  found ← query_id form kv.1;
  match found with
  | Some i => Ok (alter (fun el => assign_value el kv.2) i form)
  | None => Ok form
  end.

Definition applyRawFormValues (form : list formEl)
    (values : list (string * value)) : list formEl * completion :=
  forEachKeep applyRawValue values form.

(** [setFieldValue(fieldKey, targetEl, val)].  For a hidden input or a
    participant table [populateParticipantTableFromString] returns at its
    guard, there being no table body. *)
Definition setFieldValue (el : formEl) (val : value) : formEl :=
  if String.eqb (el_type el) "hidden" || str_in "participant-table" (el_classes el)
  then el
  else assign_value el val.

(** The local [setIfEmpty] of [prefillFromProject]: the form afterwards
    and [setIfEmpty(id, val) || applied]. *)
Definition setIfEmpty (st : list formEl * bool) (id : string) (val : value)
  : result (list formEl * bool) :=
  let '(form, applied) := st in
  if negb (truthy val) then Ok st
  else
    found ← query_id_or_name form id;
    match found with
    | Some i =>
        match form !! i with
        | Some el =>
            b ← blank el;
            if b : bool
            then Ok (alter (fun el => setFieldValue el val) i form, true)
            else Ok st
        | None => Ok st
        end
    | None => Ok st
    end.

(** The callback of [ids.forEach] in [applyGeneralMapping]. *)
Definition generalTarget (val : value) (st : list formEl * bool) (id : string)
  : result (list formEl * bool) :=
  let '(form, applied) := st in
  found ← query_id form id;
  match found with
  | Some i =>
      match form !! i with
      | Some el =>
          b ← blank el;
          if b : bool
          then Ok (alter (fun el => assign_value el val) i form, true)
          else Ok st
      | None => Ok st
      end
  | None => Ok st
  end.

(** [applyGeneralMapping(general)]: the form afterwards, the flag
    [applied], and how the loops ended. *)
Definition applyGeneralMapping (form : list formEl) (general : value)
  : (list formEl * bool) * completion :=
  if negb (truthy general) then ((form, false), Normal)
  else
    let g k := getProp general k in
    let mapTargets : list (list string * value) :=
      [ (["project-name"; "projectName"], js_or (g "name") (VStr ""));
        (["project-description"; "featureDescription"; "businessGoals";
          "business-objectives"; "functional-requirements";
          "current-pain-points"],
         js_or (js_or (g "overview") (g "description")) (VStr ""));
        (["featureDescription"],
         js_or (js_or (g "description") (g "overview")) (VStr ""));
        (["stakeholders"; "key-stakeholders"], js_or (g "stakeholders") (VStr ""));
        (["goals"; "primary-goals"; "acceptanceCriteria"; "success-metrics";
          "non-functional-requirements"],
         js_or (g "goals") (VStr "")) ] in
    forEachStop
      (fun st target =>
         let '(ids, val) := target in
         if negb (truthy val) then (st, Normal)
         else forEachKeep (generalTarget val) ids st)
      mapTargets (form, false).

(** The option chosen for a select by [applyHeuristicMapping]: the two
    nested [forEach] loops over the options and the tokens, with the
    state [(bestMatch, bestScore)]. *)
Definition option_score (opt : string * string) (token : string) : nat :=
  let optText := Js.toLowerCase opt.1 in
  let optVal := Js.toLowerCase opt.2 in
  let direct := String.eqb optText token || String.eqb optVal token in
  let includes :=
    Js.includes optText token || Js.includes token optText
    || Js.includes optVal token in
  if direct then String.length token + 5
  else if includes then String.length token else 0.

Definition best_step (opt : string * string)
    (st : option (string * string) * nat) (token : string)
  : option (string * string) * nat :=
  if negb (nonempty token) then st
  else
    let score := option_score opt token in
    if st.2 <? score then (Some opt, score) else st.

Definition selectBestMatch (roleTokens : list string)
    (options : list (string * string)) : option (string * string) * nat :=
  foldl (fun st opt => foldl (best_step opt) st roleTokens) (None, 0) options.

(** [candidates.find((v) => v && v.trim())]; [trim] is not a function of
    an object. *)
Fixpoint find_candidate (candidates : list value) : result value :=
  match candidates with
  | [] => Ok VUndef
  | v :: rest =>
      if negb (truthy v) then find_candidate rest
      else
        match v with
        | VStr s => if nonempty (Js.trim s) then Ok v else find_candidate rest
        | _ => Throw
        end
  end.

(** The body of [inputs.forEach] in [applyHeuristicMapping]: the new
    state of one control and whether it was set. *)
Definition heuristicField (data : value) (el : formEl)
  : result (formEl * bool) :=
  if negb (is_blank (el_value el)) then Ok (el, false)
  else if str_in (el_type el) ["date"; "time"; "datetime-local"; "number"]
  then Ok (el, false)
  else
    let lbl := Js.toLowerCase (el_label el) in
    let d k := getProp data k in
    let has k := Js.includes lbl k in
    let candidates : list value :=
      (if has "name" || has "title" then [d "name"] else [])
      ++ (if has "feature"
          then [js_or (js_or (d "featureDescription") (d "description")) (d "overview")]
          else [])
      ++ (if has "description" || has "overview"
          then [js_or (d "description") (d "overview")] else [])
      ++ (if has "stakeholder" then [d "stakeholders"] else [])
      ++ (if has "goal" || has "objective" || has "success"
          then [d "goals"] else [])
      ++ (if has "requirement"
          then [js_or (d "requirements") (d "overview")] else [])
      ++ (if has "pain" || has "issue"
          then [js_or (d "issues") (d "overview")] else [])
      ++ (if has "role" || has "team"
          then [js_or (d "roles") (d "teamMembers")] else [])
      ++ (if has "acceptance" || has "criteria" || has "gherkin"
          then [d "acStyle"] else [])
      ++ (if has "response" || has "summary"
          then [js_or (js_or (d "llmResponse") (d "requirements")) (d "overview")]
          else []) in
    found ← find_candidate candidates;
    if String.eqb (el_tag el) "SELECT" then
      let rolesString := js_toString (js_or found (VStr "")) in
      let roleTokens :=
        List.filter nonempty
          (map (fun r => Js.toLowerCase (Js.trim r))
             (Js.split_char ","%char rolesString)) in
      match (selectBestMatch roleTokens (el_options el)).1 with
      | Some bestMatch => Ok (assign_value el (VStr bestMatch.2), true)
      | None => Ok (el, false)
      end
    else if truthy found then Ok (assign_value el found, true)
    else Ok (el, false).

(** [applyHeuristicMapping(data)] over the controls of the form: the
    form afterwards, the flag [applied], and how the loop ended.  The
    controls before the one at which [find] throws keep what they were
    given. *)
Fixpoint applyHeuristicMapping (form : list formEl) (data : value)
  : (list formEl * bool) * completion :=
  match form with
  | [] => (([], false), Normal)
  | el :: rest =>
      if negb (is_control el) then
        let '((rest', applied), c) := applyHeuristicMapping rest data in
        ((el :: rest', applied), c)
      else
        match heuristicField data el with
        | Ok r =>
            let '((rest', applied), c) := applyHeuristicMapping rest data in
            ((r.1 :: rest', r.2 || applied), c)
        | Throw => ((el :: rest, false), Threw)
        end
  end.

(** ** Reverse mapping *)

Section Prefill.

Variable JSON_parse : string -> result value.

(** The local [getVal] of [prefillFromProject]. *)
Definition listed (m : SemanticFieldMeta) (v : value) : result value :=
  if isList m then
    items ← normalizeList v;
    mret (VStr (Js.join ", " items))
  else Ok v.

Fixpoint getVal_sources (sources : list value) (m : SemanticFieldMeta)
    (fieldKey : string) : result (option value) :=
  match sources with
  | [] => Ok None
  | src :: rest =>
      let direct := getByPath src (path m) in
      if truthy direct then Some <$> listed m direct
      else if truthy src && truthy (getProp src fieldKey)
      then Some <$> listed m (getProp src fieldKey)
      else getVal_sources rest m fieldKey
  end.

Definition getVal (sources : list value) (featureGeneral projectGeneral : value)
    (m : SemanticFieldMeta) (fieldKey : string) : result value :=
  r ← getVal_sources sources m fieldKey;
  match r with
  | Some v => Ok v
  | None =>
      let fallback :=
        js_or (js_or (js_or (js_or (getProp featureGeneral "overview")
                                   (getProp projectGeneral "overview"))
                            (getProp featureGeneral "description"))
                     (getProp projectGeneral "description"))
              (VStr "") in
      if negb (isList m) && Js.includes (path m) "description" && truthy fallback
      then Ok fallback
      else Ok (VStr "")
  end.

(** The callback of [Object.entries(map).forEach] in
    [prefillFromProject]. *)
Definition prefillField (sources : list value)
    (featureGeneral projectGeneral : value)
    (st : list formEl * bool) (entry : string * SemanticFieldMeta)
  : result (list formEl * bool) :=
  let '(fieldKey, m) := entry in
  let '(form, applied) := st in
  found ← query_id_or_name form fieldKey;
  match found with
  | None => Ok st
  | Some i =>
      match form !! i with
      | None => Ok st
      | Some targetEl =>
          b ← blank targetEl;
          if negb b then Ok st
          else
            val ← getVal sources featureGeneral projectGeneral m fieldKey;
            if negb (truthy val) then Ok st
            else Ok (alter (fun el => setFieldValue el val) i form, true)
      end
  end.

(** The saved submission of the phase, the feature's before the
    project's, and the details it is read from. *)
Definition cachedDetails (e : option entityRec) : value :=
  match e with
  | Some r => normalizeDetails JSON_parse (details r)
  | None => empty_obj
  end.

Definition savedPhaseValues (phaseKey : string)
    (proj feat : option entityRec) : value :=
  let featurePhaseData :=
    js_or (getProp (cachedDetails feat) "phaseData") empty_obj in
  let projectPhaseData :=
    js_or (getProp (cachedDetails proj) "phaseData") empty_obj in
  js_or (js_or (getProp featurePhaseData phaseKey)
               (getProp projectPhaseData phaseKey)) empty_obj.

(** The calls of [setIfEmpty] for the three core phases, with their
    arguments. *)
Definition knownCalls (phaseKey : string)
    (featureGeneral projectGeneral : value) : list (string * value) :=
  let fg k := getProp featureGeneral k in
  let pg k := getProp projectGeneral k in
  (if String.eqb phaseKey "discovery" then
     [ ("teamMembers", pg "teamMembers");
       ("stakeholders", pg "stakeholders");
       ("featureDescription",
        js_or (js_or (fg "description") (fg "overview")) (pg "overview"));
       ("featureSize",
        js_or (js_or (js_or (fg "tShirtSize") (fg "size")) (pg "tShirtSize"))
          (pg "size"));
       ("business-objectives", pg "goals") ]
   else [])
  ++ (if String.eqb phaseKey "stories" then
        [ ("epicName", js_or (fg "name") (pg "name"));
          ("storyDetails",
           js_or (js_or (fg "description") (fg "overview")) (pg "overview"));
          ("userRoles", pg "roles");
          ("acceptanceCriteria", pg "acStyle") ]
      else [])
  ++ (if String.eqb phaseKey "requirements" then
        [ ("projectName", pg "name");
          ("businessGoals", pg "goals");
          ("userTypes", pg "roles");
          ("constraints", pg "issues");
          ("acceptanceCriteria", pg "acStyle");
          ("meetingObjectives", pg "goals");
          ("meetingAttendees", pg "teamMembers") ]
      else []).

Definition knownMappings (phaseKey : string)
    (featureGeneral projectGeneral : value) (st0 : list formEl * bool)
  : (list formEl * bool) * completion :=
  forEachKeep (fun st call => setIfEmpty st call.1 call.2)
    (knownCalls phaseKey featureGeneral projectGeneral) st0.

(** The fallback [applyGeneralMapping(projectGeneral) ||
    applyGeneralMapping(featureGeneral) || applyHeuristicMapping(data)],
    evaluated from left to right until one applies. *)
Definition fallbackMappings (form : list formEl)
    (projectGeneral featureGeneral data : value)
  : list formEl * completion :=
  match applyGeneralMapping form projectGeneral with
  | (r1, Threw) => (r1.1, Threw)
  | (r1, Normal) =>
      if r1.2 then (r1.1, Normal)
      else
        match applyGeneralMapping r1.1 featureGeneral with
        | (r2, Threw) => (r2.1, Threw)
        | (r2, Normal) =>
            if r2.2 then (r2.1, Normal)
            else
              let r3 := applyHeuristicMapping r2.1 data in
              (r3.1.1, r3.2)
        end
  end.

(** [prefillFromProject()] once the caches are loaded: [proj] and
    [feat] are the cached records of the active project and feature,
    [phaseKey] the resolved phase, [form] the elements of the rendered
    form and [hints] those with semantic hints.  The result is the form
    afterwards and how the run ended. *)
Definition prefillFromProject (phaseKey : string)
    (proj feat : option entityRec) (hints : list semanticEl)
    (form : list formEl) : list formEl * completion :=
  match proj, feat with
  | None, None => (form, Normal)
  | _, _ =>
    let projDetails := cachedDetails proj in
    let featDetails := cachedDetails feat in
    let featurePhaseData := js_or (getProp featDetails "phaseData") empty_obj in
    let featureGeneral := js_or (getProp featDetails "general") empty_obj in
    let projectPhaseData := js_or (getProp projDetails "phaseData") empty_obj in
    let projectGeneral := js_or (getProp projDetails "general") empty_obj in
    let phaseValues := savedPhaseValues phaseKey proj feat in
    let r0 :=
      if negb (bool_decide (spread phaseValues = []))
      then
        let r := applyRawFormValues form (spread phaseValues) in
        ((r.1, true), r.2)
      else ((form, false), Normal) in
    let savedResponse :=
      js_or (js_or
               (getProp (js_or (getProp featurePhaseData phaseKey) empty_obj)
                  "llmResponse")
               (getProp (js_or (getProp projectPhaseData phaseKey) empty_obj)
                  "llmResponse"))
            (VStr "") in
    let sources :=
      [ js_or featureGeneral empty_obj;
        js_or projectGeneral empty_obj;
        js_or (getProp featurePhaseData phaseKey) empty_obj;
        js_or (getProp projectPhaseData phaseKey) empty_obj;
        if truthy savedResponse
        then VObj [("llmResponse", savedResponse)] else empty_obj ] in
    match r0 with
    | (st0, Threw) => (st0.1, Threw)
    | (st0, Normal) =>
        match knownMappings phaseKey featureGeneral projectGeneral st0 with
        | (st3, Threw) => (st3.1, Threw)
        | (st3, Normal) =>
            match forEachKeep
                    (prefillField sources featureGeneral projectGeneral)
                    (buildSemanticMap (Some hints) phaseKey) st3 with
            | (st4, Threw) => (st4.1, Threw)
            | (st4, Normal) =>
                if negb st4.2 then
                  fallbackMappings st4.1 projectGeneral featureGeneral
                    (VObj (alist_set
                             (alist_assign
                                (alist_assign (spread projectGeneral)
                                   (spread featureGeneral))
                                (spread phaseValues))
                             "llmResponse" (js_or savedResponse (VStr ""))))
                else (st4.1, Normal)
            end
        end
    end
  end.

End Prefill.

(** ** Extraction from a pasted response *)

(** The alternation [(?:k1|k2|...)] under the [i] flag at the start of
    [s]: the text left after the first alternative that matches.  The
    alternatives are lower-case ASCII. *)
Fixpoint strip_prefix_ci (k s : string) : option string :=
  match k, s with
  | EmptyString, _ => Some s
  | String a k', String c s' =>
      if Ascii.eqb (Js.lower_char c) a then strip_prefix_ci k' s' else None
  | String _ _, EmptyString => None
  end.

(** [[^.]*\.] at the start of [s]: the text through the first period. *)
Fixpoint through_period (s : string) : option string :=
  match s with
  | EmptyString => None
  | String c s' =>
      if Ascii.eqb c "."%char then Some (String c EmptyString)
      else String c <$> through_period s'
  end.

Fixpoint take_str (n : nat) (s : string) : string :=
  match n, s with
  | S n', String c s' => String c (take_str n' s')
  | _, _ => EmptyString
  end.

(** One attempt of [/(?:k1|k2|...)[^.]*\./i] at the start of [s],
    alternatives tried in order with backtracking. *)
Fixpoint match_at (keywords : list string) (s : string) : option string :=
  match keywords with
  | [] => None
  | k :: rest =>
      match strip_prefix_ci k s ≫= through_period with
      | Some tail => Some (take_str (String.length k) s +:+ tail)
      | None => match_at rest s
      end
  end.

(** [text.match(/(?:k1|k2|...)[^.]*\./gi)]: the successive matches from
    left to right, each search resuming after the previous match; [skip]
    counts the characters of the last match still to pass.  The empty
    list stands for [null]. *)
Fixpoint match_all (keywords : list string) (skip : nat) (s : string)
  : list string :=
  match s with
  | EmptyString => []
  | String _ s' =>
      match skip with
      | S n => match_all keywords n s'
      | O =>
          match match_at keywords s with
          | Some m => m :: match_all keywords (String.length m - 1) s'
          | None => match_all keywords 0 s'
          end
      end
  end.

(** [const m = response.match(re); if (m) data.f = m.join(" ").trim()] *)
Definition extract (keywords : list string) (response : string) : option string :=
  match match_all keywords 0 response with
  | [] => None
  | ms => Some (Js.trim (Js.join " " ms))
  end.

Definition extract_or (primary fallback : list string) (response : string)
  : option string :=
  match extract primary response with
  | Some r => Some r
  | None => extract fallback response
  end.

Module Keywords.
Definition stakeholder : list string :=
  ["stakeholder"; "role"; "responsibility"; "team"; "user"; "person";
   "individual"; "member"; "decision maker"; "end user"; "support team";
   "participant"; "involve"; "engage"].
Definition people : list string :=
  ["people"; "individuals"; "users"; "staff"; "employees"; "customers";
   "clients"; "managers"; "directors"; "executives"; "teams"; "departments"].
Definition painPoint : list string :=
  ["pain point"; "issue"; "problem"; "bottleneck"; "inefficiency";
   "challenge"; "difficulty"; "barrier"; "obstacle"; "frustration";
   "complaint"; "gap"; "weakness"; "limitation"; "constraint"; "blocker";
   "roadblock"].
Definition problem : list string :=
  ["problems"; "issues"; "challenges"; "difficulties"; "barriers";
   "obstacles"; "frustrations"; "complaints"; "gaps"; "weaknesses";
   "limitations"; "constraints"; "blockers"; "roadblocks"].
Definition metric : list string :=
  ["metric"; "kpi"; "measure"; "performance"; "baseline"; "target"; "goal";
   "objective"; "success"; "outcome"; "result"; "indicator"; "measurement";
   "benchmark"; "standard"; "criteria"; "threshold"].
Definition success : list string :=
  ["success"; "outcome"; "result"; "performance"; "measurement";
   "benchmark"; "standard"; "criteria"; "threshold"; "target"; "goal";
   "objective"].
Definition tech : list string :=
  ["technology"; "system"; "tool"; "platform"; "integration"; "software";
   "hardware"; "database"; "api"; "interface"; "constraint"; "limitation";
   "requirement"; "dependency"; "compatibility"; "security"; "compliance";
   "performance"; "capacity"; "resource"].
Definition technical : list string :=
  ["technical"; "system"; "tool"; "platform"; "integration"; "software";
   "hardware"; "database"; "api"; "interface"; "constraint"; "limitation";
   "requirement"; "dependency"; "compatibility"; "security"; "compliance";
   "performance"; "capacity"; "resource"].
Definition timeline : list string :=
  ["timeline"; "schedule"; "duration"; "phase"; "month"; "week"].
Definition budget : list string :=
  ["budget"; "cost"; "resource"; "investment"; "expense"].
Definition change : list string :=
  ["change"; "readiness"; "resistance"; "adoption"; "training"].
End Keywords.

(** The state [interactiveWorkflow]; [phases] holds the phase titles. *)
Record workflow : Type := {
  currentPhase : nat;
  phases : list string;
  totalPhases : nat;
  currentFormData : list (string * value);
}.

Definition put_field (key : string) (v : option string)
    (data : list (string * value)) : list (string * value) :=
  match v with
  | Some s => alist_set data key (VStr s)
  | None => data
  end.

(** The object [extractedData] built for the phase [phaseIndex]. *)
Definition extractedData (phaseIndex : nat) (response : string)
  : list (string * value) :=
  match phaseIndex with
  | 0 =>
      put_field "technologyConstraints"
        (extract_or Keywords.tech Keywords.technical response)
        (put_field "successMetrics"
           (extract_or Keywords.metric Keywords.success response)
           (put_field "currentPainPoints"
              (extract_or Keywords.painPoint Keywords.problem response)
              (put_field "stakeholders"
                 (extract_or Keywords.stakeholder Keywords.people response)
                 [])))
  | 1 =>
      put_field "changeReadiness" (extract Keywords.change response)
        (put_field "budgetConstraints" (extract Keywords.budget response)
           (put_field "implementationTimeline"
              (extract Keywords.timeline response) []))
  | _ => []
  end.

(** [extractAndPrePopulateNextPhase(response, currentPhaseIndex)] *)
Definition extractAndPrePopulateNextPhase (wf : workflow) (response : string)
    (currentPhaseIndex : option nat) : result workflow :=
  let phaseIndex := default (currentPhase wf) currentPhaseIndex in
  let nextPhaseIndex := phaseIndex + 1 in
  if totalPhases wf <=? nextPhaseIndex then Ok wf
  else
    match phases wf !! nextPhaseIndex with
    | None => Throw
    | Some _ =>
        Ok {| currentPhase := currentPhase wf;
              phases := phases wf;
              totalPhases := totalPhases wf;
              currentFormData :=
                alist_assign (currentFormData wf)
                  (extractedData phaseIndex response) |}
    end.

(** The state [interactiveWorkflow] together with its [phaseResults],
    the pasted responses by phase index. *)
Record session : Type := {
  flow : workflow;
  phaseResults : gmap nat string;
}.

(** [startInteractiveWorkflow(config)], with the titles of
    [config.phases]. *)
Definition startInteractiveWorkflow (config_phases : list string) : session :=
  {| flow := {| currentPhase := 0;
                phases := config_phases;
                totalPhases := length config_phases;
                currentFormData := [] |};
     phaseResults := ∅ |}.

(** [prePopulateNextPhase()]; showing the interface afterwards leaves the
    state as it is.  At phase 0 there is no result of index -1. *)
Definition prePopulateNextPhase (s : session) : session * completion :=
  match currentPhase (flow s) with
  | 0 => (s, Normal)
  | S previousPhaseIndex =>
      let previousResults := default "" (phaseResults s !! previousPhaseIndex) in
      if nonempty previousResults then
        match extractAndPrePopulateNextPhase (flow s) previousResults
                (Some previousPhaseIndex) with
        | Ok wf => ({| flow := wf; phaseResults := phaseResults s |}, Normal)
        | Throw => (s, Threw)
        end
      else (s, Normal)
  end.

(** [proceedToNextPhase()]; [responseInput] is the value of the response
    box, [None] when the box is not in the document.  Completing the
    workflow only renders the results. *)
Definition proceedToNextPhase (s : session) (responseInput : option string)
  : session * completion :=
  let results :=
    match responseInput with
    | Some v =>
        if nonempty (Js.trim v)
        then <[currentPhase (flow s) := Js.trim v]> (phaseResults s)
        else phaseResults s
    | None => phaseResults s
    end in
  let s1 :=
    {| flow := {| currentPhase := currentPhase (flow s) + 1;
                  phases := phases (flow s);
                  totalPhases := totalPhases (flow s);
                  currentFormData := currentFormData (flow s) |};
       phaseResults := results |} in
  if currentPhase (flow s1) <? totalPhases (flow s1)
  then prePopulateNextPhase s1
  else (s1, Normal).

(** ** The participant table *)

(** The options of the role select of a row, as (text, value). *)
Definition participant_roles : list (string * string) :=
  [ ("Select role...", "");
    ("Product Manager", "Product Manager");
    ("Business Analyst", "Business Analyst");
    ("UX Designer", "UX Designer");
    ("UI Designer", "UI Designer");
    ("Developer", "Developer");
    ("QA Engineer", "QA Engineer");
    ("Project Manager", "Project Manager");
    ("Stakeholder", "Stakeholder");
    ("Subject Matter Expert", "Subject Matter Expert");
    ("End User", "End User");
    ("Technical Lead", "Technical Lead");
    ("Scrum Master", "Scrum Master");
    ("DevOps Engineer", "DevOps Engineer");
    ("Data Analyst", "Data Analyst");
    ("Security Specialist", "Security Specialist");
    ("Other", "Other") ].

(** A row of the table: the values of its name input and of its role
    select. *)
Record participantRow : Type := {
  row_name : string;
  row_role : string;
}.

(** [updateParticipantData(fieldName)]: the value given to the hidden
    input of the table. *)
Definition updateParticipantData (rows : list participantRow) : string :=
  Js.join "; "
    (map (fun r => Js.trim (row_name r) +:+ " - " +:+ row_role r)
       (List.filter
          (fun r => nonempty (Js.trim (row_name r)) && nonempty (row_role r))
          rows)).

(** Assigning the value of a text input removes the line breaks. *)
Fixpoint strip_newlines (s : string) : string :=
  match s with
  | EmptyString => EmptyString
  | String c s' =>
      if Ascii.eqb c "010"%char || Ascii.eqb c "013"%char
      then strip_newlines s'
      else String c (strip_newlines s')
  end.

(** The entry [{name, role}] read from one item of the stored string. *)
Definition participantEntry (v : string) : string * string :=
  let parts := map Js.trim (Js.split_char "-"%char v) in
  (default "" (head parts), Js.join "-" (tail parts)).

(** [Array.from(roleSelect.options).find(...)] *)
Definition role_option (role : string) : option (string * string) :=
  List.find (fun opt => ci_eqb opt.2 role || ci_eqb opt.1 role)
    participant_roles.

(** The row added for an entry: a new row has an empty name and the
    first option, of value [""], selected. *)
Definition participant_row_of (entry : string * string) : participantRow :=
  {| row_name := strip_newlines entry.1;
     row_role :=
       if nonempty entry.2 then
         match role_option entry.2 with
         | Some opt => opt.2
         | None => ""
         end
       else "" |}.

(** [populateParticipantTableFromString(fieldName, val)] for a field
    whose table body and hidden input are in the document: the rows of
    the table and the value of the hidden input afterwards.  [hidden] is
    the value of the hidden input before; the body is emptied before
    [normalizeList] can throw. *)
Definition populateParticipantTableFromString (hidden : string) (val : value)
  : (list participantRow * string) * completion :=
  match normalizeList val with
  | Throw => (([], hidden), Threw)
  | Ok items =>
      match map participantEntry items with
      | [] => (([ {| row_name := ""; row_role := "" |} ], ""), Normal)
      | entries =>
          let rows := map participant_row_of entries in
          ((rows, updateParticipantData rows), Normal)
      end
  end.

(** ** The project manager *)

(** The values of the six inputs of the project form. *)
Record projectForm : Type := {
  pf_name : string;
  pf_description : string;
  pf_stakeholders : string;
  pf_team : string;
  pf_roles : string;
  pf_acStyle : string;
}.

(** The body [{name, details}] of the request of [saveProject()] in a
    logged-in session; [None] when the name is blank and nothing is
    sent. *)
Definition saveProject (f : projectForm) : option (string * value) :=
  let name := Js.trim (pf_name f) in
  if negb (nonempty name) then None
  else
    Some (name,
          VObj [("general",
                 VObj [("overview", VStr (pf_description f));
                       ("stakeholders", VStr (pf_stakeholders f));
                       ("teamMembers", VStr (pf_team f));
                       ("roles", VStr (pf_roles f));
                       ("acStyle", VStr (pf_acStyle f));
                       ("name", VStr name)])]).

(** [populateProjectForm(proj)]: the strings assigned to the six
    inputs. *)
Definition populateProjectForm (proj : option entityRec) : projectForm :=
  let general := getProp (opt_details proj) "general" in
  let g k := getProp general k in
  let text v := js_toString (js_or v (VStr "")) in
  {| pf_name := match proj with Some p => ent_name p | None => "" end;
     pf_description := text (js_or (g "overview") (g "description"));
     pf_stakeholders := text (g "stakeholders");
     pf_team := text (g "teamMembers");
     pf_roles := text (g "roles");
     pf_acStyle := text (g "acStyle") |}.

(** ** Vocabulary of the properties *)

Definition no_delim (s : string) : bool :=
  str_forall (fun c => negb (Js.is_delim c)) s.

Definition no_comma (s : string) : bool :=
  str_forall (fun c => negb (Ascii.eqb c ","%char)) s.

(** An item as [normalizeList] produces them: trimmed, not empty and
    free of separators. *)
Definition clean (x : string) : Prop :=
  Js.trim x = x /\ x <> "" /\ no_delim x = true.

(** [v] equals an item of [l] up to case. *)
Definition ci_in (v : string) (l : list string) : bool :=
  existsb (fun e => ci_eqb e v) l.

(** The first occurrence of each item, items compared up to case. *)
Fixpoint first_ci (l : list string) : list string :=
  match l with
  | [] => []
  | x :: r => x :: List.filter (fun y => negb (ci_eqb x y)) (first_ci r)
  end.

(** What a merge appends to the [current] items: the incoming items,
    trimmed, that are not empty and not already among the current items
    up to case, each one once, in the order met. *)
Definition appended (current incoming : list string) : list string :=
  first_ci
    (List.filter (fun t => nonempty t && negb (ci_in t current))
       (map Js.trim incoming)).

(** No two items equal up to case. *)
Definition ci_unique (l : list string) : Prop :=
  NoDup (map Js.toLowerCase l).

(** The merge as the specification words it: every incoming item whose
    case-insensitive form is absent from the current list is appended. *)
Definition merge_as_specified (existing : string) (incoming : list string)
  : string :=
  let current := list_items existing in
  Js.join ", "
    (current ++ List.filter (fun v => negb (ci_in v current)) incoming).

(** The side an entry writes to, the details it reads and the value
    stored at its path. *)
Definition is_feature (m : SemanticFieldMeta) : bool :=
  String.eqb (entity m) "feature".

Definition target_details (project feature : option entityRec)
    (m : SemanticFieldMeta) : value :=
  if is_feature m then js_or (opt_details feature) empty_obj
  else js_or (opt_details project) empty_obj.

Definition stored_value (project feature : option entityRec)
    (m : SemanticFieldMeta) : value :=
  getByPath (target_details project feature m) (path m).

(** The stored value as text, empty when there is none. *)
Definition stored_text (cur : value) : string :=
  js_toString (js_or cur (VStr "")).

(** A payload of the shape [{general: {...}}] on both sides. *)
Definition payload_of (pu fu : list (string * value)) (sg : list Suggestion)
  : UpdatePayload :=
  {| projectUpdates := VObj [("general", VObj pu)];
     featureUpdates := VObj [("general", VObj fu)];
     suggestions := sg |}.

(** The suggestion of the entry [fieldKey -> m]. *)
Definition suggestion_for (fieldKey : string) (m : SemanticFieldMeta)
    (cur new : value) : Suggestion :=
  {| s_entity := entity m;
     s_path := path m;
     s_label := str_or (label m) fieldKey;
     oldValue := js_or cur (VStr "");
     newValue := new |}.

(** The payload after the entry [fieldKey -> m] has written [new] under
    [general.key] and pushed its suggestion. *)
Definition with_update (pu fu : list (string * value)) (sg : list Suggestion)
    (fieldKey : string) (m : SemanticFieldMeta) (key : string)
    (cur new : value) : UpdatePayload :=
  if is_feature m
  then payload_of pu (alist_set fu key new)
         (sg ++ [suggestion_for fieldKey m cur new])
  else payload_of (alist_set pu key new) fu
         (sg ++ [suggestion_for fieldKey m cur new]).

(** A submitted value that counts as empty: absent, [undefined], [null],
    or a string that is empty once trimmed. *)
Definition blank_value (v : option value) : Prop :=
  v = None \/ v = Some VUndef \/ v = Some VNull
  \/ exists s, v = Some (VStr s) /\ Js.trim s = "".

(** An option matches a token exactly when its text or its value, in
    lower case, is the token; it overlaps the token when one contains
    the other. *)
Definition exact_match (opt : string * string) (token : string) : bool :=
  String.eqb (Js.toLowerCase opt.1) token
  || String.eqb (Js.toLowerCase opt.2) token.

Definition overlaps (opt : string * string) (token : string) : bool :=
  Js.includes (Js.toLowerCase opt.1) token
  || Js.includes token (Js.toLowerCase opt.1)
  || Js.includes (Js.toLowerCase opt.2) token.

(** The score of an option: its best score over the non-empty tokens. *)
Definition best_score (tokens : list string) (opt : string * string) : nat :=
  list_max (map (option_score opt) (List.filter nonempty tokens)).

(** The extraction as the specification words it: the response split on
    sentence terminators, and the sentences that contain a keyword. *)
Definition is_terminator (c : ascii) : bool :=
  match c with
  | "."%char | "!"%char | "?"%char => true
  | _ => false
  end.

Fixpoint sentences (s : string) : list string :=
  match s with
  | EmptyString => [""]
  | String c s' =>
      if is_terminator c then "" :: sentences s'
      else
        match sentences s' with
        | t :: ts => String c t :: ts
        | [] => [String c ""]
        end
  end.

Definition sentences_with_keyword (keywords : list string) (response : string)
  : list string :=
  List.filter
    (fun s => existsb (fun k => Js.includes (Js.toLowerCase s) k) keywords)
    (sentences response).

Definition kept_as_specified (keywords : list string) (response : string)
    (field : option value) : Prop :=
  forall s, In s (sentences_with_keyword keywords response) ->
    exists r, field = Some (VStr r) /\ Js.includes r s = true.


(** *** Well-formed inputs of the forward mapping *)

Definition is_str (v : value) : bool :=
  match v with
  | VStr _ => true
  | _ => false
  end.

(** An object all of whose values are strings. *)
Definition all_strings (l : list (string * value)) : bool :=
  forallb (fun kv => is_str kv.2) l.

(** The key of a path of the form [general.<key>]. *)
Definition general_key (m : SemanticFieldMeta) : option string :=
  match Js.split_char "."%char (path m) with
  | [g; key] => if String.eqb g "general" then Some key else None
  | _ => None
  end.

(** Every entry of the map has a path of the form [general.<key>], as
    the entries of the static table have. *)
Definition simple_paths (M : list (string * SemanticFieldMeta)) : bool :=
  forallb (fun e => match general_key e.2 with Some _ => true | None => false end) M.

(** Details as the data model has them: absent, or an object whose
    [general], if any, is an object of strings. *)
Definition flat_details (d : value) : bool :=
  match js_or d empty_obj with
  | VObj ps =>
      match alist_get ps "general" with
      | None => true
      | Some (VObj g) => all_strings g
      | Some _ => false
      end
  | _ => false
  end.

Definition flat_entity (e : option entityRec) : bool :=
  flat_details (opt_details e).

(** The properties of [details.general]. *)
Definition general_props (d : value) : list (string * value) :=
  spread (js_or (getProp (js_or d empty_obj) "general") empty_obj).

(** What a field asks to store: nothing, or the new value at its path.
    [cur] is the stored value and [raw] the submitted one. *)
Definition field_outcome (m : SemanticFieldMeta) (cur : value)
    (raw : option value) : option string :=
  match raw with
  | Some (VStr v) =>
      let t := Js.trim v in
      if nonempty t then
        if isList m then
          let current := list_items (stored_text cur) in
          let new := List.filter (fun x => negb (ci_in x current)) (list_items t) in
          if bool_decide (new = []) then None
          else Some (Js.join ", " (merge_items current new))
        else if String.eqb (Js.trim (stored_text cur)) t then None
        else Some t
      else None
  | _ => None
  end.

Definition outcome_of (project feature : option entityRec)
    (formValues : list (string * value)) (e : string * SemanticFieldMeta)
  : option string :=
  field_outcome e.2 (stored_value project feature e.2)
    (alist_get formValues e.1).

(** The property written to the payload of [side] by an entry. *)
Definition field_write (side : bool) (project feature : option entityRec)
    (formValues : list (string * value)) (e : string * SemanticFieldMeta)
  : option (string * value) :=
  if Bool.eqb (is_feature e.2) side then
    match general_key e.2, outcome_of project feature formValues e with
    | Some key, Some n => Some (key, VStr n)
    | _, _ => None
    end
  else None.

Definition writes (side : bool) (project feature : option entityRec)
    (formValues : list (string * value))
    (M : list (string * SemanticFieldMeta)) : list (string * value) :=
  omap (field_write side project feature formValues) M.

Definition field_suggestion (project feature : option entityRec)
    (formValues : list (string * value)) (e : string * SemanticFieldMeta)
  : option Suggestion :=
  match outcome_of project feature formValues e with
  | Some n =>
      Some (suggestion_for e.1 e.2 (stored_value project feature e.2) (VStr n))
  | None => None
  end.

Definition suggested (project feature : option entityRec)
    (formValues : list (string * value))
    (M : list (string * SemanticFieldMeta)) : list Suggestion :=
  omap (field_suggestion project feature formValues) M.

(** An entry is active when its submitted value is a string that is not
    empty once trimmed; its target is the side and the path it writes. *)
Definition active (formValues : list (string * value))
    (e : string * SemanticFieldMeta) : bool :=
  match alist_get formValues e.1 with
  | Some (VStr v) => nonempty (Js.trim v)
  | _ => false
  end.

Definition active_targets (formValues : list (string * value))
    (M : list (string * SemanticFieldMeta)) : list (bool * string) :=
  map (fun e => (is_feature e.2, path e.2)) (List.filter (active formValues) M).

(** The record without stored details that stands for an absent one. *)
Definition or_blank (e : option entityRec) : entityRec :=
  default {| ent_id := ""; ent_name := ""; details := empty_obj |} e.

(** The degradation as the specification words it: no update and no
    suggestion for an absent side. *)
Definition only_available_side (project feature : option entityRec)
    (d : UpdatePayload) : Prop :=
  (feature = None ->
     featureUpdates d = general_empty
     /\ Forall (fun s => s_entity s <> "feature") (suggestions d))
  /\ (project = None ->
        projectUpdates d = general_empty
        /\ Forall (fun s => s_entity s = "feature") (suggestions d)).

(** ** Inputs of the examples *)

Definition acme : entityRec :=
  {| ent_id := "1"; ent_name := "Acme";
     details := VObj [("general", VObj [("name", VStr "Acme Corp")])] |}.

Definition role_select : formEl :=
  {| el_id := "role"; el_name := "role"; el_tag := "SELECT";
     el_type := "select-one"; el_classes := []; el_label := "Team role";
     el_options := [("Product Manager", "Product Manager");
                    ("Developer", "Developer");
                    ("QA Engineer", "QA Engineer")];
     el_value := ""; el_object := false |}.

Definition text_field (id v : string) : formEl :=
  {| el_id := id; el_name := id; el_tag := "TEXTAREA"; el_type := "textarea";
     el_classes := []; el_label := id; el_options := []; el_value := v; el_object := false |}.


(** A project whose last discovery submission was saved. *)
Definition saved_project : entityRec :=
  {| ent_id := "1"; ent_name := "Acme";
     details :=
       VObj [("general", VObj [("stakeholders", VStr "Alice - PM")]);
             ("phaseData",
              VObj [("discovery",
                     VObj [("stakeholders", VStr "Saved earlier")])])] |}.

(** A discovery submission: a project with one stakeholder, a feature
    without stored details, and the values of the form. *)
Definition discovery_project : entityRec :=
  {| ent_id := "1"; ent_name := "Acme";
     details := VObj [("general", VObj [("stakeholders", VStr "Alice - PM")])] |}.

Definition discovery_feature : entityRec :=
  {| ent_id := "7"; ent_name := "Checkout"; details := empty_obj |}.

Definition discovery_form : list (string * value) :=
  [("stakeholders", VStr "Alice - PM; Bob - Dev");
   ("featureSize", VStr " M ");
   ("business-objectives", VStr "Grow revenue");
   ("success-metrics", VStr "")].

(** The same form with both fields that the static table maps to
    [general.goals] filled in. *)
Definition two_goals_form : list (string * value) :=
  [("business-objectives", VStr "Grow revenue");
   ("success-metrics", VStr "Churn below 2%")].

(** ** Vocabulary of the properties of the other functions *)

(** The walk of [getByPath] from a cursor on. *)
Definition get_parts (cursor : value) (parts : list string) : value :=
  foldl (fun acc key => if truthy acc then getProp acc key else VUndef)
    cursor parts.

(** A path that [setByPath] can open from [cursor]: every node it meets
    before the last key is an object, or is missing or falsy, in which
    case a new object takes its place. *)
Fixpoint open_path (cursor : value) (parts : list string) : bool :=
  match cursor with
  | VObj _ =>
      match parts with
      | [] => true
      | k :: rest =>
          match rest with
          | [] => true
          | _ :: _ =>
              if truthy (getProp cursor k)
              then open_path (getProp cursor k) rest
              else true
          end
      end
  | _ => false
  end.

(** The identifier under which an element with semantic hints is
    entered in the map, and the entry made from its hints. *)
Definition hint_name (el : semanticEl) : string :=
  str_or (sem_id el) (sem_name el).

Definition hint_entry (el : semanticEl) : SemanticFieldMeta :=
  {| entity := data_entity el;
     path := data_path el;
     label := str_or (default "" (data_label el)) (hint_name el);
     isList := bool_decide (data_isList el = Some "true") |}.





Definition no_period (s : string) : bool :=
  str_forall (fun c => negb (Ascii.eqb c "."%char)) s.

(** The text [s] starts with a stretch for the keyword [k]: the keyword
    up to case, then text without a period, then a period.  [m] is the
    stretch and [rest] the text after it. *)
Definition starts_stretch (k s m rest : string) : Prop :=
  exists head body,
    s = m +:+ rest
    /\ m = head +:+ body +:+ "."
    /\ Js.toLowerCase head = k
    /\ no_period body = true.

(** The stretch taken at the start of [s]: that of the first keyword of
    the list for which there is one. *)
Definition first_stretch (keywords : list string) (s m rest : string) : Prop :=
  exists before k after,
    keywords = before ++ k :: after
    /\ starts_stretch k s m rest
    /\ forall k', In k' before -> forall m' rest', ~ starts_stretch k' s m' rest'.

Definition no_stretch (keywords : list string) (s : string) : Prop :=
  forall k m rest, In k keywords -> ~ starts_stretch k s m rest.

(** The stretches kept from a text, read from left to right: the first
    position at which a stretch starts gives the first one, and the scan
    goes on in the text after it; nothing is kept from a text in which no
    stretch starts anywhere. *)
Inductive scan (keywords : list string) : string -> list string -> Prop :=
  | scan_end (s : string) :
      (forall pre t, s = pre +:+ t -> no_stretch keywords t) ->
      scan keywords s []
  | scan_keep (pre m rest : string) (ms : list string) :
      (forall pre1 t, pre = pre1 +:+ t -> t <> "" ->
         no_stretch keywords (t +:+ m +:+ rest)) ->
      first_stretch keywords (m +:+ rest) m rest ->
      scan keywords rest ms ->
      scan keywords (pre +:+ m +:+ rest) (m :: ms).

(** The user proceeds once for each of [inputs], as long as no step
    throws. *)
Definition proceed_all (s : session) (inputs : list (option string))
  : session * completion :=
  foldl (fun st input =>
           match st.2 with
           | Normal => proceedToNextPhase st.1 input
           | Threw => st
           end)
    (s, Normal) inputs.

(** A name as a row of the participant table holds it once typed in
    and trimmed: no separator of a list, no hyphen, no line break. *)
Definition plain_name (s : string) : bool :=
  str_forall
    (fun c => negb (Js.is_delim c) && negb (Ascii.eqb c "-"%char)
              && negb (Ascii.eqb c "013"%char)) s.

(** A row that [updateParticipantData] writes to the hidden input, the
    text it writes for it, and the row with its name trimmed. *)
Definition complete_row (r : participantRow) : bool :=
  nonempty (Js.trim (row_name r)) && nonempty (row_role r).

Definition participant_item (r : participantRow) : string :=
  Js.trim (row_name r) +:+ " - " +:+ row_role r.

Definition trimmed_row (r : participantRow) : participantRow :=
  {| row_name := Js.trim (row_name r); row_role := row_role r |}.

(** A row as the table can hold it: a plain name, and a role that is the
    value of an option of the select. *)
Definition typed_row (r : participantRow) : Prop :=
  plain_name (row_name r) = true
  /\ In (row_role r) (map snd participant_roles).

(** * Properties *)

(** ** Strings *)

Lemma append_cons (c : ascii) (s t : string) :
  String c s +:+ t = String c (s +:+ t).
Proof. reflexivity. Qed.

Lemma append_empty_l (t : string) : "" +:+ t = t.
Proof. reflexivity. Qed.

Lemma append_empty_r (s : string) : s +:+ "" = s.
Proof. induction s as [|c s IH]; [reflexivity|]. by rewrite append_cons, IH. Qed.

Lemma nonempty_true (s : string) : nonempty s = true <-> s <> "".
Proof.
  unfold nonempty. destruct (String.eqb_spec s ""); simpl; split; congruence.
Qed.

Lemma nonempty_false (s : string) : nonempty s = false <-> s = "".
Proof.
  unfold nonempty. destruct (String.eqb_spec s ""); simpl; split; congruence.
Qed.

Lemma trimEnd_idem (s : string) : Js.trimEnd (Js.trimEnd s) = Js.trimEnd s.
Proof.
  induction s as [|c s IH]; [reflexivity|].
  simpl. destruct (Js.trimEnd s) as [|a r] eqn:E.
  - destruct (Js.is_space c) eqn:Hc; simpl; [reflexivity|by rewrite Hc].
  - simpl in IH |- *. by rewrite IH.
Qed.

Lemma trimEnd_head (c : ascii) (s : string) :
  Js.is_space c = false -> exists r, Js.trimEnd (String c s) = String c r.
Proof.
  intros Hc. simpl. destruct (Js.trimEnd s); [rewrite Hc|]; eauto.
Qed.

Lemma trimStart_head (s : string) :
  Js.trimStart s = ""
  \/ exists c r, Js.trimStart s = String c r /\ Js.is_space c = false.
Proof.
  induction s as [|c s IH]; [by left|].
  simpl. destruct (Js.is_space c) eqn:Hc; [exact IH|right; eauto].
Qed.

Lemma trim_idem (s : string) : Js.trim (Js.trim s) = Js.trim s.
Proof.
  unfold Js.trim. destruct (trimStart_head s) as [->|(c & r & -> & Hc)].
  - reflexivity.
  - destruct (trimEnd_head c r Hc) as [r' E]. rewrite E.
    simpl Js.trimStart. rewrite Hc, <- E. apply trimEnd_idem.
Qed.

Lemma trim_space (c : ascii) (s : string) :
  Js.is_space c = true -> Js.trim (String c s) = Js.trim s.
Proof. intros Hc. unfold Js.trim. simpl. by rewrite Hc. Qed.

Lemma str_forall_trimStart p s :
  str_forall p s = true -> str_forall p (Js.trimStart s) = true.
Proof.
  induction s as [|c s IH]; [done|]. simpl.
  intros [Hc Hs]%andb_prop. destruct (Js.is_space c); [auto|].
  simpl. by rewrite Hc, Hs.
Qed.

Lemma str_forall_trimEnd p s :
  str_forall p s = true -> str_forall p (Js.trimEnd s) = true.
Proof.
  induction s as [|c s IH]; [done|]. simpl.
  intros [Hc Hs]%andb_prop. specialize (IH Hs).
  destruct (Js.trimEnd s) as [|a r].
  - destruct (Js.is_space c); simpl; [done|by rewrite Hc].
  - simpl in IH |- *. by rewrite Hc, IH.
Qed.

Lemma str_forall_trim p s :
  str_forall p s = true -> str_forall p (Js.trim s) = true.
Proof. intros H. by apply str_forall_trimEnd, str_forall_trimStart. Qed.

Lemma split_delims_not_nil (s : string) : Js.split_delims s <> [].
Proof.
  induction s as [|c s IH]; [done|]. simpl.
  destruct (Js.is_delim c).
  - by destruct (Js.starts_with_delim s).
  - by destruct (Js.split_delims s).
Qed.

(** The pieces of a split contain no separator. *)
Lemma split_delims_no_delim (s : string) :
  Forall (fun p => no_delim p = true) (Js.split_delims s).
Proof.
  induction s as [|c s IH]; [by repeat constructor|]. simpl.
  destruct (Js.is_delim c) eqn:Hc.
  - destruct (Js.starts_with_delim s); [done|]. by constructor.
  - destruct (Js.split_delims s) as [|t ts]; inversion IH; subst.
    + repeat constructor. unfold no_delim. simpl. by rewrite Hc.
    + constructor; [|done]. unfold no_delim in *. simpl. by rewrite Hc.
Qed.

Lemma split_delims_app (x s : string) :
  no_delim x = true ->
  Js.split_delims (x +:+ s) =
    match Js.split_delims s with
    | t :: ts => (x +:+ t) :: ts
    | [] => [x]
    end.
Proof.
  induction x as [|c x IH]; intros Hx.
  - rewrite append_empty_l. destruct (Js.split_delims s) eqn:E; [|done].
    by destruct (split_delims_not_nil s).
  - unfold no_delim in Hx. simpl in Hx. apply andb_prop in Hx as [Hc Hx].
    rewrite append_cons. simpl. apply negb_true_iff in Hc. rewrite Hc.
    rewrite (IH Hx). by destruct (Js.split_delims s).
Qed.

Lemma split_delims_clean (x : string) :
  no_delim x = true -> Js.split_delims x = [x].
Proof.
  intros Hx. rewrite <- (append_empty_r x) at 1.
  rewrite (split_delims_app _ _ Hx). simpl. by rewrite append_empty_r.
Qed.

Lemma split_delims_join (x : string) (xs : list string) :
  Forall (fun y => no_delim y = true) (x :: xs) ->
  Js.split_delims (Js.join ", " (x :: xs)) = x :: map (String " "%char) xs.
Proof.
  revert x. induction xs as [|y ys IH]; intros x Hall.
  - simpl. apply split_delims_clean. by inversion Hall.
  - inversion Hall as [|? ? Hx Hrest]; subst.
    change (Js.join ", " (x :: y :: ys))
      with (x +:+ ", " +:+ Js.join ", " (y :: ys)).
    rewrite (split_delims_app _ _ Hx).
    change (", " +:+ Js.join ", " (y :: ys))
      with (String ","%char (String " "%char (Js.join ", " (y :: ys)))).
    cbn [Js.split_delims Js.is_delim Js.starts_with_delim].
    rewrite (IH y Hrest). simpl. by rewrite append_empty_r.
Qed.

(** Joining clean items with [", "] and normalising the result gives the
    items back. *)
Lemma list_items_join (xs : list string) :
  Forall clean xs -> list_items (Js.join ", " xs) = xs.
Proof.
  intros Hall. destruct xs as [|x xs]; [reflexivity|].
  unfold list_items. rewrite split_delims_join.
  2:{ eapply Forall_impl; [exact Hall|]. by intros ? (_ & _ & ?). }
  inversion Hall as [|? ? (Htx & Hnx & _) Hrest]; subst.
  simpl. rewrite Htx. apply nonempty_true in Hnx. rewrite Hnx. f_equal.
  clear -Hrest. induction Hrest as [|y ys (Hty & Hny & _) _ IH]; [done|].
  simpl. rewrite trim_space by reflexivity. rewrite Hty.
  apply nonempty_true in Hny. rewrite Hny. by f_equal.
Qed.

(** [normalizeList] produces clean items. *)
Lemma list_items_clean (s : string) : Forall clean (list_items s).
Proof.
  unfold list_items. apply Forall_forall. intros x Hx.
  apply list_elem_of_In, filter_In in Hx as [Hin Hne]. apply in_map_iff in Hin as (p & <- & Hp).
  split; [apply trim_idem|]. split; [by apply nonempty_true|].
  apply str_forall_trim.
  pose proof (split_delims_no_delim s) as Hall.
  rewrite Forall_forall in Hall. by apply Hall, list_elem_of_In.
Qed.

(** ** Comparison up to case *)

Lemma ci_eqb_true (a b : string) :
  ci_eqb a b = true <-> Js.toLowerCase a = Js.toLowerCase b.
Proof. unfold ci_eqb. apply String.eqb_eq. Qed.

Lemma ci_eqb_sym (a b : string) : ci_eqb a b = ci_eqb b a.
Proof. unfold ci_eqb. apply String.eqb_sym. Qed.

Lemma ci_eqb_refl (a : string) : ci_eqb a a = true.
Proof. by apply ci_eqb_true. Qed.

Lemma ci_eqb_compat (t x y : string) :
  ci_eqb x y = true -> ci_eqb t x = ci_eqb t y.
Proof. intros H%ci_eqb_true. unfold ci_eqb. by rewrite H. Qed.

Lemma ci_in_true (v : string) (l : list string) :
  ci_in v l = true <-> In (Js.toLowerCase v) (map Js.toLowerCase l).
Proof.
  unfold ci_in. rewrite existsb_exists, in_map_iff.
  split; intros (e & H1 & H2).
  - exists e. split; [|done]. by apply ci_eqb_true.
  - exists e. split; [done|]. by apply ci_eqb_true.
Qed.

Lemma ci_in_app (v : string) (l k : list string) :
  ci_in v (l ++ k) = ci_in v l || ci_in v k.
Proof. apply existsb_app. Qed.

(** ** The items of a merge *)

Lemma filter_andb {A} (p q : A -> bool) (l : list A) :
  List.filter (fun x => p x && q x) l = List.filter q (List.filter p l).
Proof.
  induction l as [|x l IH]; [done|]. simpl.
  destruct (p x); simpl; [destruct (q x)|]; by rewrite ?IH.
Qed.

Lemma filter_comm {A} (p q : A -> bool) (l : list A) :
  List.filter p (List.filter q l) = List.filter q (List.filter p l).
Proof.
  rewrite <- !filter_andb. apply filter_ext. intros x. apply andb_comm.
Qed.

Lemma filter_absorb {A} (p q : A -> bool) (l : list A) :
  (forall x, p x = true -> q x = true) ->
  List.filter p (List.filter q l) = List.filter p l.
Proof.
  intros H. induction l as [|x l IH]; [done|]. simpl.
  destruct (q x) eqn:Hq; simpl.
  - destruct (p x); by rewrite IH.
  - destruct (p x) eqn:Hp; [|done]. rewrite (H _ Hp) in Hq. done.
Qed.

Lemma first_ci_filter (q : string -> bool) (l : list string) :
  (forall x y, ci_eqb x y = true -> q x = q y) ->
  first_ci (List.filter q l) = List.filter q (first_ci l).
Proof.
  intros Hq. induction l as [|x l IH]; [done|]. simpl.
  destruct (q x) eqn:Hx; simpl.
  - rewrite ?Hx, IH. f_equal. apply filter_comm.
  - rewrite ?Hx, IH. symmetry. apply filter_absorb.
    intros y Hy. destruct (ci_eqb x y) eqn:E; [|done].
    rewrite (Hq _ _ E) in Hx. congruence.
Qed.

Lemma first_ci_In (x : string) (l : list string) :
  In x (first_ci l) -> In x l.
Proof.
  induction l as [|y l IH]; [done|]. simpl.
  intros [->|H]; [by left|]. right. apply IH.
  by apply filter_In in H as [H _].
Qed.

Lemma NoDup_map_filter {A B} (f : A -> B) (q : A -> bool) (l : list A) :
  NoDup (map f l) -> NoDup (map f (List.filter q l)).
Proof.
  induction l as [|x l IH]; [done|]. simpl.
  intros [Hx Hl]%NoDup_cons. destruct (q x); [|by apply IH].
  simpl. apply NoDup_cons. split; [|by apply IH].
  intros Hin. apply Hx. apply list_elem_of_In.
  apply list_elem_of_In, in_map_iff in Hin as (y & <- & Hy).
  apply in_map. by apply filter_In in Hy as [Hy _].
Qed.

Lemma first_ci_unique (l : list string) : ci_unique (first_ci l).
Proof.
  unfold ci_unique. induction l as [|x l IH]; [constructor|].
  simpl. apply NoDup_cons. split; [|by apply NoDup_map_filter].
  intros Hin. apply list_elem_of_In, in_map_iff in Hin as (y & Hy & Hin).
  apply filter_In in Hin as [_ Hne].
  symmetry in Hy. apply ci_eqb_true in Hy. by rewrite Hy in Hne.
Qed.

Lemma appended_snoc (base rest : list string) (t : string) :
  appended (base ++ [t]) rest =
    List.filter (fun y => negb (ci_eqb t y)) (appended base rest).
Proof.
  unfold appended. rewrite <- first_ci_filter.
  2:{ intros x y E. by rewrite (ci_eqb_compat t x y E). }
  f_equal. rewrite <- filter_andb. apply filter_ext. intros y.
  rewrite ci_in_app. unfold ci_in at 2. simpl.
  rewrite orb_false_r, negb_orb. apply andb_assoc.
Qed.

Lemma lower_set_spec (t : string) (base : list string) :
  bool_decide (Js.toLowerCase t ∈ (list_to_set (map Js.toLowerCase base) : gset string))
  = ci_in t base.
Proof.
  destruct (ci_in t base) eqn:E.
  - apply bool_decide_eq_true. apply elem_of_list_to_set, list_elem_of_In.
    by apply ci_in_true.
  - apply bool_decide_eq_false. intros H.
    apply elem_of_list_to_set, list_elem_of_In, ci_in_true in H. congruence.
Qed.

(** The loop of [mergeList] appends to [base] the items of [appended]. *)
Lemma merge_items_spec (base incoming : list string) :
  merge_items base incoming = base ++ appended base incoming.
Proof.
  unfold merge_items.
  assert (forall lower : gset string,
            lower = list_to_set (map Js.toLowerCase base) ->
            (foldl mergeList_step (base, lower) incoming).1
            = base ++ appended base incoming) as H; [|by apply H].
  revert base. induction incoming as [|v rest IH]; intros base lower Hl.
  - unfold appended. simpl. by rewrite app_nil_r.
  - cbn [foldl]. unfold mergeList_step at 2.
    assert (appended base (v :: rest) =
              if nonempty (Js.trim v) && negb (ci_in (Js.trim v) base)
              then Js.trim v
                   :: List.filter (fun y => negb (ci_eqb (Js.trim v) y))
                        (appended base rest)
              else appended base rest) as Happ.
    { unfold appended. simpl.
      by destruct (nonempty (Js.trim v) && negb (ci_in (Js.trim v) base)). }
    destruct (nonempty v) eqn:Hv; simpl.
    + subst lower. rewrite lower_set_spec, Happ.
      destruct (nonempty (Js.trim v) && negb (ci_in (Js.trim v) base)) eqn:E.
      * rewrite (IH (base ++ [Js.trim v])).
        -- rewrite appended_snoc. by rewrite <- app_assoc.
        -- rewrite map_app, list_to_set_app_L. simpl.
           f_equal. symmetry. apply union_empty_r_L.
      * by apply IH.
    + apply nonempty_false in Hv. subst v. rewrite Happ. simpl. by apply IH.
Qed.

Lemma normalizeList_str (s : string) : normalizeList (VStr s) = Ok (list_items s).
Proof.
  unfold normalizeList, js_or. simpl.
  destruct (String.eqb_spec s ""); simpl; [by subst|done].
Qed.

Lemma mergeList_str (existing : string) (incoming : list string) :
  mergeList (VStr existing) incoming =
    Ok (Js.join ", " (list_items existing
                        ++ appended (list_items existing) incoming)).
Proof.
  unfold mergeList. rewrite normalizeList_str. simpl.
  by rewrite merge_items_spec.
Qed.

(** C2, as amended.  For every stored string and every incoming list the
    merge keeps the existing items in their order and appends, once each
    and in the order met, the trimmed non-empty incoming items that
    equal, up to case, neither an existing item nor an incoming item
    before them; the items are joined with [", "].  Merging
    "Alice - PM, Bob - Dev" with "bob - Dev" and "Carol - QA" gives
    "Alice - PM, Bob - Dev, Carol - QA". *)
Theorem mergeList_appends_new_items_once :
  (forall (existing : string) (incoming : list string),
     mergeList (VStr existing) incoming =
       Ok (Js.join ", "
             (list_items existing
                ++ first_ci
                     (List.filter
                        (fun t => nonempty t
                                  && negb (ci_in t (list_items existing)))
                        (map Js.trim incoming)))))
  /\ mergeList (VStr "Alice - PM, Bob - Dev") ["bob - Dev"; "Carol - QA"]
     = Ok "Alice - PM, Bob - Dev, Carol - QA".
Proof.
  split.
  - intros existing incoming. apply mergeList_str.
  - vm_compute. reflexivity.
Qed.

(** C2 as stated fails: of two incoming items that differ only in case
    and are both absent from the current list, the merge appends the
    first only. *)
Lemma mergeList_not_as_specified :
  mergeList (VStr "") ["Bob"; "bob"] = Ok "Bob"
  /\ merge_as_specified "" ["Bob"; "bob"] = "Bob, bob"
  /\ mergeList (VStr "") ["Bob"; "bob"]
     <> Ok (merge_as_specified "" ["Bob"; "bob"]).
Proof. vm_compute. repeat split; congruence. Qed.

(** ** Splitting the merged string on commas *)

Lemma split_char_not_nil (d : ascii) (s : string) : Js.split_char d s <> [].
Proof.
  induction s as [|c s IH]; [done|]. simpl.
  destruct (Ascii.eqb c d); [done|]. by destruct (Js.split_char d s).
Qed.

Lemma split_char_app (d : ascii) (x s : string) :
  str_forall (fun c => negb (Ascii.eqb c d)) x = true ->
  Js.split_char d (x +:+ s) =
    match Js.split_char d s with
    | t :: ts => (x +:+ t) :: ts
    | [] => [x]
    end.
Proof.
  induction x as [|c x IH]; intros Hx.
  - rewrite append_empty_l. destruct (Js.split_char d s) eqn:E; [|done].
    by destruct (split_char_not_nil d s).
  - simpl in Hx. apply andb_prop in Hx as [Hc Hx].
    rewrite append_cons. simpl. apply negb_true_iff in Hc. rewrite Hc.
    rewrite (IH Hx). by destruct (Js.split_char d s).
Qed.

Lemma split_comma_join (x : string) (xs : list string) :
  Forall (fun y => no_comma y = true) (x :: xs) ->
  Js.split_char ","%char (Js.join ", " (x :: xs))
  = x :: map (String " "%char) xs.
Proof.
  revert x. induction xs as [|y ys IH]; intros x Hall.
  - inversion Hall as [|? ? Hx _]; subst. simpl.
    rewrite <- (append_empty_r x) at 1.
    rewrite (split_char_app _ _ _ Hx). simpl. by rewrite append_empty_r.
  - inversion Hall as [|? ? Hx Hrest]; subst.
    change (Js.join ", " (x :: y :: ys))
      with (x +:+ ", " +:+ Js.join ", " (y :: ys)).
    rewrite (split_char_app _ _ _ Hx).
    change (", " +:+ Js.join ", " (y :: ys))
      with (String ","%char (String " "%char (Js.join ", " (y :: ys)))).
    cbn [Js.split_char Ascii.eqb Bool.eqb].
    rewrite (IH y Hrest). simpl. by rewrite append_empty_r.
Qed.

Lemma trim_spaced_items (xs : list string) :
  Forall (fun y => Js.trim y = y) xs ->
  map Js.trim (map (String " "%char) xs) = xs.
Proof.
  induction 1 as [|y ys Hy _ IH]; [done|].
  simpl. rewrite trim_space by reflexivity. by rewrite Hy, IH.
Qed.

Lemma no_delim_no_comma (x : string) : no_delim x = true -> no_comma x = true.
Proof.
  unfold no_delim, no_comma. induction x as [|c x IH]; [done|]. simpl.
  intros [Hc Hx]%andb_prop. rewrite (IH Hx), andb_true_r.
  destruct (Ascii.eqb_spec c ","%char); [by subst|done].
Qed.

Lemma appended_In (base incoming : list string) (t : string) :
  In t (appended base incoming) ->
  (exists v, In v incoming /\ t = Js.trim v)
  /\ t <> "" /\ ci_in t base = false.
Proof.
  unfold appended. intros H%first_ci_In.
  apply filter_In in H as [Hin [Hne Hci]%andb_prop].
  apply in_map_iff in Hin as (v & <- & Hv).
  split; [eauto|]. split; [by apply nonempty_true|by apply negb_true_iff].
Qed.

Lemma merged_ci_unique (base incoming : list string) :
  ci_unique base -> ci_unique (base ++ appended base incoming).
Proof.
  unfold ci_unique. intros Hb. rewrite map_app. apply NoDup_app.
  split; [done|]. split; [|apply first_ci_unique].
  intros k Hk Hk'.
  apply list_elem_of_In, in_map_iff in Hk' as (t & <- & Ht).
  apply appended_In in Ht as (_ & _ & Hci).
  apply list_elem_of_In, ci_in_true in Hk. congruence.
Qed.

(** C10, as amended.  When the items of the stored string are distinct
    up to case and no incoming item contains a comma, the output of
    [mergeList], split on commas and trimmed, has no two items equal up
    to case; the incoming list may repeat items or hold items that differ
    only in case. *)
Theorem mergeList_output_ci_unique (existing : string) (incoming : list string) :
  ci_unique (list_items existing) ->
  Forall (fun v => no_comma v = true) incoming ->
  exists out,
    mergeList (VStr existing) incoming = Ok out
    /\ ci_unique (map Js.trim (Js.split_char ","%char out)).
Proof.
  intros Hu Hc. eexists. split; [apply mergeList_str|].
  pose proof (merged_ci_unique _ incoming Hu) as Hm.
  pose proof (list_items_clean existing) as Hclean.
  set (base := list_items existing) in *.
  assert (Forall (fun y => Js.trim y = y /\ no_comma y = true)
            (base ++ appended base incoming)) as Hall.
  { apply Forall_app. split.
    - eapply Forall_impl; [exact Hclean|].
      intros x (Ht & _ & Hd). split; [done|by apply no_delim_no_comma].
    - apply Forall_forall. intros t Ht.
      apply list_elem_of_In, appended_In in Ht as ((v & Hv & ->) & _ & _).
      split; [apply trim_idem|]. apply str_forall_trim.
      rewrite Forall_forall in Hc. by apply Hc, list_elem_of_In. }
  destruct (base ++ appended base incoming) as [|x xs]; [repeat constructor; set_solver|].
  rewrite split_comma_join by (eapply Forall_impl; [exact Hall|]; by intros ? [_ ?]).
  inversion Hall as [|? ? [Hx _] Hrest]; subst.
  cbn [map]. rewrite Hx, trim_spaced_items; [done|].
  eapply Forall_impl; [exact Hrest|]. by intros ? [? _].
Qed.

Lemma mergeList_output_ci_unique_witness :
  exists out,
    mergeList (VStr "Alice, Bob") ["bob"; "Carol"; "CAROL"] = Ok out
    /\ ci_unique (map Js.trim (Js.split_char ","%char out)).
Proof.
  apply mergeList_output_ci_unique.
  - unfold ci_unique. apply (bool_decide_unpack _). vm_compute. exact I.
  - repeat constructor.
Defined.

(** C10 as stated fails: duplicates already in the stored string stay,
    and an incoming item that contains a comma counts as one item in the
    merge and as several after the split. *)
Lemma mergeList_output_not_ci_unique :
  (exists out,
     mergeList (VStr "Bob, bob") [] = Ok out
     /\ ~ ci_unique (map Js.trim (Js.split_char ","%char out)))
  /\ (exists out,
        mergeList (VStr "") ["a, A"] = Ok out
        /\ ~ ci_unique (map Js.trim (Js.split_char ","%char out))).
Proof.
  split; eexists; (split; [vm_compute; reflexivity|]);
    unfold ci_unique; intros H; pose proof (bool_decide_pack _ H) as Hb;
    vm_compute in Hb; exact Hb.
Qed.

(** ** Stored details *)

(** C8.  [normalizeDetails] gives the empty object for an absent value,
    gives the empty object and throws nothing when the value is a string
    that does not parse, gives the parsed value when it does, and returns
    a structure unchanged. *)
Theorem normalizeDetails_tolerant (JSON_parse : string -> result value) :
  normalizeDetails JSON_parse VUndef = empty_obj
  /\ normalizeDetails JSON_parse VNull = empty_obj
  /\ (forall s, JSON_parse s = Throw ->
        normalizeDetails JSON_parse (VStr s) = empty_obj)
  /\ (forall s v, s <> "" -> JSON_parse s = Ok v ->
        normalizeDetails JSON_parse (VStr s) = v)
  /\ (forall props, normalizeDetails JSON_parse (VObj props) = VObj props).
Proof.
  repeat split; try reflexivity.
  - intros s Hs. unfold normalizeDetails. simpl.
    destruct (String.eqb s ""); simpl; rewrite ?Hs; done.
  - intros s v Hne Hs. unfold normalizeDetails. simpl.
    apply String.eqb_neq in Hne. rewrite Hne. simpl. by rewrite Hs.
Qed.

Lemma normalizeDetails_tolerant_witness :
  normalizeDetails (fun _ => Throw) (VStr "{oops") = empty_obj
  /\ normalizeDetails (fun _ => Ok (VObj [("general", empty_obj)]))
       (VStr "{}") = VObj [("general", empty_obj)].
Proof.
  split.
  - exact (proj1 (proj2 (proj2 (normalizeDetails_tolerant (fun _ => Throw))))
             "{oops" eq_refl).
  - refine (proj1 (proj2 (proj2 (proj2
              (normalizeDetails_tolerant
                 (fun _ => Ok (VObj [("general", empty_obj)]))))))
              "{}" _ _ eq_refl).
    discriminate.
Defined.

(** ** Forward mapping, one field at a time *)

Lemma blank_field_step (project feature : option entityRec)
    (formValues : list (string * value)) (st : UpdatePayload)
    (fieldKey : string) (m : SemanticFieldMeta) :
  blank_value (alist_get formValues fieldKey) ->
  deriveField project feature formValues st (fieldKey, m) = Ok st.
Proof.
  unfold deriveField.
  intros [->|[->|[->|(s & -> & Hs)]]]; simpl; try reflexivity.
  by rewrite Hs.
Qed.

(** C4.  A mapped field whose submitted value is absent, [undefined],
    [null], empty or made of white space leaves the payload as it is, no
    suggestion and no entry in either update: its turn of the loop
    returns the payload it was given, and the whole result is the one of
    the map without the field. *)
Theorem blank_field_contributes_nothing
    (root : option (list semanticEl)) (project feature : option entityRec)
    (formId : string) (formValues : list (string * value)) (fieldKey : string) :
  blank_value (alist_get formValues fieldKey) ->
  (forall (st : UpdatePayload) (m : SemanticFieldMeta),
     deriveField project feature formValues st (fieldKey, m) = Ok st)
  /\ deriveProjectUpdates root project feature formId formValues
     = forEachM (deriveField project feature formValues)
         (List.filter (fun e => negb (String.eqb e.1 fieldKey))
            (buildSemanticMap root formId))
         {| projectUpdates := general_empty;
            featureUpdates := general_empty;
            suggestions := [] |}.
Proof.
  intros Hblank. split; [intros st m; by apply blank_field_step|].
  unfold deriveProjectUpdates.
  generalize {| projectUpdates := general_empty;
                featureUpdates := general_empty;
                suggestions := [] |}.
  induction (buildSemanticMap root formId) as [|[k m] M IH]; intros st;
    [reflexivity|].
  cbn [List.filter fst]. destruct (String.eqb_spec k fieldKey) as [->|Hne].
  - cbn [negb forEachM]. rewrite blank_field_step by done. apply IH.
  - cbn [negb forEachM].
    destruct (deriveField project feature formValues st (k, m)); [apply IH|done].
Qed.

Lemma blank_field_contributes_nothing_witness :
  deriveField None None [("stakeholders", VStr "   ")]
    (payload_of [] [] [])
    ("stakeholders", meta "project" "general.stakeholders" "Stakeholders" true)
  = Ok (payload_of [] [] [])
  /\ deriveProjectUpdates (Some []) None None "discovery"
       [("stakeholders", VStr "   ")]
     = Ok (payload_of [] [] []).
Proof.
  assert (blank_value (alist_get [("stakeholders", VStr "   ")] "stakeholders"))
    as Hblank.
  { right. right. right. exists "   ". split; reflexivity. }
  split.
  - apply (proj1 (blank_field_contributes_nothing (Some []) None None
                    "discovery" _ "stakeholders" Hblank)).
  - rewrite (proj2 (blank_field_contributes_nothing (Some []) None None
                      "discovery" _ "stakeholders" Hblank)).
    reflexivity.
Defined.

Lemma split_char_nonempty (d : ascii) (p : string) (a b : string) :
  Js.split_char d p = [a; b] -> nonempty p = true.
Proof. by destruct p. Qed.

Lemma setByPath_general (pu : list (string * value)) (p key : string) (x : value) :
  Js.split_char "."%char p = ["general"; key] ->
  setByPath (VObj [("general", VObj pu)]) p x
  = Ok (VObj [("general", VObj (alist_set pu key x))]).
Proof.
  intros Hp. unfold setByPath. rewrite (split_char_nonempty _ _ _ _ Hp), Hp.
  reflexivity.
Qed.

Lemma emit_general (pu fu : list (string * value)) (sg : list Suggestion)
    (fieldKey key : string) (m : SemanticFieldMeta) (cur new : value) :
  Js.split_char "."%char (path m) = ["general"; key] ->
  emit (payload_of pu fu sg) fieldKey m cur new
  = Ok (with_update pu fu sg fieldKey m key cur new).
Proof.
  intros Hp. unfold emit, with_update, is_feature, payload_of. simpl.
  destruct (String.eqb (entity m) "feature");
    rewrite (setByPath_general _ _ _ _ Hp); reflexivity.
Qed.

(** ** Matching a select against the candidate text *)

Lemma option_score_cases (opt : string * string) (token : string) :
  option_score opt token =
    if exact_match opt token then String.length token + 5
    else if overlaps opt token then String.length token else 0.
Proof. reflexivity. Qed.

(** The inner loop: the option takes over when its best score beats the
    best so far. *)
Lemma inner_loop_spec (opt : string * string) (tokens : list string)
    (b : option (string * string)) (n : nat) :
  foldl (best_step opt) (b, n) tokens =
    if n <? best_score tokens opt
    then (Some opt, best_score tokens opt) else (b, n).
Proof.
  revert b n. unfold best_score.
  induction tokens as [|t ts IH]; intros b n; [done|].
  cbn [foldl]. unfold best_step at 2. cbn [List.filter].
  destruct (nonempty t) eqn:Ht; cbn [negb snd map list_max foldr].
  - fold (list_max (map (option_score opt) (List.filter nonempty ts))).
    set (rest := list_max (map (option_score opt) (List.filter nonempty ts))).
    destruct (Nat.ltb_spec n (option_score opt t)) as [H1|H1];
      rewrite IH; fold rest;
      destruct (Nat.ltb_spec (option_score opt t) rest);
      destruct (Nat.ltb_spec n rest);
      destruct (Nat.ltb_spec n (Nat.max (option_score opt t) rest));
      try lia; repeat f_equal; lia.
  - apply IH.
Qed.

Lemma foldl_agree {A B} (f g : A -> B -> A) (l : list B) (a : A) :
  (forall a b, f a b = g a b) -> foldl f a l = foldl g a l.
Proof.
  intros H. revert a. induction l as [|b l IH]; intros a; [done|].
  simpl. by rewrite H, IH.
Qed.

Lemma selectBestMatch_unfold (tokens : list string)
    (options : list (string * string)) :
  selectBestMatch tokens options =
    foldl (fun st opt =>
             if st.2 <? best_score tokens opt
             then (Some opt, best_score tokens opt) else st)
      (None, 0) options.
Proof.
  unfold selectBestMatch. apply foldl_agree. intros [b n] opt.
  apply inner_loop_spec.
Qed.

Lemma argmax_first {A} (score : A -> nat) (seen : list A) :
  let r := foldl (fun st o => if st.2 <? score o then (Some o, score o) else st)
             (None, 0) seen in
  (forall o, In o seen -> score o <= r.2)
  /\ match r.1 with
     | None => r.2 = 0
     | Some o =>
         0 < r.2 /\ score o = r.2
         /\ exists pre post,
              seen = pre ++ o :: post
              /\ forall o', In o' pre -> score o' < r.2
     end.
Proof.
  induction seen as [|x seen IH] using rev_ind; [by split|].
  rewrite foldl_app. cbn [foldl].
  destruct (foldl _ _ seen) as [b n]. cbn [fst snd] in IH |- *.
  destruct IH as [Hmax Hb].
  destruct (Nat.ltb_spec n (score x)) as [Hlt|Hge]; cbn [fst snd].
  - split.
    + intros o [Ho|[<-|[]]]%in_app_or; [specialize (Hmax o Ho)|]; lia.
    + split; [lia|]. split; [done|]. exists seen, []. split; [done|].
      intros o' Ho'. specialize (Hmax o' Ho'). lia.
  - split.
    + intros o [Ho|Ho]%in_app_or; [by apply Hmax|].
      destruct Ho as [<-|[]]. lia.
    + destruct b as [o|]; [|done].
      destruct Hb as (Hpos & Hs & pre & post & -> & Hpre).
      split; [done|]. split; [done|].
      exists pre, (post ++ [x]). split; [by rewrite <- app_assoc|done].
Qed.

(** C6, as amended.  The select takes the first option with the highest
    score and none when every score is 0; the score of an option is its
    best over the tokens of the candidate text, a token scoring its
    length plus 5 when it matches the option exactly, its length when it
    only overlaps it, and 0 otherwise, so that an exact match outranks
    the overlap of any token less than 5 characters longer.  With the
    options Product Manager, Developer, QA Engineer and the text
    "Developer, QA" the select becomes Developer. *)
Theorem select_takes_first_highest_score :
  (forall (tokens : list string) (options : list (string * string)),
     let r := selectBestMatch tokens options in
     (forall o, In o options -> best_score tokens o <= r.2)
     /\ match r.1 with
        | None => r.2 = 0
        | Some o =>
            0 < r.2 /\ best_score tokens o = r.2
            /\ exists pre post,
                 options = pre ++ o :: post
                 /\ forall o', In o' pre -> best_score tokens o' < r.2
        end)
  /\ (forall (opt : string * string) (token : string),
        option_score opt token =
          if exact_match opt token then String.length token + 5
          else if overlaps opt token then String.length token else 0)
  /\ (forall (o o' : string * string) (t t' : string),
        exact_match o t = true -> exact_match o' t' = false ->
        String.length t' < String.length t + 5 ->
        option_score o' t' < option_score o t)
  /\ heuristicField (VObj [("roles", VStr "Developer, QA")]) role_select
     = Ok (with_value role_select "Developer", true).
Proof.
  split; [|split; [|split]].
  - intros tokens options. cbv zeta. rewrite selectBestMatch_unfold.
    apply (argmax_first (best_score tokens) options).
  - apply option_score_cases.
  - intros o o' t t' He He' Hlen. rewrite !option_score_cases, He, He'.
    destruct (overlaps o' t'); lia.
  - vm_compute. reflexivity.
Qed.

(** C6 as stated fails: an exact match does not always outrank a partial
    overlap.  The token "qa" matches the option QA exactly (score 7) and
    the longer token "engineering" only overlaps Engineering Lead (score
    11), which is selected. *)
Lemma partial_overlap_outranks_exact_match :
  exact_match ("QA", "QA") "qa" = true
  /\ exact_match ("Engineering Lead", "Engineering Lead") "qa" = false
  /\ exact_match ("Engineering Lead", "Engineering Lead") "engineering" = false
  /\ selectBestMatch ["qa"; "engineering"]
       [("QA", "QA"); ("Engineering Lead", "Engineering Lead")]
     = (Some ("Engineering Lead", "Engineering Lead"), 11)
  /\ heuristicField (VObj [("roles", VStr "QA, Engineering")])
       {| el_id := "role"; el_name := "role"; el_tag := "SELECT";
          el_type := "select-one"; el_classes := []; el_label := "Role";
          el_options := [("QA", "QA"); ("Engineering Lead", "Engineering Lead")];
          el_value := ""; el_object := false |}
     = Ok ({| el_id := "role"; el_name := "role"; el_tag := "SELECT";
              el_type := "select-one"; el_classes := []; el_label := "Role";
              el_options := [("QA", "QA");
                             ("Engineering Lead", "Engineering Lead")];
              el_value := "Engineering Lead"; el_object := false |}, true).
Proof. vm_compute. repeat split; reflexivity. Qed.

(** ** Extraction from a pasted response *)

Lemma append_assoc_str (a b c : string) : (a +:+ b) +:+ c = a +:+ b +:+ c.
Proof.
  induction a as [|x a IH]; [done|]. by rewrite !append_cons, IH.
Qed.

Lemma length_append (a b : string) :
  String.length (a +:+ b) = String.length a + String.length b.
Proof. induction a as [|c a IH]; [done|]. rewrite append_cons. simpl. lia. Qed.

Lemma length_toLowerCase (s : string) :
  String.length (Js.toLowerCase s) = String.length s.
Proof. induction s as [|c s IH]; [done|]. simpl. by rewrite IH. Qed.

Lemma take_str_app (a b : string) : take_str (String.length a) (a +:+ b) = a.
Proof.
  induction a as [|c a IH]; [by destruct b|]. rewrite append_cons. simpl.
  by rewrite IH.
Qed.

(** The two parts of the pattern, each against its description in terms
    of the text alone. *)
Lemma strip_prefix_ci_head (k s rest : string) :
  strip_prefix_ci k s = Some rest <->
  exists head, s = head +:+ rest /\ Js.toLowerCase head = k.
Proof.
  split.
  - revert s. induction k as [|a k IH]; intros s H.
    + simpl in H. injection H as <-. by exists "".
    + destruct s as [|c s]; [done|]. simpl in H.
      destruct (Ascii.eqb_spec (Js.lower_char c) a) as [<-|]; [|done].
      destruct (IH _ H) as (head & -> & <-). by exists (String c head).
  - intros (head & -> & <-). induction head as [|c head IH]; [done|].
    rewrite append_cons. simpl. by rewrite Ascii.eqb_refl.
Qed.

Lemma through_period_body (s t : string) :
  through_period s = Some t <->
  exists body post,
    s = body +:+ "." +:+ post /\ t = body +:+ "." /\ no_period body = true.
Proof.
  split.
  - revert t. induction s as [|c s IH]; intros t H; [done|]. simpl in H.
    destruct (Ascii.eqb_spec c "."%char) as [->|Hc].
    + injection H as <-. by exists "", s.
    + destruct (through_period s) as [t'|]; [|done]. injection H as <-.
      destruct (IH _ eq_refl) as (body & post & -> & -> & Hb).
      exists (String c body), post. split; [done|]. split; [done|].
      unfold no_period in *. simpl. rewrite Hb.
      by destruct (Ascii.eqb_spec c "."%char).
  - intros (body & post & -> & -> & Hb). induction body as [|c body IH]; [done|].
    unfold no_period in Hb. simpl in Hb.
    apply andb_true_iff in Hb as [Hc%negb_true_iff Hb].
    rewrite append_cons. simpl. by rewrite Hc, (IH Hb).
Qed.

Lemma starts_stretch_bind (k s m rest : string) :
  starts_stretch k s m rest ->
  exists tail,
    strip_prefix_ci k s ≫= through_period = Some tail
    /\ m = take_str (String.length k) s +:+ tail.
Proof.
  intros (head & body & -> & -> & <- & Hb). exists (body +:+ ".").
  rewrite !append_assoc_str.
  rewrite (proj2 (strip_prefix_ci_head (Js.toLowerCase head)
                    (head +:+ body +:+ "." +:+ rest) (body +:+ "." +:+ rest)))
    by by exists head.
  split.
  - apply through_period_body. by exists body, rest.
  - by rewrite length_toLowerCase, take_str_app.
Qed.

Lemma starts_stretch_fn (k s : string) :
  match strip_prefix_ci k s ≫= through_period with
  | Some tail =>
      exists rest,
        starts_stretch k s (take_str (String.length k) s +:+ tail) rest
  | None => forall m rest, ~ starts_stretch k s m rest
  end.
Proof.
  destruct (strip_prefix_ci k s ≫= through_period) as [tail|] eqn:E.
  - destruct (strip_prefix_ci k s) as [r|] eqn:Er; [|done]. simpl in E.
    apply strip_prefix_ci_head in Er as (head & -> & <-).
    apply through_period_body in E as (body & post & -> & -> & Hb).
    exists post, head, body. rewrite length_toLowerCase, take_str_app.
    by rewrite !append_assoc_str.
  - intros m rest H. apply starts_stretch_bind in H as (tail & H & _).
    congruence.
Qed.

Lemma starts_stretch_text (k s m rest : string) :
  starts_stretch k s m rest -> s = m +:+ rest /\ m <> "".
Proof.
  intros (head & body & -> & -> & _). split; [done|].
  by destruct head, body.
Qed.

(** One attempt of the pattern takes the first stretch, and fails when
    there is none. *)
Lemma match_at_first (keywords : list string) (s : string) :
  match match_at keywords s with
  | Some m => exists rest, first_stretch keywords s m rest
  | None => no_stretch keywords s
  end.
Proof.
  induction keywords as [|k ks IH]; [by intros k m rest []|]. simpl.
  pose proof (starts_stretch_fn k s) as Hk.
  destruct (strip_prefix_ci k s ≫= through_period) as [tail|].
  - destruct Hk as [rest Hk]. exists rest, [], k, ks. split; [done|].
    split; [done|]. by intros k' [].
  - destruct (match_at ks s) as [m|].
    + destruct IH as (rest & before & k0 & after & -> & Hst & Hno).
      exists rest, (k :: before), k0, after. split; [done|]. split; [done|].
      intros k' [<-|Hin]; [apply Hk|by apply Hno].
    + intros k' m rest [<-|Hin]; [apply Hk|by apply IH].
Qed.

Lemma first_stretch_match_at (keywords : list string) (s m rest : string) :
  first_stretch keywords s m rest -> match_at keywords s = Some m.
Proof.
  intros (before & k & after & -> & Hst & Hno).
  induction before as [|a before IH]; simpl.
  - by destruct (starts_stretch_bind _ _ _ _ Hst) as (tail & -> & ->).
  - pose proof (starts_stretch_fn a s) as Ha.
    destruct (strip_prefix_ci a s ≫= through_period) as [tail|].
    + destruct Ha as [rest' Ha]. by destruct (Hno a (or_introl eq_refl) _ _ Ha).
    + apply IH. intros k' Hin. apply Hno. by right.
Qed.

Lemma no_stretch_match_at (keywords : list string) (s : string) :
  no_stretch keywords s -> match_at keywords s = None.
Proof.
  intros Hno. pose proof (match_at_first keywords s) as H.
  destruct (match_at keywords s) as [m|]; [|done].
  destruct H as (rest & before & k & after & -> & Hst & _).
  destruct (Hno k m rest); [|done]. apply in_or_app. right. by left.
Qed.

Lemma first_stretch_text (keywords : list string) (s m rest : string) :
  first_stretch keywords s m rest -> s = m +:+ rest /\ m <> "".
Proof. intros (? & k & ? & _ & H & _). by eapply starts_stretch_text. Qed.

(** The scan goes on after the stretch it has taken. *)
Lemma match_all_skip (keywords : list string) (a rest : string) :
  match_all keywords (String.length a) (a +:+ rest) = match_all keywords 0 rest.
Proof. induction a as [|c a IH]; [done|]. by rewrite append_cons. Qed.

Lemma match_all_keep (keywords : list string) (m rest : string) :
  first_stretch keywords (m +:+ rest) m rest ->
  match_all keywords 0 (m +:+ rest) = m :: match_all keywords 0 rest.
Proof.
  intros H. pose proof (first_stretch_match_at _ _ _ _ H) as Hm.
  destruct (first_stretch_text _ _ _ _ H) as [_ Hne].
  destruct m as [|c m]; [done|]. rewrite append_cons in Hm |- *.
  cbn [match_all]. rewrite Hm. f_equal. cbn [String.length].
  replace (S (String.length m) - 1) with (String.length m) by lia.
  apply match_all_skip.
Qed.

Lemma match_all_pass (keywords : list string) (c : ascii) (s : string) :
  no_stretch keywords (String c s) ->
  match_all keywords 0 (String c s) = match_all keywords 0 s.
Proof. intros H. cbn [match_all]. by rewrite (no_stretch_match_at _ _ H). Qed.

Lemma match_all_none (keywords : list string) (s : string) :
  (forall pre t, s = pre +:+ t -> no_stretch keywords t) ->
  match_all keywords 0 s = [].
Proof.
  induction s as [|c s IH]; intros H; [done|].
  rewrite match_all_pass by by apply (H "").
  apply IH. intros pre t ->. by apply (H (String c pre)).
Qed.

Lemma scan_cons (keywords : list string) (c : ascii) (s : string)
    (ms : list string) :
  no_stretch keywords (String c s) -> scan keywords s ms ->
  scan keywords (String c s) ms.
Proof.
  intros Hno Hs. inversion Hs as [s0 Hall|pre m rest ms' Hpre Hfirst Hrest]; subst.
  - apply scan_end. intros [|c' pre] t E.
    + rewrite append_empty_l in E. by subst t.
    + rewrite append_cons in E. injection E as _ E. by apply (Hall pre).
  - rewrite <- append_cons. apply scan_keep; [|done|done].
    intros [|c' pre1] t E Ht.
    + rewrite append_empty_l in E. subst t. by rewrite append_cons.
    + rewrite append_cons in E. injection E as _ E. by apply (Hpre pre1).
Qed.

Lemma match_all_scan (keywords : list string) (n : nat) (s : string) :
  String.length s <= n -> scan keywords s (match_all keywords 0 s).
Proof.
  revert s. induction n as [|n IH]; intros s Hlen.
  - destruct s; [|simpl in Hlen; lia]. apply scan_end.
    intros pre t E k m rest _ H. apply starts_stretch_text in H as [-> Hne].
    destruct pre, m; done.
  - destruct s as [|c s].
    { apply scan_end. intros pre t E k m rest _ H.
      apply starts_stretch_text in H as [-> Hne]. destruct pre, m; done. }
    pose proof (match_at_first keywords (String c s)) as H.
    destruct (match_at keywords (String c s)) as [m|] eqn:E.
    + destruct H as [rest H].
      destruct (first_stretch_text _ _ _ _ H) as [Hs Hne].
      rewrite Hs in H |- *. rewrite (match_all_keep _ _ _ H).
      apply (scan_keep keywords "" m rest); [by intros [|] t|done|].
      apply IH. apply (f_equal String.length) in Hs.
      rewrite length_append in Hs. simpl in Hs, Hlen.
      destruct m; [done|]. simpl in Hs. lia.
    + rewrite (match_all_pass _ _ _ H). apply scan_cons; [done|].
      apply IH. simpl in Hlen. lia.
Qed.

Lemma scan_match_all (keywords : list string) (s : string) (ms : list string) :
  scan keywords s ms -> match_all keywords 0 s = ms.
Proof.
  induction 1 as [s Hall|pre m rest ms Hpre Hfirst Hrest IH].
  - by apply match_all_none.
  - rewrite <- IH. clear IH Hrest. induction pre as [|c pre IHpre].
    + rewrite append_empty_l. by apply match_all_keep.
    + rewrite append_cons, match_all_pass.
      * apply IHpre. intros pre1 t -> Ht. by apply (Hpre (String c pre1)).
      * rewrite <- append_cons. by apply (Hpre "").
Qed.

Lemma extract_none (keywords : list string) (text : string) :
  extract keywords text = None <-> match_all keywords 0 text = [].
Proof. unfold extract. by destruct (match_all keywords 0 text). Qed.

(** C9, as amended.  For each field the extraction scans the response
    from left to right and keeps every stretch that starts at an
    occurrence, up to case, of one of the field's keywords and runs
    through the next period, each search resuming after the last stretch:
    the stretches found are exactly those of the scan, no more and no
    fewer.  A field gets the stretches joined with spaces and trimmed, and
    gets nothing when no keyword occurrence is followed by a period.
    Stakeholders, pain points, success metrics and technology constraints
    use a second keyword list when the first yields nothing; timeline,
    budget and change-readiness are extracted in the same way from their
    keyword lists. *)
Theorem extraction_keeps_keyword_stretches :
  (forall (keywords : list string) (response : string) (ms : list string),
     scan keywords response ms <-> match_all keywords 0 response = ms)
  /\ (forall (keywords : list string) (response : string) (ms : list string),
        scan keywords response ms ->
        extract keywords response =
          match ms with
          | [] => None
          | _ :: _ => Some (Js.trim (Js.join " " ms))
          end)
  /\ (forall (keywords : list string) (response : string),
        extract keywords response = None <->
        forall pre t, response = pre +:+ t -> no_stretch keywords t)
  /\ (forall response : string,
        let d := extractedData 0 response in
        alist_get d "stakeholders"
        = VStr <$> extract_or Keywords.stakeholder Keywords.people response
        /\ alist_get d "currentPainPoints"
           = VStr <$> extract_or Keywords.painPoint Keywords.problem response
        /\ alist_get d "successMetrics"
           = VStr <$> extract_or Keywords.metric Keywords.success response
        /\ alist_get d "technologyConstraints"
           = VStr <$> extract_or Keywords.tech Keywords.technical response)
  /\ (forall response : string,
        let d := extractedData 1 response in
        alist_get d "implementationTimeline"
        = VStr <$> extract Keywords.timeline response
        /\ alist_get d "budgetConstraints"
           = VStr <$> extract Keywords.budget response
        /\ alist_get d "changeReadiness"
           = VStr <$> extract Keywords.change response)
  /\ (forall (primary fallback : list string) (response : string),
        extract_or primary fallback response =
          match extract primary response with
          | Some r => Some r
          | None => extract fallback response
          end)
  /\ (forall (wf : workflow) (response title : string) (i : nat),
        i + 1 < totalPhases wf -> phases wf !! (i + 1) = Some title ->
        exists wf',
          extractAndPrePopulateNextPhase wf response (Some i) = Ok wf'
          /\ currentFormData wf'
             = alist_assign (currentFormData wf) (extractedData i response))
  /\ alist_get
       (extractedData 0 "Our Team met on Monday. Then the users left. Bye")
       "stakeholders"
     = Some (VStr "Team met on Monday. users left.").
Proof.
  split; [|split; [|split; [|split; [|split; [|split; [|split]]]]]].
  - intros keywords response ms. split; [apply scan_match_all|].
    intros <-. by apply (match_all_scan keywords (String.length response)).
  - intros keywords response ms Hs. apply scan_match_all in Hs as <-.
    unfold extract. by destruct (match_all keywords 0 response).
  - intros keywords response. rewrite extract_none. split.
    + intros H.
      pose proof (match_all_scan keywords (String.length response) response
                    ltac:(done)) as Hs.
      rewrite H in Hs. inversion Hs as [s0 Hall|]; subst. exact Hall.
    + apply match_all_none.
  - intros response. cbv zeta. unfold extractedData.
    destruct (extract_or Keywords.stakeholder Keywords.people response);
      destruct (extract_or Keywords.painPoint Keywords.problem response);
      destruct (extract_or Keywords.metric Keywords.success response);
      destruct (extract_or Keywords.tech Keywords.technical response);
      repeat split; reflexivity.
  - intros response. cbv zeta. unfold extractedData.
    destruct (extract Keywords.timeline response);
      destruct (extract Keywords.budget response);
      destruct (extract Keywords.change response);
      repeat split; reflexivity.
  - reflexivity.
  - intros wf response title i Hlt Hph. unfold extractAndPrePopulateNextPhase.
    change (default (currentPhase wf) (Some i)) with i.
    destruct (Nat.leb_spec (totalPhases wf) (i + 1)) as [Hle|_]; [lia|].
    rewrite Hph. eexists. split; reflexivity.
  - vm_compute. reflexivity.
Qed.

(** C9 as stated fails.  A sentence that ends in an exclamation mark
    contains the keyword "team" and yields nothing, and of a sentence
    that ends in a period only the part from the keyword on is kept. *)
Lemma extraction_not_by_sentences :
  (sentences_with_keyword Keywords.stakeholder "Our team is great!"
   = ["Our team is great"]
   /\ extractedData 0 "Our team is great!" = []
   /\ ~ kept_as_specified Keywords.stakeholder "Our team is great!"
          (alist_get (extractedData 0 "Our team is great!") "stakeholders"))
  /\ (sentences_with_keyword Keywords.stakeholder "The team is big."
      = ["The team is big"]
      /\ alist_get (extractedData 0 "The team is big.") "stakeholders"
         = Some (VStr "team is big.")
      /\ ~ kept_as_specified Keywords.stakeholder "The team is big."
             (alist_get (extractedData 0 "The team is big.") "stakeholders")).
Proof.
  split; (split; [vm_compute; reflexivity|]); (split; [vm_compute; reflexivity|]).
  - intros H. destruct (H "Our team is great") as (r & Hr & _).
    + vm_compute. by left.
    + vm_compute in Hr. discriminate.
  - intros H. destruct (H "The team is big") as (r & Hr & Hinc).
    + vm_compute. by left.
    + vm_compute in Hr. injection Hr as <-. vm_compute in Hinc. discriminate.
Qed.

(** ** Reverse mapping *)




















(** ** Forward mapping on well-formed inputs *)

Lemma all_strings_get (l : list (string * value)) (k : string) :
  all_strings l = true ->
  alist_get l k = None \/ exists s, alist_get l k = Some (VStr s).
Proof.
  induction l as [|[k' v] l IH]; [by left|]. simpl.
  intros [Hv Hl]%andb_prop. destruct (String.eqb k' k); [|by apply IH].
  right. destruct v; try done. by eexists.
Qed.

Lemma general_key_split (m : SemanticFieldMeta) (key : string) :
  general_key m = Some key ->
  Js.split_char "."%char (path m) = ["general"; key].
Proof.
  unfold general_key. destruct (Js.split_char "."%char (path m)) as [|g [|k [|]]];
    try done.
  destruct (String.eqb_spec g "general"); [|done]. by intros [= <-]; subst.
Qed.

Lemma getByPath_general (d : value) (m : SemanticFieldMeta) (key : string) :
  flat_details d = true -> general_key m = Some key ->
  getByPath (js_or d empty_obj) (path m)
  = default VUndef (alist_get (general_props d) key).
Proof.
  intros Hd Hk. apply general_key_split in Hk.
  unfold getByPath, general_props, flat_details in *.
  rewrite (split_char_nonempty _ _ _ _ Hk), Hk.
  destruct (js_or d empty_obj) as [| | |ps]; try done. simpl.
  destruct (alist_get ps "general") as [[| | |g]|]; try done.
Qed.

Lemma stored_value_flat (project feature : option entityRec)
    (m : SemanticFieldMeta) (key : string) :
  flat_entity project = true -> flat_entity feature = true ->
  general_key m = Some key ->
  stored_value project feature m
  = default VUndef
      (alist_get
         (general_props (opt_details (if is_feature m then feature else project)))
         key).
Proof.
  intros Hp Hf Hk. unfold stored_value, target_details.
  destruct (is_feature m); by apply getByPath_general.
Qed.

Lemma general_props_strings (d : value) :
  flat_details d = true -> all_strings (general_props d) = true.
Proof.
  unfold flat_details, general_props.
  destruct (js_or d empty_obj) as [| | |ps]; try done. simpl.
  destruct (alist_get ps "general") as [[| | |g]|]; try done.
Qed.

Lemma stored_value_cases (project feature : option entityRec)
    (m : SemanticFieldMeta) (key : string) :
  flat_entity project = true -> flat_entity feature = true ->
  general_key m = Some key ->
  stored_value project feature m = VUndef
  \/ exists c, stored_value project feature m = VStr c.
Proof.
  intros Hp Hf Hk. rewrite (stored_value_flat _ _ _ _ Hp Hf Hk).
  destruct (all_strings_get
              (general_props (opt_details (if is_feature m then feature else project)))
              key) as [->|[c ->]]; [|by left|right; by exists c].
  apply general_props_strings. by destruct (is_feature m).
Qed.

Lemma normalizeList_stored (cur : value) :
  cur = VUndef \/ (exists c, cur = VStr c) ->
  normalizeList (js_or cur (VStr "")) = Ok (list_items (stored_text cur)).
Proof.
  intros [->|[c ->]]; [reflexivity|].
  unfold stored_text, js_or. simpl.
  destruct (String.eqb c ""); simpl; apply normalizeList_str.
Qed.

(** On well-formed inputs the callback stores what [field_outcome] asks. *)
Lemma deriveField_flat (project feature : option entityRec)
    (formValues : list (string * value)) (fieldKey key : string)
    (m : SemanticFieldMeta) (pu fu : list (string * value))
    (sg : list Suggestion) :
  all_strings formValues = true ->
  flat_entity project = true -> flat_entity feature = true ->
  general_key m = Some key ->
  deriveField project feature formValues (payload_of pu fu sg) (fieldKey, m)
  = Ok match outcome_of project feature formValues (fieldKey, m) with
       | None => payload_of pu fu sg
       | Some n =>
           with_update pu fu sg fieldKey m key
             (stored_value project feature m) (VStr n)
       end.
Proof.
  intros Hfv Hp Hf Hk.
  pose proof (stored_value_cases _ _ _ _ Hp Hf Hk) as Hcur.
  pose proof (general_key_split _ _ Hk) as Hpath.
  unfold deriveField, outcome_of, field_outcome. cbn [fst snd].
  fold (is_feature m). fold (target_details project feature m).
  fold (stored_value project feature m).
  set (cur := stored_value project feature m) in *.
  destruct (all_strings_get formValues fieldKey Hfv) as [->|[v ->]];
    [reflexivity|].
  change (default VUndef (Some (VStr v))) with (VStr v).
  cbn beta iota. cbn [truthy]. fold (nonempty (Js.trim v)).
  destruct (nonempty (Js.trim v)) eqn:Hne; [|reflexivity].
  cbn [negb].
  destruct (isList m).
  - rewrite normalizeList_str. cbn [mbind result_bind].
    destruct (bool_decide (list_items (Js.trim v) = [])) eqn:Hinc.
    { apply bool_decide_eq_true in Hinc. by rewrite Hinc. }
    rewrite (normalizeList_stored _ Hcur). cbn [mbind result_bind].
    fold (stored_text cur).
    change (List.filter
              (fun v0 => negb (existsb (fun existing => ci_eqb existing v0)
                                 (list_items (stored_text cur))))
              (list_items (Js.trim v)))
      with (List.filter (fun x => negb (ci_in x (list_items (stored_text cur))))
              (list_items (Js.trim v))).
    destruct (bool_decide (List.filter _ (list_items (Js.trim v)) = []));
      [done|].
    unfold mergeList. rewrite (normalizeList_stored _ Hcur).
    cbn [mbind result_bind mret result_ret]. by apply emit_general.
  - fold (stored_text cur).
    destruct (String.eqb_spec (Js.trim (stored_text cur)) (Js.trim v)) as [E|E].
    + rewrite E, Hne. simpl. by rewrite String.eqb_refl.
    + cbn [str_strict_neq]. apply String.eqb_neq in E. rewrite E.
      rewrite orb_true_r. by apply emit_general.
Qed.

Lemma simple_paths_cons (e : string * SemanticFieldMeta)
    (M : list (string * SemanticFieldMeta)) :
  simple_paths (e :: M) = true ->
  (exists key, general_key e.2 = Some key) /\ simple_paths M = true.
Proof.
  unfold simple_paths. simpl. intros [He HM]%andb_prop. split; [|done].
  destruct (general_key e.2) as [key|]; [by exists key|done].
Qed.

Lemma writes_cons (side : bool) (project feature : option entityRec)
    (formValues : list (string * value)) (e : string * SemanticFieldMeta)
    (M : list (string * SemanticFieldMeta)) :
  writes side project feature formValues (e :: M)
  = match field_write side project feature formValues e with
    | Some w => w :: writes side project feature formValues M
    | None => writes side project feature formValues M
    end.
Proof. reflexivity. Qed.

Lemma suggested_cons (project feature : option entityRec)
    (formValues : list (string * value)) (e : string * SemanticFieldMeta)
    (M : list (string * SemanticFieldMeta)) :
  suggested project feature formValues (e :: M)
  = match field_suggestion project feature formValues e with
    | Some s => s :: suggested project feature formValues M
    | None => suggested project feature formValues M
    end.
Proof. reflexivity. Qed.

(** On well-formed inputs the whole pass returns the payload of the
    writes of its entries, in the order of the map. *)
Lemma forward_pass_flat (project feature : option entityRec)
    (formValues : list (string * value))
    (M : list (string * SemanticFieldMeta))
    (pu fu : list (string * value)) (sg : list Suggestion) :
  all_strings formValues = true ->
  flat_entity project = true -> flat_entity feature = true ->
  simple_paths M = true ->
  forEachM (deriveField project feature formValues) M (payload_of pu fu sg)
  = Ok (payload_of
          (alist_assign pu (writes false project feature formValues M))
          (alist_assign fu (writes true project feature formValues M))
          (sg ++ suggested project feature formValues M)).
Proof.
  intros Hfv Hp Hf. revert pu fu sg.
  induction M as [|[k m] M IH]; intros pu fu sg HM.
  - simpl. by rewrite app_nil_r.
  - apply simple_paths_cons in HM as [[key Hk] HM]. cbn [fst snd] in Hk.
    cbn [forEachM]. rewrite (deriveField_flat _ _ _ _ key _ _ _ _ Hfv Hp Hf Hk).
    cbn [mbind result_bind]. rewrite !writes_cons, suggested_cons.
    unfold field_write, field_suggestion. cbn [fst snd]. rewrite Hk.
    destruct (outcome_of project feature formValues (k, m)) as [n|].
    + unfold with_update. destruct (is_feature m); cbn [Bool.eqb];
        rewrite IH by done; by rewrite <- app_assoc.
    + destruct (is_feature m); cbn [Bool.eqb]; by rewrite IH.
Qed.

(** C7 as stated fails: with the feature absent a submitted feature
    field still yields a feature update and a feature suggestion; and a
    stored value that is not a string makes the list branch throw. *)
Lemma absent_side_gets_updates :
  (exists d,
     deriveProjectUpdates (Some []) (Some acme) None "discovery"
       [("featureSize", VStr "M")] = Ok d
     /\ featureUpdates d = VObj [("general", VObj [("tShirtSize", VStr "M")])]
     /\ ~ only_available_side (Some acme) None d)
  /\ deriveProjectUpdates (Some [])
       (Some {| ent_id := "1"; ent_name := "Acme";
                details :=
                  VObj [("general",
                         VObj [("stakeholders",
                                VObj [("lead", VStr "Alice")])])] |})
       None "discovery" [("stakeholders", VStr "Bob")]
     = Throw.
Proof.
  split; [|vm_compute; reflexivity].
  eexists. split; [vm_compute; reflexivity|]. split; [reflexivity|].
  intros [H _]. destruct (H eq_refl) as [Hu _]. discriminate Hu.
Qed.

(** ** Objects as association lists *)

Lemma alist_get_set {A} (l : list (string * A)) (k k' : string) (v : A) :
  alist_get (alist_set l k v) k'
  = if String.eqb k k' then Some v else alist_get l k'.
Proof.
  induction l as [|[k0 v0] l IH]; [done|]. simpl.
  destruct (String.eqb_spec k0 k) as [->|Hne]; simpl.
  - by destruct (String.eqb k k').
  - rewrite IH. destruct (String.eqb_spec k0 k') as [->|]; [|done].
    apply not_eq_sym, String.eqb_neq in Hne. by rewrite Hne.
Qed.

Lemma alist_get_In {A} (l : list (string * A)) (k : string) (v : A) :
  alist_get l k = Some v -> In (k, v) l.
Proof.
  induction l as [|[k0 v0] l IH]; [done|]. simpl.
  destruct (String.eqb_spec k0 k) as [->|]; [|by right; apply IH].
  intros [= ->]. by left.
Qed.

Lemma alist_get_None {A} (l : list (string * A)) (k : string) :
  ~ In k (map fst l) -> alist_get l k = None.
Proof.
  induction l as [|[k0 v0] l IH]; [done|]. simpl. intros H.
  destruct (String.eqb_spec k0 k) as [->|]; [|apply IH]; tauto.
Qed.

Lemma alist_assign_get {A} (a b : list (string * A)) (k : string) :
  NoDup (map fst b) ->
  alist_get (alist_assign a b) k
  = match alist_get b k with
    | Some v => Some v
    | None => alist_get a k
    end.
Proof.
  unfold alist_assign. revert a.
  induction b as [|[k0 v0] b IH]; intros a Hnd; [done|].
  cbn [map fst] in Hnd. apply NoDup_cons in Hnd as [Hk0 Hnd].
  cbn [foldl fst snd]. rewrite (IH _ Hnd), alist_get_set. simpl.
  destruct (String.eqb_spec k0 k) as [->|]; [|done].
  rewrite alist_get_None; [done|]. intros H. by apply Hk0, list_elem_of_In.
Qed.

Lemma all_strings_set (l : list (string * value)) (k s : string) :
  all_strings l = true -> all_strings (alist_set l k (VStr s)) = true.
Proof.
  unfold all_strings. induction l as [|[k0 v0] l IH]; [done|]. simpl.
  intros [H0 Hl]%andb_prop. destruct (String.eqb k0 k); simpl.
  - by rewrite Hl.
  - by rewrite H0, IH.
Qed.

Lemma all_strings_assign (a b : list (string * value)) :
  all_strings a = true -> all_strings b = true ->
  all_strings (alist_assign a b) = true.
Proof.
  unfold alist_assign. revert a.
  induction b as [|[k v] b IH]; intros a Ha Hb; [done|].
  unfold all_strings in Hb. simpl in Hb. apply andb_prop in Hb as [Hv Hb].
  destruct v; try done. cbn [foldl fst snd]. apply IH; [|done].
  by apply all_strings_set.
Qed.

Lemma forEachM_setProp (l a : list (string * value)) :
  forEachM (fun g kv => setProp g kv.1 kv.2) l (VObj a)
  = Ok (VObj (alist_assign a l)).
Proof.
  revert a. induction l as [|[k v] l IH]; intros a; [done|].
  cbn [forEachM setProp mbind result_bind fst snd]. by rewrite IH.
Qed.

(** ** Persisting *)

Lemma savePhaseData_general (ps : list (string * value)) (phaseKey : string)
    (formValues : list (string * value)) :
  exists ps',
    savePhaseData (VObj ps) phaseKey formValues = Ok (VObj ps')
    /\ alist_get ps' "general" = alist_get ps "general".
Proof.
  unfold savePhaseData. cbn [setProp mbind result_bind].
  set (pd := js_or (getProp (VObj ps) "phaseData") empty_obj).
  assert (truthy pd = true) as Hpd.
  { subst pd. unfold js_or.
    destruct (truthy (getProp (VObj ps) "phaseData")) eqn:E; [exact E|done]. }
  destruct (nonempty phaseKey).
  - cbn [getProp]. rewrite alist_get_set, String.eqb_refl. cbn [default].
    change (from_option id VUndef (Some pd)) with pd.
    destruct pd as [| |s|props]; try done; cbn [setProp mbind result_bind];
      eexists; (split; [reflexivity|]); by rewrite !alist_get_set.
  - eexists. split; [reflexivity|]. by rewrite alist_get_set.
Qed.

Lemma flat_details_obj (d : value) :
  flat_details d = true ->
  exists ps, js_or d empty_obj = VObj ps
             /\ js_or (getProp (VObj ps) "general") empty_obj
                = VObj (general_props d)
             /\ all_strings (general_props d) = true.
Proof.
  intros Hd. pose proof (general_props_strings d Hd) as Hs.
  unfold flat_details, general_props in *.
  destruct (js_or d empty_obj) as [| | |ps]; try done. exists ps.
  split; [done|]. split; [|done]. simpl in *.
  destruct (alist_get ps "general") as [[| | |g]|]; try done.
Qed.

Lemma projectDetailsToSave_flat (p : entityRec) (pu : list (string * value))
    (phaseKey : string) (formValues : list (string * value)) :
  flat_details (details p) = true -> all_strings pu = true ->
  exists d',
    projectDetailsToSave p (VObj [("general", VObj pu)]) phaseKey formValues
    = Ok d'
    /\ flat_details d' = true
    /\ general_props d' = alist_assign (general_props (details p)) pu.
Proof.
  intros Hd Hpu. destruct (flat_details_obj _ Hd) as (ps & Hps & Hg & Hs).
  unfold projectDetailsToSave. rewrite Hps. cbn [spread]. rewrite Hg.
  cbn [spread setProp mbind result_bind].
  destruct (savePhaseData_general
              (alist_set ps "general" (VObj (general_props (details p))))
              phaseKey formValues) as (ps2 & -> & Hgen).
  rewrite alist_get_set, String.eqb_refl in Hgen.
  cbn [mbind result_bind getProp alist_get String.eqb Ascii.eqb Bool.eqb
         default truthy spread].
  change (from_option id VUndef (Some (VObj pu))) with (VObj pu).
  cbn [truthy spread]. rewrite Hgen.
  change (from_option id VUndef (Some (VObj (general_props (details p)))))
    with (VObj (general_props (details p))).
  rewrite forEachM_setProp. cbn [mbind result_bind setProp].
  eexists. split; [reflexivity|].
  unfold flat_details, general_props. cbn [js_or truthy getProp].
  rewrite alist_get_set, String.eqb_refl. cbn [default].
  split; [by apply all_strings_assign|reflexivity].
Qed.

Lemma featureDetailsToSave_flat (f : entityRec) (fu : list (string * value))
    (phaseKey : string) (formValues : list (string * value)) :
  flat_details (details f) = true -> all_strings fu = true ->
  exists d',
    featureDetailsToSave f (VObj [("general", VObj fu)]) phaseKey formValues
    = Ok d'
    /\ flat_details d' = true
    /\ general_props d' = alist_assign (general_props (details f)) fu.
Proof.
  intros Hd Hfu. destruct (flat_details_obj _ Hd) as (ps & Hps & Hg & Hs).
  unfold featureDetailsToSave. rewrite Hps. cbn [spread]. rewrite Hg.
  cbn [spread setProp mbind result_bind getProp alist_get String.eqb
         Ascii.eqb Bool.eqb default].
  change (id (VObj fu)) with (VObj fu). cbn [spread].
  destruct (savePhaseData_general
              (alist_set ps "general"
                 (VObj (alist_assign (general_props (details f)) fu)))
              phaseKey formValues) as (ps2 & -> & Hgen).
  rewrite alist_get_set, String.eqb_refl in Hgen.
  eexists. split; [reflexivity|].
  unfold flat_details, general_props. cbn [js_or truthy getProp].
  rewrite Hgen. cbn [default].
  split; [by apply all_strings_assign|reflexivity].
Qed.

Lemma applySuggestions_flat (p f : entityRec) (pu fu : list (string * value))
    (sg : list Suggestion) (phaseKey : string)
    (formValues : list (string * value)) :
  flat_details (details p) = true -> flat_details (details f) = true ->
  all_strings pu = true -> all_strings fu = true ->
  exists p' f',
    applySuggestions (Some p) (Some f) (Some (payload_of pu fu sg))
      phaseKey formValues = Ok (Some p', Some f')
    /\ flat_details (details p') = true
    /\ flat_details (details f') = true
    /\ general_props (details p')
       = alist_assign (general_props (details p)) pu
    /\ general_props (details f')
       = alist_assign (general_props (details f)) fu.
Proof.
  intros Hp Hf Hpu Hfu. unfold applySuggestions, payload_of.
  cbn [projectUpdates featureUpdates js_or truthy].
  destruct (projectDetailsToSave_flat p pu phaseKey formValues Hp Hpu)
    as (pd & -> & Hpd & Hpg).
  cbn [mbind result_bind getProp alist_get String.eqb Ascii.eqb Bool.eqb
         default].
  change (id (VObj fu)) with (VObj fu). cbn [truthy spread andb].
  destruct (bool_decide (fu = [])) eqn:E; cbn [negb].
  - apply bool_decide_eq_true in E. subst fu.
    exists (with_details p pd), f. done.
  - destruct (featureDetailsToSave_flat f fu phaseKey formValues Hf Hfu)
      as (fd & -> & Hfd & Hfg).
    exists (with_details p pd), (with_details f fd). done.
Qed.

(** ** Running the forward mapping again *)

Lemma stored_text_str (n : string) : stored_text (VStr n) = n.
Proof.
  unfold stored_text, js_or. simpl. destruct (String.eqb_spec n ""); by subst.
Qed.

Lemma first_ci_covers (x : string) (l : list string) :
  In x l -> ci_in x (first_ci l) = true.
Proof.
  unfold ci_in. induction l as [|y l IH]; [done|]. simpl.
  destruct (ci_eqb y x) eqn:Eyx; [done|]. simpl.
  intros [->|Hin]; [by rewrite ci_eqb_refl in Eyx|].
  apply existsb_exists. apply IH, existsb_exists in Hin as (e & He & Hex).
  exists e. split; [|done]. apply filter_In. split; [done|].
  apply negb_true_iff. rewrite (ci_eqb_compat y e x Hex). exact Eyx.
Qed.

Lemma appended_covers (base incoming : list string) (x : string) :
  In x incoming -> Js.trim x = x -> x <> "" -> ci_in x base = false ->
  ci_in x (appended base incoming) = true.
Proof.
  intros Hin Ht Hne Hb. unfold appended. apply first_ci_covers.
  apply filter_In. split.
  - rewrite <- Ht. by apply in_map.
  - apply nonempty_true in Hne. by rewrite Hne, Hb.
Qed.

Lemma filter_none {A} (p : A -> bool) (l : list A) :
  (forall x, In x l -> p x = false) -> List.filter p l = [].
Proof.
  induction l as [|x l IH]; [done|]. simpl. intros H.
  rewrite (H x) by by left. apply IH. intros y Hy. apply H. by right.
Qed.

(** Once a field has stored what it asked, it asks nothing more. *)
Lemma field_outcome_stable (m : SemanticFieldMeta) (cur : value)
    (raw : option value) (n : string) :
  field_outcome m cur raw = Some n -> field_outcome m (VStr n) raw = None.
Proof.
  unfold field_outcome. destruct raw as [[| |v|]|]; try done.
  destruct (nonempty (Js.trim v)) eqn:Hne; [|done].
  rewrite stored_text_str. destruct (isList m).
  - set (current := list_items (stored_text cur)).
    set (incoming := list_items (Js.trim v)).
    set (new := List.filter (fun x => negb (ci_in x current)) incoming).
    destruct (bool_decide (new = [])); [done|]. intros [= <-].
    rewrite merge_items_spec.
    assert (Forall clean current) as Hcur by apply list_items_clean.
    assert (Forall clean incoming) as Hinc by apply list_items_clean.
    rewrite list_items_join.
    2:{ apply Forall_app. split; [done|]. apply Forall_forall. intros t Ht.
        apply list_elem_of_In, appended_In in Ht as ((x & Hx & ->) & _ & _).
        apply filter_In in Hx as [Hx _].
        rewrite Forall_forall in Hinc.
        apply list_elem_of_In, Hinc in Hx as Hc.
        destruct Hc as (Ht & ? & ?). by rewrite Ht. }
    rewrite filter_none; [by rewrite bool_decide_eq_true_2|].
    intros x Hx. apply negb_false_iff. rewrite ci_in_app.
    destruct (ci_in x current) eqn:Ec; [done|]. simpl.
    rewrite Forall_forall in Hinc.
    destruct (Hinc x (proj2 (list_elem_of_In _ _) Hx)) as (Ht & Hn & _).
    apply appended_covers; try done.
    apply filter_In. split; [done|]. by rewrite Ec.
  - destruct (String.eqb (Js.trim (stored_text cur)) (Js.trim v)); [done|].
    intros [= <-]. by rewrite trim_idem, String.eqb_refl.
Qed.

Lemma field_outcome_inactive (formValues : list (string * value))
    (e : string * SemanticFieldMeta) (cur : value) :
  active formValues e = false ->
  field_outcome e.2 cur (alist_get formValues e.1) = None.
Proof.
  unfold active, field_outcome.
  destruct (alist_get formValues e.1) as [[| |v|]|]; try done.
  by intros ->.
Qed.

Lemma split_char_join (d : ascii) (p : string) :
  Js.join (String d "") (Js.split_char d p) = p.
Proof.
  induction p as [|c p IH]; [done|]. simpl.
  destruct (Ascii.eqb_spec c d) as [->|Hne].
  - pose proof (split_char_not_nil d p) as Hnil.
    destruct (Js.split_char d p) as [|t ts] eqn:E; [done|].
    change (Js.join (String d "") ("" :: t :: ts))
      with ("" +:+ String d "" +:+ Js.join (String d "") (t :: ts)).
    by rewrite IH.
  - pose proof (split_char_not_nil d p) as Hnil.
    destruct (Js.split_char d p) as [|t [|u ts]] eqn:E; [done| |].
    + simpl in *. by rewrite IH.
    + change (Js.join (String d "") (String c t :: u :: ts))
        with (String c t +:+ String d "" +:+ Js.join (String d "") (u :: ts)).
      change (Js.join (String d "") (t :: u :: ts))
        with (t +:+ String d "" +:+ Js.join (String d "") (u :: ts)) in IH.
      by rewrite append_cons, IH.
Qed.

(** Entries with the same key under [general] have the same path. *)
Lemma general_key_inj (m m' : SemanticFieldMeta) (key : string) :
  general_key m = Some key -> general_key m' = Some key -> path m = path m'.
Proof.
  intros H H'. apply general_key_split in H, H'.
  rewrite <- (split_char_join "."%char (path m)), H.
  by rewrite <- (split_char_join "."%char (path m')), H'.
Qed.

Section Writes.

Variables (project feature : option entityRec).
Variable formValues : list (string * value).

Lemma outcome_active (e : string * SemanticFieldMeta) (n : string) :
  outcome_of project feature formValues e = Some n ->
  active formValues e = true.
Proof.
  intros H. destruct (active formValues e) eqn:E; [done|].
  unfold outcome_of in H. by rewrite field_outcome_inactive in H.
Qed.

Lemma field_write_Some (side : bool) (e : string * SemanticFieldMeta)
    (key : string) (w : value) :
  field_write side project feature formValues e = Some (key, w) ->
  active formValues e = true /\ is_feature e.2 = side
  /\ general_key e.2 = Some key
  /\ exists n, outcome_of project feature formValues e = Some n
               /\ w = VStr n.
Proof.
  unfold field_write.
  destruct (Bool.eqb_spec (is_feature e.2) side) as [Hs|]; [|done].
  destruct (general_key e.2) as [k|]; [|done].
  destruct (outcome_of project feature formValues e) as [n|] eqn:Ho; [|done].
  intros [= -> <-]. split; [by eapply outcome_active|]. eauto.
Qed.

Lemma writes_key (side : bool) (M : list (string * SemanticFieldMeta))
    (key : string) :
  In key (map fst (writes side project feature formValues M)) ->
  exists e, In e M /\ active formValues e = true
            /\ is_feature e.2 = side /\ general_key e.2 = Some key.
Proof.
  induction M as [|e M IH]; [done|]. rewrite writes_cons.
  destruct (field_write side project feature formValues e) as [[k w]|] eqn:E.
  - intros [<-|Hin].
    + apply field_write_Some in E as (? & ? & ? & _).
      exists e. split; [by left|done].
    + destruct (IH Hin) as (e' & ? & ?). exists e'. split; [by right|done].
  - intros Hin. destruct (IH Hin) as (e' & ? & ?).
    exists e'. split; [by right|done].
Qed.

Lemma active_target_In (e : string * SemanticFieldMeta)
    (M : list (string * SemanticFieldMeta)) :
  In e M -> active formValues e = true ->
  In (is_feature e.2, path e.2) (active_targets formValues M).
Proof.
  intros Hin Ha. unfold active_targets.
  apply (in_map (fun e => (is_feature e.2, path e.2))).
  by apply filter_In.
Qed.

Lemma active_targets_tail (e : string * SemanticFieldMeta)
    (M : list (string * SemanticFieldMeta)) :
  NoDup (active_targets formValues (e :: M)) ->
  NoDup (active_targets formValues M)
  /\ (active formValues e = true ->
      ~ In (is_feature e.2, path e.2) (active_targets formValues M)).
Proof.
  unfold active_targets. simpl. destruct (active formValues e).
  - simpl. intros [Hn Hd]%NoDup_cons. split; [done|].
    intros _ Hin. by apply Hn, list_elem_of_In.
  - intros Hd. by split.
Qed.

(** Another entry that writes the key [key] of [side] has the target
    of [e]. *)
Lemma same_key_same_target (e e' : string * SemanticFieldMeta)
    (key : string) :
  general_key e.2 = Some key -> general_key e'.2 = Some key ->
  is_feature e'.2 = is_feature e.2 ->
  (is_feature e'.2, path e'.2) = (is_feature e.2, path e.2).
Proof.
  intros Hk Hk' ->. f_equal. by eapply general_key_inj.
Qed.

Lemma writes_NoDup (side : bool) (M : list (string * SemanticFieldMeta)) :
  NoDup (active_targets formValues M) ->
  NoDup (map fst (writes side project feature formValues M)).
Proof.
  induction M as [|e M IH]; [constructor|]. intros Hnd.
  apply active_targets_tail in Hnd as [Hnd Hfresh]. rewrite writes_cons.
  destruct (field_write side project feature formValues e) as [[k w]|] eqn:E;
    [|by apply IH].
  apply field_write_Some in E as (Ha & Hs & Hk & _).
  cbn [map fst]. apply NoDup_cons. split; [|by apply IH].
  intros Hin. apply list_elem_of_In, writes_key in Hin
    as (e' & Hin & Ha' & Hs' & Hk').
  apply (Hfresh Ha).
  rewrite <- (same_key_same_target e e' k Hk Hk') by congruence.
  by apply active_target_In.
Qed.

(** Under distinct targets the payload holds, at the key of an active
    entry, what that entry asked to store. *)
Lemma writes_get (M : list (string * SemanticFieldMeta))
    (e : string * SemanticFieldMeta) (key : string) :
  In e M -> active formValues e = true ->
  NoDup (active_targets formValues M) ->
  general_key e.2 = Some key ->
  alist_get (writes (is_feature e.2) project feature formValues M) key
  = VStr <$> outcome_of project feature formValues e.
Proof.
  intros Hin Ha Hnd Hk. induction M as [|e0 M IH]; [done|].
  apply active_targets_tail in Hnd as [Hnd Hfresh]. rewrite writes_cons.
  assert (forall e', In e' M -> active formValues e' = true ->
            is_feature e'.2 = is_feature e.2 ->
            general_key e'.2 = Some key ->
            In (is_feature e.2, path e.2) (active_targets formValues M))
    as Hsame.
  { intros e' Hin' Ha' Hs' Hk'.
    rewrite <- (same_key_same_target e e' key Hk Hk' Hs').
    by apply active_target_In. }
  destruct Hin as [->|Hin].
  - unfold field_write at 1. rewrite Bool.eqb_reflx, Hk.
    destruct (outcome_of project feature formValues e) as [n|].
    + simpl. by rewrite String.eqb_refl.
    + simpl. apply alist_get_None. intros Hin.
      apply writes_key in Hin as (e' & Hin & Ha' & Hs' & Hk').
      apply (Hfresh Ha). by eapply Hsame.
  - destruct (field_write (is_feature e.2) project feature formValues e0)
      as [[k0 w0]|] eqn:E0; [|by apply IH].
    apply field_write_Some in E0 as (Ha0 & Hs0 & Hk0 & _).
    simpl. destruct (String.eqb_spec k0 key) as [->|]; [|by apply IH].
    destruct (Hfresh Ha0).
    rewrite (same_key_same_target e e0 key Hk Hk0 Hs0).
    by apply active_target_In.
Qed.

Lemma all_strings_writes (side : bool) (M : list (string * SemanticFieldMeta)) :
  all_strings (writes side project feature formValues M) = true.
Proof.
  induction M as [|e M IH]; [done|]. rewrite writes_cons.
  destruct (field_write side project feature formValues e) as [[k w]|] eqn:E;
    [|done].
  apply field_write_Some in E as (_ & _ & _ & n & _ & ->).
  unfold all_strings in *. simpl. exact IH.
Qed.

End Writes.

Lemma no_outcome_no_writes (project feature : option entityRec)
    (formValues : list (string * value))
    (M : list (string * SemanticFieldMeta)) :
  (forall e, In e M -> outcome_of project feature formValues e = None) ->
  writes false project feature formValues M = []
  /\ writes true project feature formValues M = []
  /\ suggested project feature formValues M = [].
Proof.
  induction M as [|e M IH]; [done|]. intros H.
  rewrite !writes_cons, suggested_cons.
  unfold field_write, field_suggestion. rewrite (H e) by by left.
  destruct (general_key e.2), (is_feature e.2); simpl;
    apply IH; intros e' He'; apply H; by right.
Qed.

Lemma alist_set_fresh {A} (a : list (string * A)) (k : string) (v : A) :
  ~ In k (map fst a) -> alist_set a k v = a ++ [(k, v)].
Proof.
  induction a as [|[k0 v0] a IH]; [done|]. simpl. intros H.
  destruct (String.eqb_spec k0 k) as [->|]; [tauto|]. rewrite IH; tauto.
Qed.

Lemma alist_assign_fresh {A} (a b : list (string * A)) :
  NoDup (map fst b) ->
  (forall k, In k (map fst b) -> ~ In k (map fst a)) ->
  alist_assign a b = a ++ b.
Proof.
  unfold alist_assign. revert a.
  induction b as [|[k v] b IH]; intros a Hnd Hdis; [by rewrite app_nil_r|].
  cbn [map fst] in Hnd. apply NoDup_cons in Hnd as [Hk Hnd].
  cbn [foldl fst snd]. rewrite alist_set_fresh by (apply Hdis; by left).
  rewrite IH; [by rewrite <- app_assoc|done|].
  intros k' Hk' Hin. rewrite map_app in Hin.
  apply in_app_or in Hin as [Hin|[<-|[]]].
  - apply (Hdis k'); [by right|done].
  - by apply Hk, list_elem_of_In.
Qed.

Lemma alist_assign_nil {A} (b : list (string * A)) :
  NoDup (map fst b) -> alist_assign [] b = b.
Proof.
  intros H. rewrite alist_assign_fresh; [done|done|]. by intros k _ [].
Qed.

Lemma simple_paths_In (M : list (string * SemanticFieldMeta))
    (e : string * SemanticFieldMeta) :
  simple_paths M = true -> In e M -> exists key, general_key e.2 = Some key.
Proof.
  unfold simple_paths. rewrite forallb_forall. intros H Hin.
  specialize (H e Hin). destruct (general_key e.2) as [key|]; [eauto|done].
Qed.

(** C1, as amended.  For a project record and a feature record whose
    stored values under [general] are strings, a semantic map whose paths
    have the form [general.<key>] and string form values such that no
    two fields with a non-empty value target the same entity and path:
    once the updates of [deriveProjectUpdates] are applied by
    [applySuggestions], running [deriveProjectUpdates] again on the same
    form values gives no suggestion and empty updates. *)
Theorem forward_mapping_idempotent_on_distinct_targets
    (root : option (list semanticEl)) (p f : entityRec) (formId : string)
    (formValues : list (string * value)) :
  all_strings formValues = true ->
  simple_paths (buildSemanticMap root formId) = true ->
  flat_details (details p) = true ->
  flat_details (details f) = true ->
  NoDup (active_targets formValues (buildSemanticMap root formId)) ->
  exists d p' f',
    deriveProjectUpdates root (Some p) (Some f) formId formValues = Ok d
    /\ applySuggestions (Some p) (Some f) (Some d) formId formValues
       = Ok (Some p', Some f')
    /\ deriveProjectUpdates root (Some p') (Some f') formId formValues
       = Ok (payload_of [] [] []).
Proof.
  intros Hfv HM Hp Hf Hnd. unfold deriveProjectUpdates.
  set (M := buildSemanticMap root formId) in *.
  change {| projectUpdates := general_empty; featureUpdates := general_empty;
            suggestions := [] |} with (payload_of [] [] []).
  rewrite (forward_pass_flat (Some p) (Some f) formValues M [] [] []) by done.
  pose proof (writes_NoDup (Some p) (Some f) formValues false M Hnd) as Hn0.
  pose proof (writes_NoDup (Some p) (Some f) formValues true M Hnd) as Hn1.
  rewrite !alist_assign_nil by done.
  destruct (applySuggestions_flat p f
              (writes false (Some p) (Some f) formValues M)
              (writes true (Some p) (Some f) formValues M)
              ([] ++ suggested (Some p) (Some f) formValues M)
              formId formValues Hp Hf
              (all_strings_writes _ _ _ _ _) (all_strings_writes _ _ _ _ _))
    as (p' & f' & Hsave & Hp' & Hf' & Hgp & Hgf).
  eexists _, p', f'. split; [reflexivity|]. split; [exact Hsave|].
  rewrite (forward_pass_flat (Some p') (Some f') formValues M [] [] []) by done.
  destruct (no_outcome_no_writes (Some p') (Some f') formValues M)
    as (-> & -> & ->); [|reflexivity].
  intros e Hin. unfold outcome_of.
  destruct (active formValues e) eqn:Ha;
    [|by apply field_outcome_inactive].
  destruct (simple_paths_In M e HM Hin) as [key Hk].
  rewrite (stored_value_flat (Some p') (Some f') _ key) by done.
  assert (general_props
            (opt_details (if is_feature e.2 then Some f' else Some p'))
          = alist_assign
              (general_props
                 (opt_details (if is_feature e.2 then Some f else Some p)))
              (writes (is_feature e.2) (Some p) (Some f) formValues M)) as ->
    by (by destruct (is_feature e.2)).
  rewrite alist_assign_get by (by destruct (is_feature e.2)).
  rewrite (writes_get (Some p) (Some f) formValues M e key Hin Ha Hnd Hk).
  pose proof (stored_value_flat (Some p) (Some f) e.2 key Hp Hf Hk) as Hcur.
  unfold outcome_of.
  destruct (field_outcome e.2 (stored_value (Some p) (Some f) e.2)
              (alist_get formValues e.1)) as [n|] eqn:Ho; simpl.
  - by eapply field_outcome_stable.
  - by rewrite <- Hcur.
Qed.

Lemma forward_mapping_idempotent_on_distinct_targets_witness :
  exists d p' f',
    deriveProjectUpdates None (Some discovery_project) (Some discovery_feature)
      "discovery" discovery_form = Ok d
    /\ applySuggestions (Some discovery_project) (Some discovery_feature)
         (Some d) "discovery" discovery_form = Ok (Some p', Some f')
    /\ deriveProjectUpdates None (Some p') (Some f') "discovery" discovery_form
       = Ok (payload_of [] [] []).
Proof.
  apply forward_mapping_idempotent_on_distinct_targets; try reflexivity.
  apply (bool_decide_unpack _). vm_compute. exact I.
Defined.

(** C1 as stated fails.  The static table maps both business-objectives
    and success-metrics to [general.goals]; with both filled in, the
    second value is the one stored, and the second run suggests the first
    again. *)
Lemma forward_mapping_not_idempotent :
  exists d p' f' d',
    deriveProjectUpdates (Some []) (Some discovery_project)
      (Some discovery_feature) "discovery" two_goals_form = Ok d
    /\ applySuggestions (Some discovery_project) (Some discovery_feature)
         (Some d) "discovery" two_goals_form = Ok (Some p', Some f')
    /\ deriveProjectUpdates (Some []) (Some p') (Some f') "discovery"
         two_goals_form = Ok d'
    /\ suggestions d'
       = [ {| s_entity := "project"; s_path := "general.goals";
              s_label := "Business objectives";
              oldValue := VStr "Churn below 2%";
              newValue := VStr "Grow revenue" |} ]
    /\ projectUpdates d'
       = VObj [("general", VObj [("goals", VStr "Grow revenue")])].
Proof.
  eexists _, _, _, _. split; [vm_compute; reflexivity|].
  split; [vm_compute; reflexivity|]. split; [vm_compute; reflexivity|].
  split; reflexivity.
Qed.

(** * Properties of the other functions *)

(** ** Paths *)

Lemma get_parts_undef (parts : list string) : get_parts VUndef parts = VUndef.
Proof. induction parts as [|k parts IH]; [done|]. exact IH. Qed.

Lemma get_parts_falsy (v : value) (k : string) (parts : list string) :
  truthy v = false -> get_parts v (k :: parts) = VUndef.
Proof.
  intros H. unfold get_parts. cbn [foldl]. rewrite H. apply get_parts_undef.
Qed.

Lemma get_parts_obj (ps : list (string * value)) (k : string)
    (parts : list string) :
  get_parts (VObj ps) (k :: parts) = get_parts (getProp (VObj ps) k) parts.
Proof. reflexivity. Qed.

Lemma getProp_set_same (ps : list (string * value)) (k : string) (x : value) :
  getProp (VObj (alist_set ps k x)) k = x.
Proof. simpl. by rewrite alist_get_set, String.eqb_refl. Qed.

Lemma getProp_set_other (ps : list (string * value)) (k k' : string) (x : value) :
  k <> k' -> getProp (VObj (alist_set ps k x)) k' = getProp (VObj ps) k'.
Proof.
  intros Hne. simpl. rewrite alist_get_set.
  by destruct (String.eqb_spec k k').
Qed.

Lemma set_parts_cons2 (cursor : value) (k k2 : string) (rest : list string)
    (x : value) :
  set_parts cursor (k :: k2 :: rest) x
  = (c1 ← setProp cursor k (js_or (getProp cursor k) empty_obj);
     child ← set_parts (getProp c1 k) (k2 :: rest) x;
     setProp c1 k child).
Proof. reflexivity. Qed.

Lemma open_path_child (ps : list (string * value)) (k k2 : string)
    (rest : list string) :
  open_path (VObj ps) (k :: k2 :: rest) = true ->
  open_path (js_or (getProp (VObj ps) k) empty_obj) (k2 :: rest) = true.
Proof.
  cbn [open_path]. unfold js_or.
  destruct (truthy (getProp (VObj ps) k)); [done|]. intros _.
  by destruct rest.
Qed.

Lemma open_path_obj (cursor : value) (parts : list string) :
  open_path cursor parts = true -> exists ps, cursor = VObj ps.
Proof. destruct cursor, parts; try done; by eexists. Qed.

(** On an open path the write succeeds, the value is read back at the
    path, and the properties of the cursor other than the first key are
    untouched. *)
Lemma set_parts_open (x : value) (parts : list string) (cursor : value) :
  parts <> [] -> open_path cursor parts = true ->
  exists ps',
    set_parts cursor parts x = Ok (VObj ps')
    /\ get_parts (VObj ps') parts = x
    /\ forall k', Some k' <> head parts ->
         getProp (VObj ps') k' = getProp cursor k'.
Proof.
  revert cursor. induction parts as [|k rest IH]; intros cursor Hne Ho; [done|].
  destruct cursor as [| |s|ps]; try done.
  destruct rest as [|k2 rest].
  - exists (alist_set ps k x). split; [done|]. split.
    + by rewrite get_parts_obj, getProp_set_same.
    + intros k' Hk'. apply getProp_set_other. intros ->. by apply Hk'.
  - apply open_path_child in Ho.
    destruct (IH _ ltac:(done) Ho) as (ps' & Hs & Hg & _).
    set (c := js_or (getProp (VObj ps) k) empty_obj) in *.
    exists (alist_set (alist_set ps k c) k (VObj ps')). split; [|split].
    + rewrite set_parts_cons2. fold c.
      change (setProp (VObj ps) k c) with (Ok (VObj (alist_set ps k c))).
      change (Ok (VObj (alist_set ps k c)) ≫= ?f)
        with (f (VObj (alist_set ps k c))).
      cbv beta. rewrite getProp_set_same, Hs. reflexivity.
    + by rewrite get_parts_obj, getProp_set_same.
    + intros k' Hk'. rewrite !getProp_set_other; [done|intros ->; by apply Hk'..].
Qed.

(** X1.  Writing a value at a path and reading the path back gives the
    value, provided the path is not empty and can be opened: every node
    on the way is an object or is missing. *)
Theorem setByPath_then_getByPath (target : value) (p : string) (x : value) :
  p <> "" ->
  open_path target (Js.split_char "."%char p) = true ->
  exists t', setByPath target p x = Ok t' /\ getByPath t' p = x.
Proof.
  intros Hp Ho. destruct (open_path_obj _ _ Ho) as [ps ->].
  destruct (set_parts_open x _ (VObj ps) (split_char_not_nil _ _) Ho)
    as (ps' & Hs & Hg & _).
  exists (VObj ps'). unfold setByPath, getByPath.
  rewrite (proj2 (nonempty_true p) Hp). simpl. by split.
Qed.

Lemma setByPath_then_getByPath_witness :
  exists t',
    setByPath general_empty "general.goals" (VStr "Grow revenue") = Ok t'
    /\ getByPath t' "general.goals" = VStr "Grow revenue".
Proof. apply setByPath_then_getByPath; [done|reflexivity]. Defined.

Lemma set_parts_frame (x : value) (k k' : string) (r r' : list string)
    (pre : list string) (cursor : value) :
  k <> k' -> open_path cursor (pre ++ k :: r) = true ->
  exists ps',
    set_parts cursor (pre ++ k :: r) x = Ok (VObj ps')
    /\ get_parts (VObj ps') (pre ++ k' :: r')
       = get_parts cursor (pre ++ k' :: r').
Proof.
  intros Hne. revert cursor. induction pre as [|a pre IH]; intros cursor Ho.
  - destruct (set_parts_open x (k :: r) cursor ltac:(done) Ho)
      as (ps' & Hs & _ & Hk).
    exists ps'. split; [done|]. destruct (open_path_obj _ _ Ho) as [ps ->].
    simpl app. rewrite !get_parts_obj, Hk; [done|]. simpl. congruence.
  - destruct (open_path_obj _ _ Ho) as [ps ->].
    set (c := js_or (getProp (VObj ps) a) empty_obj).
    assert (open_path c (pre ++ k :: r) = true) as Hc.
    { subst c. simpl app in Ho. destruct (pre ++ k :: r) as [|b rest] eqn:E;
        [by destruct pre|]. by apply open_path_child. }
    destruct (IH c Hc) as (psc & Hs & Hg).
    exists (alist_set (alist_set ps a c) a (VObj psc)). split.
    + simpl app. destruct (pre ++ k :: r) as [|b rest] eqn:E;
        [by destruct pre|].
      rewrite set_parts_cons2. fold c.
      change (setProp (VObj ps) a c) with (Ok (VObj (alist_set ps a c))).
      change (Ok (VObj (alist_set ps a c)) ≫= ?f)
        with (f (VObj (alist_set ps a c))).
      cbv beta. rewrite getProp_set_same, Hs. reflexivity.
    + simpl app. rewrite !get_parts_obj, getProp_set_same, Hg.
      subst c. unfold js_or.
      destruct (truthy (getProp (VObj ps) a)) eqn:Ht; [done|].
      destruct (pre ++ k' :: r') as [|b rest] eqn:E; [by destruct pre|].
      rewrite (get_parts_falsy _ _ _ Ht). unfold empty_obj.
      rewrite get_parts_obj. apply get_parts_undef.
Qed.

(** X2.  A write at one path leaves every path that branches off it
    as it was: where the two paths first differ, the keys are two
    properties of the same object. *)
Theorem setByPath_keeps_other_paths (target : value) (p q : string) (x : value)
    (pre : list string) (k k' : string) (r r' : list string) :
  Js.split_char "."%char p = pre ++ k :: r ->
  Js.split_char "."%char q = pre ++ k' :: r' ->
  k <> k' ->
  open_path target (Js.split_char "."%char p) = true ->
  exists t', setByPath target p x = Ok t' /\ getByPath t' q = getByPath target q.
Proof.
  intros Hp Hq Hne Ho. rewrite Hp in Ho.
  destruct (set_parts_frame x k k' r r' pre target Hne Ho) as (ps' & Hs & Hg).
  destruct (open_path_obj _ _ Ho) as [ps ->].
  unfold setByPath, getByPath. simpl truthy. simpl negb. simpl orb.
  destruct (nonempty p) eqn:Hnp; simpl.
  - rewrite Hp, Hs. exists (VObj ps'). split; [done|]. simpl.
    destruct (nonempty q); simpl; [|done].
    rewrite Hq. exact Hg.
  - by exists (VObj ps).
Qed.

Lemma setByPath_keeps_other_paths_witness :
  exists t',
    setByPath (details acme) "general.goals" (VStr "Grow revenue") = Ok t'
    /\ getByPath t' "general.name" = getByPath (details acme) "general.name".
Proof.
  apply (setByPath_keeps_other_paths (details acme) "general.goals"
           "general.name" (VStr "Grow revenue") ["general"] "goals" "name" [] []);
    [reflexivity|reflexivity|done|reflexivity].
Defined.

(** ** Lists *)

(** X3.  [normalizeList] gives no item for an absent value, throws on
    an object and on nothing else, and every item it gives is trimmed,
    not empty and free of commas, semicolons and line feeds. *)
Theorem normalizeList_gives_clean_items :
  normalizeList VUndef = Ok []
  /\ normalizeList VNull = Ok []
  /\ (forall props, normalizeList (VObj props) = Throw)
  /\ (forall s, exists items,
        normalizeList (VStr s) = Ok items /\ Forall clean items).
Proof.
  repeat split; try done.
  intros s. exists (list_items s). split; [apply normalizeList_str|].
  apply list_items_clean.
Qed.

(** X4.  The items of a value, joined with a comma and a space,
    normalise to the same items: the joined text is a faithful way to
    store a list. *)
Theorem normalizeList_of_joined_items (val : value) (items : list string) :
  normalizeList val = Ok items ->
  normalizeList (VStr (Js.join ", " items)) = Ok items.
Proof.
  intros H. assert (Forall clean items) as Hc.
  { destruct val as [| |s|ps]; try done.
    - injection H as <-. constructor.
    - injection H as <-. constructor.
    - rewrite normalizeList_str in H. injection H as <-.
      apply list_items_clean. }
  rewrite normalizeList_str. f_equal. by apply list_items_join.
Qed.

Lemma normalizeList_of_joined_items_witness :
  normalizeList (VStr (Js.join ", " ["Alice - PM"; "Bob - Dev"; "Carol"]))
  = Ok ["Alice - PM"; "Bob - Dev"; "Carol"].
Proof.
  apply (normalizeList_of_joined_items (VStr "Alice - PM; Bob - Dev,, Carol ")).
  reflexivity.
Defined.

Lemma appended_clean (base incoming : list string) :
  Forall (fun v => no_delim v = true) incoming ->
  Forall clean (appended base incoming).
Proof.
  intros Hin. apply Forall_forall. intros t Ht%list_elem_of_In.
  apply appended_In in Ht as ((v & Hv & ->) & Hne & _).
  split; [apply trim_idem|]. split; [done|].
  apply str_forall_trim.
  rewrite Forall_forall in Hin. apply Hin. by apply list_elem_of_In.
Qed.

Lemma appended_again (base incoming : list string) :
  appended (base ++ appended base incoming) incoming = [].
Proof.
  unfold appended at 1. rewrite filter_none; [done|].
  intros t Ht. destruct (nonempty t) eqn:Hn; [|done]. simpl.
  rewrite ci_in_app. destruct (ci_in t base) eqn:Hb; [done|]. simpl.
  unfold appended. rewrite first_ci_covers; [done|].
  apply List.filter_In. split; [done|]. by rewrite Hn, Hb.
Qed.

(** X5.  Merging the same incoming items a second time changes
    nothing, as long as no incoming item holds a comma, a semicolon or a
    line feed. *)
Theorem mergeList_again_changes_nothing (existing : string)
    (incoming : list string) :
  Forall (fun v => no_delim v = true) incoming ->
  exists out,
    mergeList (VStr existing) incoming = Ok out
    /\ mergeList (VStr out) incoming = Ok out.
Proof.
  intros Hin. rewrite mergeList_str. eexists. split; [done|].
  rewrite mergeList_str. f_equal.
  rewrite list_items_join.
  - by rewrite appended_again, app_nil_r.
  - apply Forall_app. split; [apply list_items_clean|by apply appended_clean].
Qed.

Lemma mergeList_again_changes_nothing_witness :
  exists out,
    mergeList (VStr "Alice - PM") ["Bob - Dev"; "alice - pm"] = Ok out
    /\ mergeList (VStr out) ["Bob - Dev"; "alice - pm"] = Ok out.
Proof.
  apply mergeList_again_changes_nothing. by repeat constructor.
Defined.

(** ** The semantic map *)

Lemma buildSemanticMap_hints (els : list semanticEl) (phaseKey : string) :
  buildSemanticMap (Some els) phaseKey =
  foldl (fun merged el =>
           if negb (nonempty (hint_name el)) then merged
           else alist_set merged (hint_name el) (hint_entry el))
    (buildSemanticMap None phaseKey) els.
Proof. reflexivity. Qed.

Lemma hints_other_name (els : list semanticEl) (k : string)
    (M : list (string * SemanticFieldMeta)) :
  Forall (fun e => hint_name e <> k) els ->
  alist_get
    (foldl (fun merged el =>
              if negb (nonempty (hint_name el)) then merged
              else alist_set merged (hint_name el) (hint_entry el))
       M els) k
  = alist_get M k.
Proof.
  revert M. induction els as [|e els IH]; intros M Hall; [done|].
  apply Forall_cons in Hall as [He Hall]. cbn [foldl]. rewrite IH; [|done].
  destruct (negb (nonempty (hint_name e))); [done|].
  rewrite alist_get_set. by destruct (String.eqb_spec (hint_name e) k).
Qed.

(** X6.  A semantic hint in the rendered form overrides the static
    entry of its field, the last hint for a field being the one that
    counts, and a field without hint keeps its static entry. *)
Theorem hints_override_static_entries (phaseKey : string) :
  (forall (pre post : list semanticEl) (el : semanticEl),
     hint_name el <> "" ->
     Forall (fun e => hint_name e <> hint_name el) post ->
     alist_get (buildSemanticMap (Some (pre ++ el :: post)) phaseKey)
       (hint_name el)
     = Some (hint_entry el))
  /\ (forall (els : list semanticEl) (k : string),
        Forall (fun e => hint_name e <> k) els ->
        alist_get (buildSemanticMap (Some els) phaseKey) k
        = alist_get (buildSemanticMap None phaseKey) k).
Proof.
  split.
  - intros pre post el Hne Hpost. rewrite buildSemanticMap_hints.
    rewrite foldl_app. cbn [foldl]. rewrite hints_other_name; [|done].
    apply nonempty_true in Hne. rewrite Hne. cbn [negb].
    by rewrite alist_get_set, String.eqb_refl.
  - intros els k Hall. rewrite buildSemanticMap_hints.
    by apply hints_other_name.
Qed.

Lemma hints_override_static_entries_witness :
  alist_get
    (buildSemanticMap
       (Some [ {| sem_id := "stakeholders"; sem_name := "";
                  data_entity := "feature"; data_path := "general.owners";
                  data_label := None; data_isList := Some "true" |} ])
       "discovery")
    "stakeholders"
  = Some (meta "feature" "general.owners" "stakeholders" true)
  /\ alist_get
       (buildSemanticMap
          (Some [ {| sem_id := "stakeholders"; sem_name := "";
                     data_entity := "feature"; data_path := "general.owners";
                     data_label := None; data_isList := Some "true" |} ])
          "discovery")
       "teamMembers"
     = Some (meta "project" "general.teamMembers" "Team members" true).
Proof.
  split.
  - apply (proj1 (hints_override_static_entries "discovery") []); [done|].
    constructor.
  - apply (proj2 (hints_override_static_entries "discovery")).
    by repeat constructor.
Defined.

(** ** Forward mapping, the fields it reads *)

Lemma deriveField_reads_its_field (project feature : option entityRec)
    (fv fv' : list (string * value)) (st : UpdatePayload)
    (e : string * SemanticFieldMeta) :
  alist_get fv e.1 = alist_get fv' e.1 ->
  deriveField project feature fv st e = deriveField project feature fv' st e.
Proof.
  destruct e as [k m]. simpl. intros H. unfold deriveField. by rewrite H.
Qed.

Lemma forEachM_agree {A S : Type} (f g : S -> A -> result S) (xs : list A)
    (s : S) :
  (forall s x, In x xs -> f s x = g s x) ->
  forEachM f xs s = forEachM g xs s.
Proof.
  revert s. induction xs as [|x xs IH]; intros s H; [done|]. simpl.
  rewrite (H s x) by by left. destruct (g s x) as [s'|]; [|done]. simpl.
  apply IH. intros s0 y Hy. apply H. by right.
Qed.

(** X7.  The forward mapping reads only the fields that have an entry
    in the effective semantic map: two submissions that agree on those
    fields give the same payload and the same suggestions. *)
Theorem forward_mapping_ignores_unmapped_fields
    (root : option (list semanticEl)) (project feature : option entityRec)
    (formId : string) (fv fv' : list (string * value)) :
  (forall k, In k (map fst (buildSemanticMap root formId)) ->
             alist_get fv k = alist_get fv' k) ->
  deriveProjectUpdates root project feature formId fv
  = deriveProjectUpdates root project feature formId fv'.
Proof.
  intros H. unfold deriveProjectUpdates. apply forEachM_agree.
  intros s e He. apply deriveField_reads_its_field. apply H.
  by apply in_map.
Qed.

Lemma forward_mapping_ignores_unmapped_fields_witness :
  deriveProjectUpdates None (Some acme) None "discovery"
    [("notes", VStr "Call them on Monday"); ("featureSize", VStr "M")]
  = deriveProjectUpdates None (Some acme) None "discovery"
      [("featureSize", VStr "M")].
Proof.
  apply forward_mapping_ignores_unmapped_fields.
  intros k Hk. simpl in Hk.
  repeat (destruct Hk as [<-|Hk]; [reflexivity|]). destruct Hk.
Defined.

(** ** Forward mapping, list fields *)

Lemma filter_all {A} (p : A -> bool) (l : list A) :
  (forall x, In x l -> p x = true) -> List.filter p l = l.
Proof.
  induction l as [|x l IH]; intros H; [done|]. simpl.
  rewrite (H x) by by left. f_equal. apply IH. intros y Hy. apply H. by right.
Qed.

Lemma map_trim_clean (l : list string) : Forall clean l -> map Js.trim l = l.
Proof.
  induction 1 as [|x l [Hx _] _ IH]; [done|]. simpl. by rewrite Hx, IH.
Qed.

(** What a merge appends when the incoming items are items of a
    normalised list that the current list lacks: each of them once. *)
Lemma appended_new_items (current : list string) (s : string) :
  appended current
    (List.filter (fun x => negb (ci_in x current)) (list_items s))
  = first_ci (List.filter (fun x => negb (ci_in x current)) (list_items s)).
Proof.
  unfold appended. set (new := List.filter _ (list_items s)).
  assert (Forall clean new) as Hc.
  { apply Forall_forall. intros x Hx%list_elem_of_In.
    apply List.filter_In in Hx as [Hx _].
    pose proof (list_items_clean s) as H. rewrite Forall_forall in H.
    apply H. by apply list_elem_of_In. }
  rewrite (map_trim_clean _ Hc). f_equal. apply filter_all.
  intros x Hx. rewrite Forall_forall in Hc.
  destruct (Hc x) as (_ & Hne & _); [by apply list_elem_of_In|].
  apply nonempty_true in Hne. rewrite Hne. simpl.
  by apply List.filter_In in Hx as [_ Hx].
Qed.

(** X8.  A list field with a non-empty value emits nothing when every
    item of the value is already stored, compared up to case; if not,
    it emits one suggestion whose new value is the stored items followed
    by the items that are new, each once, joined by a comma and a
    space. *)
Theorem list_field_suggestion_iff_new_item
    (project feature : option entityRec) (formValues : list (string * value))
    (fieldKey : string) (m : SemanticFieldMeta) (v key : string)
    (pu fu : list (string * value)) (sg : list Suggestion) :
  isList m = true ->
  alist_get formValues fieldKey = Some (VStr v) ->
  Js.trim v <> "" ->
  flat_entity project = true -> flat_entity feature = true ->
  general_key m = Some key ->
  let cur := stored_value project feature m in
  let current := list_items (stored_text cur) in
  let new :=
    List.filter (fun x => negb (ci_in x current)) (list_items (Js.trim v)) in
  let st := payload_of pu fu sg in
  (new = [] ->
     deriveField project feature formValues st (fieldKey, m) = Ok st)
  /\ (new <> [] ->
        deriveField project feature formValues st (fieldKey, m)
        = Ok (with_update pu fu sg fieldKey m key cur
                (VStr (Js.join ", " (current ++ first_ci new))))).
Proof.
  intros Hl Hv Hne Hp Hf Hk cur current new st.
  assert (deriveField project feature formValues st (fieldKey, m)
          = deriveField project feature [(fieldKey, VStr v)] st (fieldKey, m))
    as ->.
  { apply deriveField_reads_its_field. simpl. by rewrite String.eqb_refl. }
  subst st. rewrite (deriveField_flat _ _ _ _ key); [|done..].
  unfold outcome_of, field_outcome. cbn [fst snd alist_get].
  rewrite String.eqb_refl. apply nonempty_true in Hne. rewrite Hne, Hl.
  fold cur. fold current. fold new.
  split; intros Hnew.
  - by rewrite Hnew.
  - rewrite bool_decide_eq_false_2 by done.
    rewrite merge_items_spec. subst new. by rewrite appended_new_items.
Qed.

Lemma list_field_suggestion_iff_new_item_witness :
  deriveField (Some discovery_project) None
    [("stakeholders", VStr "alice - pm")] (payload_of [] [] [])
    ("stakeholders", meta "project" "general.stakeholders" "Stakeholders" true)
  = Ok (payload_of [] [] [])
  /\ deriveField (Some discovery_project) None
       [("stakeholders", VStr "Alice - PM; Bob - Dev")] (payload_of [] [] [])
       ("stakeholders", meta "project" "general.stakeholders" "Stakeholders" true)
     = Ok (payload_of [("stakeholders", VStr "Alice - PM, Bob - Dev")] []
             [ {| s_entity := "project"; s_path := "general.stakeholders";
                  s_label := "Stakeholders";
                  oldValue := VStr "Alice - PM";
                  newValue := VStr "Alice - PM, Bob - Dev" |} ]).
Proof.
  split.
  - apply (proj1 (list_field_suggestion_iff_new_item (Some discovery_project)
             None [("stakeholders", VStr "alice - pm")] "stakeholders"
             (meta "project" "general.stakeholders" "Stakeholders" true)
             "alice - pm" "stakeholders" [] [] []
             eq_refl eq_refl ltac:(done) eq_refl eq_refl eq_refl)).
    reflexivity.
  - apply (proj2 (list_field_suggestion_iff_new_item (Some discovery_project)
             None [("stakeholders", VStr "Alice - PM; Bob - Dev")] "stakeholders"
             (meta "project" "general.stakeholders" "Stakeholders" true)
             "Alice - PM; Bob - Dev" "stakeholders" [] [] []
             eq_refl eq_refl ltac:(done) eq_refl eq_refl eq_refl)).
    done.
Defined.

(** ** Forward mapping, what a suggestion says *)

Lemma field_outcome_text (m : SemanticFieldMeta) (cur cur' : value)
    (raw : option value) :
  stored_text cur = stored_text cur' ->
  field_outcome m cur raw = field_outcome m cur' raw.
Proof. intros H. unfold field_outcome. by rewrite H. Qed.

Lemma suggested_In (project feature : option entityRec)
    (formValues : list (string * value))
    (M : list (string * SemanticFieldMeta)) (s : Suggestion) :
  In s (suggested project feature formValues M) ->
  exists e n, In e M
    /\ outcome_of project feature formValues e = Some n
    /\ s = suggestion_for e.1 e.2 (stored_value project feature e.2) (VStr n).
Proof.
  induction M as [|e M IH]; [done|]. rewrite suggested_cons.
  unfold field_suggestion.
  destruct (outcome_of project feature formValues e) as [n|] eqn:E.
  - intros [<-|H].
    + exists e, n. split; [by left|]. by split.
    + destruct (IH H) as (e' & n' & ? & ? & ?). exists e', n'.
      split; [by right|]. by split.
  - intros H. destruct (IH H) as (e' & n' & ? & ? & ?). exists e', n'.
    split; [by right|]. by split.
Qed.

(** X9.  On well-formed inputs the forward mapping returns, and every
    suggestion it returns changes something: its new value is a string
    that differs from the old value shown beside it. *)
Theorem suggestions_change_the_stored_value
    (root : option (list semanticEl)) (project feature : option entityRec)
    (formId : string) (formValues : list (string * value)) :
  all_strings formValues = true ->
  simple_paths (buildSemanticMap root formId) = true ->
  flat_entity project = true ->
  flat_entity feature = true ->
  exists d,
    deriveProjectUpdates root project feature formId formValues = Ok d
    /\ Forall (fun s => is_str (newValue s) = true /\ newValue s <> oldValue s)
         (suggestions d).
Proof.
  intros Hfv HM Hp Hf. unfold deriveProjectUpdates.
  change {| projectUpdates := general_empty; featureUpdates := general_empty;
            suggestions := [] |} with (payload_of [] [] []).
  rewrite forward_pass_flat by done. eexists. split; [done|].
  cbn [suggestions payload_of app]. apply Forall_forall.
  intros s Hs%list_elem_of_In.
  apply suggested_In in Hs as (e & n & He & Ho & ->).
  split; [done|]. cbn [newValue oldValue suggestion_for].
  destruct (simple_paths_In _ _ HM He) as [key Hk].
  unfold outcome_of in Ho.
  set (cur := stored_value project feature e.2) in *.
  intros Heq.
  assert (stored_text cur = n) as Ht.
  { unfold stored_text. by rewrite <- Heq. }
  pose proof (field_outcome_stable _ _ _ _ Ho) as Hst.
  rewrite (field_outcome_text _ cur (VStr n)) in Ho; [congruence|].
  by rewrite stored_text_str.
Qed.

Lemma suggestions_change_the_stored_value_witness :
  exists d,
    deriveProjectUpdates None (Some discovery_project) (Some discovery_feature)
      "discovery" discovery_form = Ok d
    /\ Forall (fun s => is_str (newValue s) = true /\ newValue s <> oldValue s)
         (suggestions d).
Proof. apply suggestions_change_the_stored_value; reflexivity. Defined.

(** ** Persisting, what is written *)

Lemma alist_set_key_In {A} (a : list (string * A)) (k x : string) (v : A) :
  In x (map fst (alist_set a k v)) <-> In x (map fst a) \/ x = k.
Proof.
  induction a as [|[k' v'] a IH]; simpl.
  - split; [intros [<-|[]]; by right|intros [[]| ->]; by left].
  - destruct (String.eqb_spec k' k) as [->|Hne]; simpl.
    + split; [tauto|]. intros [H| ->]; [done|by left].
    + rewrite IH. tauto.
Qed.

Lemma alist_set_keys_NoDup {A} (a : list (string * A)) (k : string) (v : A) :
  NoDup (map fst a) -> NoDup (map fst (alist_set a k v)).
Proof.
  induction a as [|[k' v'] a IH]; simpl; intros H.
  - repeat constructor. by intros ?%elem_of_nil.
  - apply NoDup_cons in H as [Hk' H].
    destruct (String.eqb_spec k' k) as [->|Hne]; simpl.
    + by apply NoDup_cons.
    + apply NoDup_cons. split; [|by apply IH].
      intros Hin%list_elem_of_In%alist_set_key_In.
      destruct Hin as [Hin| ->]; [|done]. by apply Hk', list_elem_of_In.
Qed.

Lemma alist_assign_keys_NoDup {A} (a b : list (string * A)) :
  NoDup (map fst a) -> NoDup (map fst (alist_assign a b)).
Proof.
  unfold alist_assign. revert a. induction b as [|[k v] b IH]; intros a H;
    [done|].
  cbn [foldl]. apply IH. by apply alist_set_keys_NoDup.
Qed.

(** X10.  Applying the suggestions of a submission writes the payload
    and nothing else under [general]: afterwards a key holds the value
    the payload has for it, and a key the payload does not name holds
    what it held before, on the project and on the feature. *)
Theorem applied_suggestions_write_the_payload
    (root : option (list semanticEl)) (p f : entityRec) (formId : string)
    (formValues : list (string * value)) :
  all_strings formValues = true ->
  simple_paths (buildSemanticMap root formId) = true ->
  flat_details (details p) = true ->
  flat_details (details f) = true ->
  exists d p' f',
    deriveProjectUpdates root (Some p) (Some f) formId formValues = Ok d
    /\ applySuggestions (Some p) (Some f) (Some d) formId formValues
       = Ok (Some p', Some f')
    /\ (forall key,
          alist_get (general_props (details p')) key
          = match alist_get (general_props (projectUpdates d)) key with
            | Some v => Some v
            | None => alist_get (general_props (details p)) key
            end)
    /\ (forall key,
          alist_get (general_props (details f')) key
          = match alist_get (general_props (featureUpdates d)) key with
            | Some v => Some v
            | None => alist_get (general_props (details f)) key
            end).
Proof.
  intros Hfv HM Hp Hf. unfold deriveProjectUpdates.
  change {| projectUpdates := general_empty; featureUpdates := general_empty;
            suggestions := [] |} with (payload_of [] [] []).
  rewrite forward_pass_flat by done.
  set (pu := alist_assign [] (writes false _ _ _ _)).
  set (fu := alist_assign [] (writes true _ _ _ _)).
  assert (all_strings pu = true) as Hpu
    by (apply all_strings_assign; [done|apply all_strings_writes]).
  assert (all_strings fu = true) as Hfu
    by (apply all_strings_assign; [done|apply all_strings_writes]).
  destruct (applySuggestions_flat p f pu fu
              ([] ++ suggested (Some p) (Some f) formValues
                       (buildSemanticMap root formId))
              formId formValues Hp Hf Hpu Hfu)
    as (p' & f' & Happ & _ & _ & Hpg & Hfg).
  exists (payload_of pu fu
            ([] ++ suggested (Some p) (Some f) formValues
                     (buildSemanticMap root formId))), p', f'.
  split; [done|]. split; [done|].
  assert (forall a b : list (string * value),
            NoDup (map fst (alist_assign ([] : list (string * value)) b)))
    as Hnd by (intros _ b; apply alist_assign_keys_NoDup; constructor).
  split; intros key.
  - rewrite Hpg. apply alist_assign_get. subst pu. by apply Hnd.
  - rewrite Hfg. apply alist_assign_get. subst fu. by apply Hnd.
Qed.

Lemma applied_suggestions_write_the_payload_witness :
  exists d p' f',
    deriveProjectUpdates None (Some discovery_project) (Some discovery_feature)
      "discovery" discovery_form = Ok d
    /\ applySuggestions (Some discovery_project) (Some discovery_feature)
         (Some d) "discovery" discovery_form = Ok (Some p', Some f')
    /\ (forall key,
          alist_get (general_props (details p')) key
          = match alist_get (general_props (projectUpdates d)) key with
            | Some v => Some v
            | None => alist_get (general_props (details discovery_project)) key
            end)
    /\ (forall key,
          alist_get (general_props (details f')) key
          = match alist_get (general_props (featureUpdates d)) key with
            | Some v => Some v
            | None => alist_get (general_props (details discovery_feature)) key
            end).
Proof. apply applied_suggestions_write_the_payload; reflexivity. Defined.

(** ** Persisting, the submission of the phase *)

Lemma getProp_spread (v : value) (k : string) :
  getProp (VObj (spread v)) k = getProp v k.
Proof. by destruct v. Qed.

(** The phase data after [savePhaseData]: the submission is stored under
    the phase key unless the phase data is a string, and the other
    properties are untouched. *)
Lemma savePhaseData_phase (ps : list (string * value)) (phaseKey : string)
    (formValues : list (string * value)) :
  phaseKey <> "" ->
  exists ps',
    savePhaseData (VObj ps) phaseKey formValues = Ok (VObj ps')
    /\ (forall k, k <> "phaseData" -> alist_get ps' k = alist_get ps k)
    /\ getProp (js_or (getProp (VObj ps') "phaseData") empty_obj) phaseKey
       = if is_str (js_or (getProp (VObj ps) "phaseData") empty_obj)
         then VUndef else VObj formValues.
Proof.
  intros Hk%nonempty_true. unfold savePhaseData.
  cbn [setProp mbind result_bind]. rewrite Hk.
  set (pd := js_or (getProp (VObj ps) "phaseData") empty_obj).
  assert (truthy pd = true) as Hpd.
  { subst pd. unfold js_or.
    destruct (truthy (getProp (VObj ps) "phaseData")) eqn:E; [exact E|done]. }
  rewrite getProp_set_same.
  destruct pd as [| |s|props]; try done; cbn [setProp mbind result_bind];
    eexists; (split; [reflexivity|]); split.
  - intros k Hne. rewrite !alist_get_set.
    by destruct (String.eqb_spec "phaseData" k).
  - rewrite getProp_set_same. unfold js_or. by rewrite Hpd.
  - intros k Hne. rewrite !alist_get_set.
    by destruct (String.eqb_spec "phaseData" k).
  - rewrite getProp_set_same. unfold js_or. cbn [truthy is_str].
    apply getProp_set_same.
Qed.

Lemma projectDetailsToSave_phase (p : entityRec) (projUpdates : value)
    (phaseKey : string) (formValues : list (string * value)) :
  phaseKey <> "" ->
  (forall s, getProp (js_or (details p) empty_obj) "phaseData" <> VStr s) ->
  exists ps',
    projectDetailsToSave p projUpdates phaseKey formValues = Ok (VObj ps')
    /\ getProp (js_or (getProp (VObj ps') "phaseData") empty_obj) phaseKey
       = VObj formValues.
Proof.
  intros Hk Hpd. unfold projectDetailsToSave.
  cbn [setProp mbind result_bind].
  set (g := VObj (spread (js_or (getProp (VObj (spread (js_or (details p)
                                                        empty_obj)))
                                   "general") empty_obj))).
  set (ps := spread (js_or (details p) empty_obj)).
  destruct (savePhaseData_phase (alist_set ps "general" g) phaseKey formValues Hk)
    as (ps2 & -> & Hframe & Hphase).
  cbn [mbind result_bind].
  assert (getProp (VObj (alist_set ps "general" g)) "phaseData"
          = getProp (js_or (details p) empty_obj) "phaseData") as Hsame.
  { rewrite getProp_set_other by done. apply getProp_spread. }
  rewrite Hsame in Hphase.
  assert (is_str (js_or (getProp (js_or (details p) empty_obj) "phaseData")
                    empty_obj) = false) as Hns.
  { unfold js_or at 1.
    destruct (getProp (js_or (details p) empty_obj) "phaseData") as [| |s|props]
      eqn:E; try done.
    by destruct (Hpd s). }
  rewrite Hns in Hphase.
  destruct (truthy (getProp projUpdates "general")).
  - assert (getProp (VObj ps2) "general" = g) as ->.
    { simpl. rewrite Hframe by done.
      by rewrite alist_get_set, String.eqb_refl. }
    subst g. rewrite forEachM_setProp. cbn [mbind result_bind setProp].
    eexists. split; [reflexivity|].
    by rewrite getProp_set_other.
  - by exists ps2.
Qed.

Lemma featureDetailsToSave_phase (f : entityRec) (featUpdates : value)
    (phaseKey : string) (formValues : list (string * value)) :
  phaseKey <> "" ->
  exists ps',
    featureDetailsToSave f featUpdates phaseKey formValues = Ok (VObj ps')
    /\ (getProp (js_or (getProp (VObj ps') "phaseData") empty_obj) phaseKey
        = VObj formValues
        \/ getProp (js_or (getProp (VObj ps') "phaseData") empty_obj) phaseKey
           = VUndef).
Proof.
  intros Hk. unfold featureDetailsToSave. cbn [setProp mbind result_bind].
  match goal with
  | |- context [savePhaseData (VObj ?ps) _ _] =>
      destruct (savePhaseData_phase ps phaseKey formValues Hk)
        as (ps2 & -> & _ & Hphase)
  end.
  exists ps2. split; [done|]. rewrite Hphase.
  destruct (is_str _); [by right|by left].
Qed.

(** X11.  Applying the suggestions also saves the submission of the
    phase, and the reverse mapping finds it: afterwards the saved values
    of the phase are the values that were submitted.  The phase has a
    name, the phase data of the project is not a string, and the feature,
    if there is one, holds no submission of the phase from before. *)
Theorem applySuggestions_saves_the_submission
    (JSON_parse : string -> result value) (p : entityRec)
    (feat : option entityRec) (pending : option UpdatePayload)
    (phaseKey : string) (formValues : list (string * value)) :
  phaseKey <> "" ->
  (forall s, getProp (js_or (details p) empty_obj) "phaseData" <> VStr s) ->
  truthy (getProp (js_or (getProp (cachedDetails JSON_parse feat) "phaseData")
                     empty_obj) phaseKey) = false ->
  exists p' feat',
    applySuggestions (Some p) feat pending phaseKey formValues
    = Ok (Some p', feat')
    /\ savedPhaseValues JSON_parse phaseKey (Some p') feat' = VObj formValues.
Proof.
  intros Hk Hpd Hfeat. unfold applySuggestions. cbv zeta.
  set (projUpdates :=
         match pending with
         | Some u => js_or (projectUpdates u) empty_obj
         | None => empty_obj
         end).
  set (featUpdates :=
         match pending with
         | Some u => js_or (featureUpdates u) empty_obj
         | None => empty_obj
         end).
  destruct (projectDetailsToSave_phase p projUpdates phaseKey formValues Hk Hpd)
    as (ps' & -> & Hphase).
  cbn [mbind result_bind].
  assert (forall feat',
            truthy (getProp (js_or (getProp (cachedDetails JSON_parse feat')
                                      "phaseData") empty_obj) phaseKey) = false ->
            savedPhaseValues JSON_parse phaseKey
              (Some (with_details p (VObj ps'))) feat' = VObj formValues)
    as Hproj.
  { intros feat' Hf'. unfold savedPhaseValues.
    change (cachedDetails JSON_parse (Some (with_details p (VObj ps'))))
      with (VObj ps').
    rewrite Hphase. unfold js_or at 2. by rewrite Hf'. }
  destruct feat as [f|]; [|eexists _, _; split; [reflexivity|by apply Hproj]].
  destruct (truthy (getProp featUpdates "general")
            && negb (bool_decide (spread (getProp featUpdates "general") = [])));
    [|eexists _, _; split; [reflexivity|by apply Hproj]].
  destruct (featureDetailsToSave_phase f featUpdates phaseKey formValues Hk)
    as (fs' & -> & Hf').
  eexists _, _. split; [reflexivity|].
  destruct Hf' as [Hf'|Hf'].
  - unfold savedPhaseValues.
    change (cachedDetails JSON_parse (Some (with_details f (VObj fs'))))
      with (VObj fs').
    rewrite Hf'. reflexivity.
  - apply Hproj.
    change (cachedDetails JSON_parse (Some (with_details f (VObj fs'))))
      with (VObj fs').
    by rewrite Hf'.
Qed.

Lemma applySuggestions_saves_the_submission_witness :
  exists p' feat',
    applySuggestions (Some saved_project) (Some discovery_feature) None
      "discovery" discovery_form = Ok (Some p', feat')
    /\ savedPhaseValues (fun _ => Throw) "discovery" (Some p') feat'
       = VObj discovery_form.
Proof.
  apply applySuggestions_saves_the_submission; [done|done|reflexivity].
Defined.

(** ** The values of the form, collected and put back *)

















(** ** Extraction from a response without period *)

Lemma through_period_no_period (s : string) :
  no_period s = true -> through_period s = None.
Proof.
  induction s as [|c s IH]; [done|]. unfold no_period. cbn [str_forall through_period].
  intros [Hc Hs]%andb_true_iff. apply negb_true_iff in Hc. rewrite Hc.
  by rewrite IH.
Qed.

Lemma strip_prefix_no_period (k s rest : string) :
  no_period s = true -> strip_prefix_ci k s = Some rest ->
  no_period rest = true.
Proof.
  revert s. induction k as [|a k IH]; intros s Hs; simpl.
  - by intros [= <-].
  - destruct s as [|c s]; [done|].
    destruct (Ascii.eqb (Js.lower_char c) a); [|done].
    apply IH. unfold no_period in Hs. cbn [str_forall] in Hs.
    by apply andb_true_iff in Hs as [_ Hs].
Qed.

Lemma match_at_no_period (keywords : list string) (s : string) :
  no_period s = true -> match_at keywords s = None.
Proof.
  intros Hs. induction keywords as [|k keywords IH]; [done|]. simpl.
  destruct (strip_prefix_ci k s) as [rest|] eqn:E; simpl; [|done].
  by rewrite (through_period_no_period rest (strip_prefix_no_period _ _ _ Hs E)).
Qed.

Lemma match_all_no_period (keywords : list string) (n : nat) (s : string) :
  no_period s = true -> match_all keywords n s = [].
Proof.
  revert n. induction s as [|c s IH]; intros n Hs; [done|].
  assert (no_period s = true) as Hs'.
  { unfold no_period in Hs. cbn [str_forall] in Hs.
    by apply andb_true_iff in Hs as [_ Hs]. }
  cbn [match_all]. destruct n as [|n]; [|by apply IH].
  rewrite (match_at_no_period _ _ Hs). by apply IH.
Qed.

Lemma extract_no_period (keywords : list string) (s : string) :
  no_period s = true -> extract keywords s = None.
Proof. intros Hs. unfold extract. by rewrite match_all_no_period. Qed.

(** X14.  A response without a period gives nothing: no field is
    extracted for any phase, and the form data kept for the next phase
    stays as it is. *)
Theorem response_without_period_gives_nothing (response : string) :
  no_period response = true ->
  (forall i, extractedData i response = [])
  /\ (forall (wf : workflow) (i : option nat),
        totalPhases wf <= length (phases wf) ->
        extractAndPrePopulateNextPhase wf response i = Ok wf).
Proof.
  intros Hs.
  assert (forall i, extractedData i response = []) as Hnone.
  { intros [|[|i]]; [| |done]; unfold extractedData, extract_or;
      by rewrite !(extract_no_period _ _ Hs). }
  split; [done|]. intros wf i Hlen. unfold extractAndPrePopulateNextPhase.
  cbv zeta. destruct (Nat.leb_spec (totalPhases wf) (default (currentPhase wf) i + 1))
    as [Hle|Hlt]; [done|].
  destruct (lookup_lt_is_Some_2 (phases wf) (default (currentPhase wf) i + 1))
    as [title ->]; [lia|].
  rewrite Hnone. by destruct wf.
Qed.

Lemma response_without_period_gives_nothing_witness :
  (forall i, extractedData i "The team wants a faster checkout" = [])
  /\ (forall (wf : workflow) (i : option nat),
        totalPhases wf <= length (phases wf) ->
        extractAndPrePopulateNextPhase wf "The team wants a faster checkout" i
        = Ok wf).
Proof. apply response_without_period_gives_nothing. reflexivity. Defined.

(** ** The heuristic mapping *)

(** X15.  The heuristic mapping never sets a date, a time or a number
    input, however the run ends. *)
Theorem heuristic_mapping_skips_typed_inputs (form : list formEl)
    (data : value) (i : nat) (el : formEl) :
  form !! i = Some el ->
  str_in (el_type el) ["date"; "time"; "datetime-local"; "number"] = true ->
  (applyHeuristicMapping form data).1.1 !! i = Some el.
Proof.
  revert i. induction form as [|x form IH]; intros i Hi Ht; [done|].
  cbn [applyHeuristicMapping]. destruct (negb (is_control x)).
  - destruct (applyHeuristicMapping form data) as [[rest' applied] c] eqn:Er.
    destruct i as [|i]; simpl in Hi |- *; [done|]. by apply IH.
  - destruct (heuristicField data x) as [r|] eqn:E; [|done].
    destruct (applyHeuristicMapping form data) as [[rest' applied] c] eqn:Er.
    destruct i as [|i]; simpl in Hi |- *.
    + injection Hi as ->. f_equal. unfold heuristicField in E.
      destruct (negb (is_blank (el_value el))); [by injection E as <-|].
      rewrite Ht in E. by injection E as <-.
    + by apply IH.
Qed.

Lemma heuristic_mapping_skips_typed_inputs_witness :
  (applyHeuristicMapping
     [ {| el_id := "due"; el_name := "due"; el_tag := "INPUT";
          el_type := "date"; el_classes := []; el_label := "Goal date";
          el_options := []; el_value := ""; el_object := false |} ]
     (VObj [("goals", VStr "Grow revenue")])).1.1 !! 0
  = Some {| el_id := "due"; el_name := "due"; el_tag := "INPUT";
            el_type := "date"; el_classes := []; el_label := "Goal date";
            el_options := []; el_value := ""; el_object := false |}.
Proof.
  apply heuristic_mapping_skips_typed_inputs; reflexivity.
Defined.

Lemma find_candidate_falsy (candidates : list value) :
  Forall (fun v => truthy v = false) candidates ->
  find_candidate candidates = Ok VUndef.
Proof.
  induction 1 as [|v l Hv _ IH]; [done|]. simpl. by rewrite Hv.
Qed.

Lemma js_or_falsy (a b : value) :
  truthy a = false -> truthy b = false -> truthy (js_or a b) = false.
Proof. intros Ha Hb. unfold js_or. by rewrite Ha. Qed.

Lemma selectBestMatch_no_token (options : list (string * string)) :
  selectBestMatch [] options = (None, 0).
Proof. unfold selectBestMatch. by induction options. Qed.

Lemma heuristicField_nothing_stored (data : value) (el : formEl) :
  (forall k, truthy (getProp data k) = false) ->
  heuristicField data el = Ok (el, false).
Proof.
  intros Hd. unfold heuristicField.
  destruct (negb (is_blank (el_value el))); [done|].
  destruct (str_in (el_type el) _); [done|]. cbv zeta.
  rewrite find_candidate_falsy.
  - cbn [mbind result_bind]. destruct (String.eqb (el_tag el) "SELECT"); [|done].
    change (js_toString (js_or VUndef (VStr ""))) with "".
    by rewrite selectBestMatch_no_token.
  - repeat (apply Forall_app; split);
      match goal with
      | |- Forall _ (if ?b then _ else _) => destruct b
      end;
      repeat constructor; repeat apply js_or_falsy; apply Hd.
Qed.

(** X16.  With nothing stored the heuristic mapping changes nothing:
    when every property it can read is missing or empty, the form is
    left as it is and nothing counts as applied. *)
Theorem heuristic_mapping_needs_stored_values (form : list formEl)
    (data : value) :
  (forall k, truthy (getProp data k) = false) ->
  applyHeuristicMapping form data = ((form, false), Normal).
Proof.
  intros Hd. induction form as [|el form IH]; [done|].
  cbn [applyHeuristicMapping]. rewrite (heuristicField_nothing_stored _ _ Hd).
  rewrite IH. by destruct (negb (is_control el)).
Qed.

Lemma heuristic_mapping_needs_stored_values_witness :
  applyHeuristicMapping [role_select; text_field "goals" ""]
    (VObj [("goals", VStr "")])
  = (([role_select; text_field "goals" ""], false), Normal).
Proof.
  apply heuristic_mapping_needs_stored_values.
  intros k. unfold getProp, alist_get.
  destruct (String.eqb "goals" k); reflexivity.
Defined.

(** ** Moving to the next phase of the workflow *)

(** X17.  Proceeding with a pasted response stores the trimmed response
    as the result of the phase that ends and moves to the next phase.
    If a phase follows, the fields extracted from the response for the
    ending phase are merged into the form data, over what was there; at
    the last phase the form data is left as it is. *)
Theorem proceeding_stores_and_extracts (s : session) (v : string) :
  Js.trim v <> "" ->
  let i := currentPhase (flow s) in
  let moved (data : list (string * value)) : session :=
    {| flow := {| currentPhase := i + 1;
                  phases := phases (flow s);
                  totalPhases := totalPhases (flow s);
                  currentFormData := data |};
       phaseResults := <[i := Js.trim v]> (phaseResults s) |} in
  (forall title,
     i + 1 < totalPhases (flow s) ->
     phases (flow s) !! (i + 1) = Some title ->
     proceedToNextPhase s (Some v)
     = (moved (alist_assign (currentFormData (flow s))
                 (extractedData i (Js.trim v))), Normal))
  /\ (totalPhases (flow s) <= i + 1 ->
        proceedToNextPhase s (Some v)
        = (moved (currentFormData (flow s)), Normal)).
Proof.
  intros Hv%nonempty_true i moved. unfold proceedToNextPhase. rewrite Hv.
  cbn [flow currentPhase totalPhases]. fold i. split.
  - intros title Hlt Htitle.
    destruct (Nat.ltb_spec (i + 1) (totalPhases (flow s))) as [_|?]; [|lia].
    unfold prePopulateNextPhase. cbn [flow currentPhase phaseResults].
    replace (i + 1) with (S i) by lia.
    rewrite lookup_insert_eq. cbn [default]. change (id (Js.trim v)) with (Js.trim v).
    rewrite Hv. unfold extractAndPrePopulateNextPhase.
    cbn [default currentPhase totalPhases phases currentFormData].
    change (id i) with i.
    destruct (Nat.leb_spec (totalPhases (flow s)) (i + 1)) as [?|_]; [lia|].
    rewrite Htitle. subst moved. cbv beta.
    by replace (i + 1) with (S i) by lia.
  - intros Hle.
    by destruct (Nat.ltb_spec (i + 1) (totalPhases (flow s))) as [?|_]; [lia|].
Qed.

Lemma proceeding_stores_and_extracts_witness :
  proceedToNextPhase
    {| flow := {| currentPhase := 0;
                  phases := ["Discovery"; "Analysis"];
                  totalPhases := 2;
                  currentFormData := [("projectName", VStr "Acme")] |};
       phaseResults := ∅ |}
    (Some " The budget is fixed. ")
  = ({| flow := {| currentPhase := 1;
                   phases := ["Discovery"; "Analysis"];
                   totalPhases := 2;
                   currentFormData :=
                     alist_assign [("projectName", VStr "Acme")]
                       (extractedData 0 "The budget is fixed.") |};
        phaseResults := <[0 := "The budget is fixed."]> ∅ |}, Normal).
Proof.
  apply (proj1 (proceeding_stores_and_extracts
                  {| flow := {| currentPhase := 0;
                                phases := ["Discovery"; "Analysis"];
                                totalPhases := 2;
                                currentFormData := [("projectName", VStr "Acme")] |};
                     phaseResults := ∅ |}
                  " The budget is fixed. " ltac:(done)) "Analysis");
    [simpl; lia|reflexivity].
Defined.

(** ** The participant table *)

Lemma str_forall_app (p : ascii -> bool) (a b : string) :
  str_forall p (a +:+ b) = str_forall p a && str_forall p b.
Proof.
  induction a as [|c a IH]; [done|]. rewrite append_cons. simpl.
  by rewrite IH, andb_assoc.
Qed.

Lemma str_forall_weaken (p q : ascii -> bool) (s : string) :
  (forall c, p c = true -> q c = true) ->
  str_forall p s = true -> str_forall q s = true.
Proof.
  intros H. induction s as [|c s IH]; [done|]. simpl.
  intros [Hc Hs]%andb_true_iff. by rewrite (H c Hc), IH.
Qed.

Lemma trimEnd_app (a b : string) :
  Js.trimEnd b = b -> b <> "" -> Js.trimEnd (a +:+ b) = a +:+ b.
Proof.
  intros Hb Hne. induction a as [|c a IH]; [by rewrite append_empty_l|].
  rewrite append_cons. cbn [Js.trimEnd]. rewrite IH.
  destruct (a +:+ b) eqn:E; [|done]. by destruct a.
Qed.

Lemma trimEnd_snoc_space (s : string) (c : ascii) :
  Js.is_space c = true -> Js.trimEnd (s +:+ String c "") = Js.trimEnd s.
Proof.
  intros Hc. induction s as [|a s IH].
  - rewrite append_empty_l. simpl. by rewrite Hc.
  - rewrite append_cons. cbn [Js.trimEnd]. by rewrite IH.
Qed.

Lemma length_trimStart (s : string) :
  String.length (Js.trimStart s) <= String.length s.
Proof.
  induction s as [|c s IH]; [done|]. simpl.
  destruct (Js.is_space c); simpl; lia.
Qed.

Lemma length_trimEnd (s : string) :
  String.length (Js.trimEnd s) <= String.length s.
Proof.
  induction s as [|c s IH]; [done|]. simpl.
  destruct (Js.trimEnd s); [destruct (Js.is_space c)|]; simpl in *; lia.
Qed.

(** A trimmed string that is not empty starts with a character that is
    not a space, and trimming its end changes nothing. *)
Lemma trimmed_head (s : string) :
  Js.trim s = s -> s <> "" ->
  exists a r, s = String a r /\ Js.is_space a = false.
Proof.
  destruct s as [|a r]; [done|]. intros Ht _.
  destruct (Js.is_space a) eqn:E; [|by exists a, r].
  exfalso. unfold Js.trim in Ht. cbn [Js.trimStart] in Ht. rewrite E in Ht.
  pose proof (length_trimEnd (Js.trimStart r)) as H1.
  pose proof (length_trimStart r) as H2.
  rewrite Ht in H1. simpl in H1. lia.
Qed.

Lemma trimmed_trimEnd (s : string) : Js.trim s = s -> Js.trimEnd s = s.
Proof.
  intros Ht. destruct s as [|a r] eqn:Es; [done|].
  destruct (trimmed_head _ Ht ltac:(done)) as (a' & r' & [= <- <-] & Ha).
  unfold Js.trim in Ht. cbn [Js.trimStart] in Ht. by rewrite Ha in Ht.
Qed.

Lemma trim_between (a b : string) :
  Js.trim a = a -> a <> "" -> Js.trimEnd b = b -> b <> "" ->
  Js.trim (a +:+ b) = a +:+ b.
Proof.
  intros Ha Hna Hb Hnb.
  destruct (trimmed_head _ Ha Hna) as (c & r & -> & Hc).
  unfold Js.trim. rewrite append_cons. cbn [Js.trimStart]. rewrite Hc.
  rewrite <- append_cons. by apply trimEnd_app.
Qed.

Lemma trim_then_space (a : string) :
  Js.trim a = a -> a <> "" -> Js.trim (a +:+ " ") = a.
Proof.
  intros Ha Hna.
  destruct (trimmed_head _ Ha Hna) as (c & r & E & Hc).
  pose proof (trimmed_trimEnd _ Ha) as He. subst a.
  unfold Js.trim. rewrite append_cons. cbn [Js.trimStart]. rewrite Hc.
  rewrite <- append_cons. by rewrite trimEnd_snoc_space.
Qed.

Lemma split_delims_join_semi (x : string) (xs : list string) :
  Forall (fun y => no_delim y = true) (x :: xs) ->
  Js.split_delims (Js.join "; " (x :: xs)) = x :: map (String " "%char) xs.
Proof.
  revert x. induction xs as [|y ys IH]; intros x Hall.
  - simpl. apply split_delims_clean. by inversion Hall.
  - inversion Hall as [|? ? Hx Hrest]; subst.
    change (Js.join "; " (x :: y :: ys))
      with (x +:+ "; " +:+ Js.join "; " (y :: ys)).
    rewrite (split_delims_app _ _ Hx).
    change ("; " +:+ Js.join "; " (y :: ys))
      with (String ";"%char (String " "%char (Js.join "; " (y :: ys)))).
    cbn [Js.split_delims Js.is_delim Js.starts_with_delim].
    rewrite (IH y Hrest). simpl. by rewrite append_empty_r.
Qed.

(** Clean items joined with a semicolon and a space normalise to the
    items, as they do when joined with a comma. *)
Lemma list_items_join_semi (xs : list string) :
  Forall clean xs -> list_items (Js.join "; " xs) = xs.
Proof.
  intros Hall. destruct xs as [|x xs]; [reflexivity|].
  unfold list_items. rewrite split_delims_join_semi.
  2:{ eapply Forall_impl; [exact Hall|]. by intros ? (_ & _ & ?). }
  inversion Hall as [|? ? (Htx & Hnx & _) Hrest]; subst.
  simpl. rewrite Htx. apply nonempty_true in Hnx. rewrite Hnx. f_equal.
  clear -Hrest. induction Hrest as [|y ys (Hty & Hny & _) _ IH]; [done|].
  simpl. rewrite trim_space by reflexivity. rewrite Hty.
  apply nonempty_true in Hny. rewrite Hny. by f_equal.
Qed.

(** What the code relies on for the roles of the select: each value is
    trimmed, holds no separator and no hyphen, and is found as itself. *)
Lemma listed_role (role : string) :
  In role (map snd participant_roles) -> role <> "" ->
  Js.trim role = role
  /\ no_delim role = true
  /\ str_forall (fun c => negb (Ascii.eqb c "-"%char)) role = true
  /\ role_option role = Some (role, role).
Proof.
  intros H Hne. simpl in H.
  repeat (destruct H as [<-|H]; [try done; by vm_compute|]). done.
Qed.

Lemma strip_newlines_plain (s : string) :
  plain_name s = true -> strip_newlines s = s.
Proof.
  induction s as [|c s IH]; [done|]. unfold plain_name. cbn [str_forall].
  intros [Hc Hs]%andb_true_iff. cbn [strip_newlines].
  apply andb_true_iff in Hc as [[Hd _]%andb_true_iff Hcr].
  apply negb_true_iff in Hcr. rewrite Hcr, orb_false_r.
  assert (Ascii.eqb c "010"%char = false) as ->.
  { destruct (Ascii.eqb_spec c "010"%char) as [->|]; [done|done]. }
  by rewrite (IH Hs).
Qed.

Lemma split_char_clean (d : ascii) (x : string) :
  str_forall (fun c => negb (Ascii.eqb c d)) x = true ->
  Js.split_char d x = [x].
Proof.
  intros Hx. rewrite <- (append_empty_r x) at 1.
  rewrite (split_char_app _ _ _ Hx). simpl. by rewrite append_empty_r.
Qed.

Section ParticipantRow.

Variable r : participantRow.
Hypothesis Htyped : typed_row r.
Hypothesis Hcomplete : complete_row r = true.

Lemma row_name_facts :
  Js.trim (Js.trim (row_name r)) = Js.trim (row_name r)
  /\ Js.trim (row_name r) <> ""
  /\ plain_name (Js.trim (row_name r)) = true.
Proof.
  destruct Htyped as [Hp _].
  apply andb_true_iff in Hcomplete as [Hn _].
  split; [apply trim_idem|]. split; [by apply nonempty_true|].
  by apply str_forall_trim.
Qed.

Lemma row_role_facts :
  Js.trim (row_role r) = row_role r
  /\ row_role r <> ""
  /\ no_delim (row_role r) = true
  /\ str_forall (fun c => negb (Ascii.eqb c "-"%char)) (row_role r) = true
  /\ role_option (row_role r) = Some (row_role r, row_role r).
Proof.
  destruct Htyped as [_ Hr].
  apply andb_true_iff in Hcomplete as [_ Hn%nonempty_true].
  destruct (listed_role _ Hr Hn) as (? & ? & ? & ?). done.
Qed.

Lemma participant_item_clean : clean (participant_item r).
Proof.
  destruct row_name_facts as (Ht & Hne & Hp).
  destruct row_role_facts as (Hrt & Hrne & Hrd & _ & _).
  unfold participant_item. split; [|split].
  - apply trim_between; [done|done| |by destruct (row_role r)].
    apply (trimEnd_app " - "); [by apply trimmed_trimEnd|done].
  - intros E. destruct (Js.trim (row_name r)); [done|discriminate E].
  - unfold no_delim. rewrite !str_forall_app. fold (no_delim (row_role r)).
    rewrite Hrd, andb_true_r.
    apply (str_forall_weaken _ _ _
             (fun c H => proj1 (andb_prop _ _ (proj1 (andb_prop _ _ H)))))
      in Hp.
    by rewrite Hp.
Qed.

Lemma participantEntry_item :
  participantEntry (participant_item r) = (Js.trim (row_name r), row_role r).
Proof.
  destruct row_name_facts as (Ht & Hne & Hp).
  destruct row_role_facts as (Hrt & Hrne & _ & Hrh & _).
  unfold participantEntry, participant_item.
  assert (str_forall (fun c => negb (Ascii.eqb c "-"%char))
            (Js.trim (row_name r)) = true) as Hh.
  { revert Hp. apply str_forall_weaken. intros c H.
    by apply andb_prop in H as [[_ H]%andb_prop _]. }
  rewrite (split_char_app _ _ _ Hh).
  change (" - " +:+ row_role r)
    with (String " "%char (String "-"%char (String " "%char (row_role r)))).
  cbn [Js.split_char Ascii.eqb Bool.eqb].
  rewrite (split_char_clean _ _ Hrh). cbn [map head tail default Js.join].
  change (from_option id "" (Some ?x)) with x.
  f_equal.
  - by apply trim_then_space.
  - by rewrite trim_space.
Qed.

Lemma participant_row_of_entry :
  participant_row_of (Js.trim (row_name r), row_role r) = trimmed_row r.
Proof.
  destruct row_name_facts as (_ & _ & Hp).
  destruct row_role_facts as (_ & Hrne%nonempty_true & _ & _ & Hopt).
  unfold participant_row_of, trimmed_row. cbn [fst snd].
  by rewrite (strip_newlines_plain _ Hp), Hrne, Hopt.
Qed.

End ParticipantRow.

Lemma updateParticipantData_items (rows : list participantRow) :
  updateParticipantData rows
  = Js.join "; " (map participant_item (List.filter complete_row rows)).
Proof. reflexivity. Qed.

Lemma filter_typed (rows : list participantRow) :
  Forall typed_row rows ->
  Forall (fun r => typed_row r /\ complete_row r = true)
    (List.filter complete_row rows).
Proof.
  intros H. apply Forall_forall. intros r Hr%list_elem_of_In.
  apply List.filter_In in Hr as [Hr Hc]. split; [|done].
  rewrite Forall_forall in H. by apply H, list_elem_of_In.
Qed.

Lemma complete_trimmed_row (r : participantRow) :
  complete_row (trimmed_row r) = complete_row r.
Proof. unfold complete_row, trimmed_row. simpl. by rewrite trim_idem. Qed.

Lemma participant_item_trimmed_row (r : participantRow) :
  participant_item (trimmed_row r) = participant_item r.
Proof. unfold participant_item, trimmed_row. simpl. by rewrite trim_idem. Qed.

(** X18.  The hidden value of a participant table fills the table
    again: from the value written for the rows, the table gets back the
    rows that have a name and a role, names trimmed, and writes the same
    value.  The names hold no separator, hyphen or line break and the
    roles are options of the select. *)
Theorem participant_table_round_trip (hidden : string)
    (rows : list participantRow) :
  Forall typed_row rows ->
  List.filter complete_row rows <> [] ->
  populateParticipantTableFromString hidden (VStr (updateParticipantData rows))
  = ((map trimmed_row (List.filter complete_row rows),
      updateParticipantData rows), Normal).
Proof.
  intros Htyped Hne. pose proof (filter_typed _ Htyped) as Hkept.
  rewrite updateParticipantData_items at 1.
  set (kept := List.filter complete_row rows) in *.
  unfold populateParticipantTableFromString. rewrite normalizeList_str.
  rewrite list_items_join_semi.
  2:{ apply Forall_forall. intros x Hx%list_elem_of_In.
      apply in_map_iff in Hx as (r & <- & Hr).
      rewrite Forall_forall in Hkept.
      destruct (Hkept r) as [Ht Hc]; [by apply list_elem_of_In|].
      by apply participant_item_clean. }
  assert (map participantEntry (map participant_item kept)
          = map (fun r => (Js.trim (row_name r), row_role r)) kept) as ->.
  { rewrite map_map. clear Hne. induction Hkept as [|r l [Ht Hc] _ IH]; [done|].
    cbn [map]. by rewrite participantEntry_item, IH. }
  assert (map participant_row_of
            (map (fun r => (Js.trim (row_name r), row_role r)) kept)
          = map trimmed_row kept) as Hrows.
  { rewrite map_map. clear Hne. induction Hkept as [|r l [Ht Hc] _ IH]; [done|].
    cbn [map]. by rewrite participant_row_of_entry, IH. }
  assert (updateParticipantData (map trimmed_row kept)
          = updateParticipantData rows) as Hsame.
  { rewrite !updateParticipantData_items. fold kept. f_equal.
    rewrite filter_all.
    - rewrite map_map. apply map_ext. apply participant_item_trimmed_row.
    - intros x (r & <- & Hr)%in_map_iff. rewrite complete_trimmed_row.
      subst kept. by apply List.filter_In in Hr as [_ Hr]. }
  set (entries := map (fun r => (Js.trim (row_name r), row_role r)) kept) in *.
  assert (entries <> []) as Hentries by (subst entries; by destruct kept).
  destruct entries as [|e entries]; [done|]. by rewrite Hrows, Hsame.
Qed.

Lemma participant_table_round_trip_witness :
  populateParticipantTableFromString ""
    (VStr (updateParticipantData
             [ {| row_name := " Alice "; row_role := "Product Manager" |};
               {| row_name := "Bob"; row_role := "" |};
               {| row_name := "Carol"; row_role := "QA Engineer" |} ]))
  = (([ {| row_name := "Alice"; row_role := "Product Manager" |};
        {| row_name := "Carol"; row_role := "QA Engineer" |} ],
      "Alice - Product Manager; Carol - QA Engineer"), Normal).
Proof.
  apply (participant_table_round_trip ""
           [ {| row_name := " Alice "; row_role := "Product Manager" |};
             {| row_name := "Bob"; row_role := "" |};
             {| row_name := "Carol"; row_role := "QA Engineer" |} ]).
  - repeat constructor; simpl; tauto.
  - done.
Defined.

Lemma participant_row_of_listed (entry : string * string) :
  In (row_role (participant_row_of entry)) (map snd participant_roles).
Proof.
  unfold participant_row_of. cbn [row_role].
  destruct (nonempty entry.2); [|by left].
  unfold role_option.
  destruct (find _ participant_roles) as [opt|] eqn:E; [|by left].
  apply find_some in E as [E _]. by apply in_map.
Qed.

(** X19.  Filling a participant table from a stored value selects only
    roles that the select offers: an entry whose role is none of the
    options, compared up to case, gets a row without role, which the
    hidden value leaves out.  On an object the table is emptied and the
    hidden value stays. *)
Theorem participant_table_keeps_listed_roles (hidden : string) :
  (forall props,
     populateParticipantTableFromString hidden (VObj props)
     = (([], hidden), Threw))
  /\ (forall val, (forall props, val <> VObj props) ->
        exists rows,
          populateParticipantTableFromString hidden val
          = ((rows, updateParticipantData rows), Normal)
          /\ rows <> []
          /\ Forall (fun r => In (row_role r) (map snd participant_roles)) rows).
Proof.
  split; [done|]. intros val Hval.
  unfold populateParticipantTableFromString.
  destruct (normalizeList val) as [items|] eqn:E.
  2:{ destruct val as [| |s|props];
        [discriminate E|discriminate E|by rewrite normalizeList_str in E|].
      by destruct (Hval props). }
  destruct (map participantEntry items) as [|e entries].
  - exists [ {| row_name := ""; row_role := "" |} ].
    split; [reflexivity|]. split; [done|].
    repeat constructor.
  - exists (map participant_row_of (e :: entries)).
    split; [reflexivity|]. split; [done|].
    apply Forall_forall. intros r Hr%list_elem_of_In.
    apply in_map_iff in Hr as (entry & <- & _).
    apply participant_row_of_listed.
Qed.

Lemma participant_table_keeps_listed_roles_witness :
  exists rows,
    populateParticipantTableFromString "" (VStr "Alice - PM; Bob - developer")
    = ((rows, updateParticipantData rows), Normal)
    /\ rows <> []
    /\ Forall (fun r => In (row_role r) (map snd participant_roles)) rows.
Proof.
  apply (proj2 (participant_table_keeps_listed_roles "")). done.
Defined.

(** ** The project manager *)

Lemma text_of_stored (x : string) (fallback : value) :
  truthy fallback = false ->
  js_toString (js_or (js_or (VStr x) fallback) (VStr "")) = x.
Proof.
  intros Hf. unfold js_or. cbn [truthy]. fold (nonempty x).
  destruct (nonempty x) eqn:E.
  - cbn [truthy]. fold (nonempty x). by rewrite E.
  - rewrite Hf. by apply nonempty_false in E.
Qed.

Lemma text_of_stored1 (x : string) :
  js_toString (js_or (VStr x) (VStr "")) = x.
Proof.
  unfold js_or. cbn [truthy]. fold (nonempty x).
  destruct (nonempty x) eqn:E; [done|]. by apply nonempty_false in E.
Qed.

(** X20.  What the project manager saves it shows again: the details
    sent by [saveProject] hold only strings under [general], and filling
    the form from a record with the name and details sent gives the six
    inputs the values they had, the name trimmed.  Nothing is sent when
    the name is blank. *)
Theorem project_form_round_trip (f : projectForm) :
  (Js.trim (pf_name f) = "" -> saveProject f = None)
  /\ (Js.trim (pf_name f) <> "" ->
        exists d,
          saveProject f = Some (Js.trim (pf_name f), d)
          /\ flat_details d = true
          /\ forall pid,
               populateProjectForm
                 (Some {| ent_id := pid; ent_name := Js.trim (pf_name f);
                          details := d |})
               = {| pf_name := Js.trim (pf_name f);
                    pf_description := pf_description f;
                    pf_stakeholders := pf_stakeholders f;
                    pf_team := pf_team f;
                    pf_roles := pf_roles f;
                    pf_acStyle := pf_acStyle f |}).
Proof.
  unfold saveProject. split.
  - by intros ->.
  - intros Hne%nonempty_true. rewrite Hne. cbn [negb].
    eexists. split; [reflexivity|]. split; [reflexivity|].
    intros pid. unfold populateProjectForm. cbv zeta. f_equal.
    + exact (text_of_stored (pf_description f) VUndef eq_refl).
    + exact (text_of_stored1 (pf_stakeholders f)).
    + exact (text_of_stored1 (pf_team f)).
    + exact (text_of_stored1 (pf_roles f)).
    + exact (text_of_stored1 (pf_acStyle f)).
Qed.

Lemma project_form_round_trip_witness :
  exists d,
    saveProject {| pf_name := " Acme "; pf_description := "";
                   pf_stakeholders := "Alice - PM"; pf_team := "";
                   pf_roles := "Admin, Buyer"; pf_acStyle := "" |}
    = Some ("Acme", d)
    /\ flat_details d = true
    /\ forall pid,
         populateProjectForm
           (Some {| ent_id := pid; ent_name := "Acme"; details := d |})
         = {| pf_name := "Acme"; pf_description := "";
              pf_stakeholders := "Alice - PM"; pf_team := "";
              pf_roles := "Admin, Buyer"; pf_acStyle := "" |}.
Proof.
  apply (proj2 (project_form_round_trip
                  {| pf_name := " Acme "; pf_description := "";
                     pf_stakeholders := "Alice - PM"; pf_team := "";
                     pf_roles := "Admin, Buyer"; pf_acStyle := "" |})).
  done.
Defined.

(** ** Forward mapping, the payload and the suggestions *)

Lemma alist_assign_key_In {A} (a b : list (string * A)) (k : string) :
  In k (map fst (alist_assign a b)) <-> In k (map fst a) \/ In k (map fst b).
Proof.
  unfold alist_assign. revert a. induction b as [|[k' v] b IH]; intros a.
  - simpl. tauto.
  - cbn [foldl map fst]. rewrite IH, alist_set_key_In. simpl.
    split; [intros [[?| ->]|?]|intros [?|[<-|?]]]; tauto.
Qed.

Lemma general_key_path (m : SemanticFieldMeta) (key : string) :
  general_key m = Some key -> path m = "general." +:+ key.
Proof.
  intros H%general_key_split.
  rewrite <- (split_char_join "."%char (path m)). by rewrite H.
Qed.

Lemma append_inj_r (a b c : string) : a +:+ b = a +:+ c -> b = c.
Proof.
  induction a as [|x a IH]; [done|]. rewrite !append_cons.
  intros [= H]. by apply IH.
Qed.

Section Payload.

Variables (project feature : option entityRec).
Variable formValues : list (string * value).
Variable M : list (string * SemanticFieldMeta).
Hypothesis HM : simple_paths M = true.

Lemma writes_key_intro (side : bool) (e : string * SemanticFieldMeta)
    (key n : string) :
  In e M -> is_feature e.2 = side -> general_key e.2 = Some key ->
  outcome_of project feature formValues e = Some n ->
  In key (map fst (writes side project feature formValues M)).
Proof.
  clear HM. intros He Hs Hk Ho. induction M as [|e' M' IH]; [done|].
  rewrite writes_cons. destruct He as [->|He].
  - unfold field_write. rewrite Hs, Bool.eqb_reflx, Hk, Ho. by left.
  - destruct (field_write side project feature formValues e');
      [right|]; by apply IH.
Qed.

Lemma writes_key_elim (side : bool) (key : string) :
  In key (map fst (writes side project feature formValues M)) ->
  exists e n, In e M /\ is_feature e.2 = side
    /\ general_key e.2 = Some key
    /\ outcome_of project feature formValues e = Some n.
Proof.
  clear HM. induction M as [|e' M' IH]; [done|]. rewrite writes_cons.
  destruct (field_write side project feature formValues e') as [[k w]|] eqn:E.
  - intros [<-|H].
    + apply field_write_Some in E as (_ & Hs & Hk & n & Ho & _).
      exists e', n. split; [by left|done].
    + destruct (IH H) as (e & n & ? & ?). exists e, n. split; [by right|done].
  - intros H. destruct (IH H) as (e & n & ? & ?). exists e, n.
    split; [by right|done].
Qed.

Lemma suggested_intro (e : string * SemanticFieldMeta) (n : string) :
  In e M -> outcome_of project feature formValues e = Some n ->
  In (suggestion_for e.1 e.2 (stored_value project feature e.2) (VStr n))
    (suggested project feature formValues M).
Proof.
  clear HM. intros He Ho. induction M as [|e' M' IH]; [done|].
  rewrite suggested_cons. destruct He as [->|He].
  - unfold field_suggestion. rewrite Ho. by left.
  - destruct (field_suggestion project feature formValues e');
      [right|]; by apply IH.
Qed.

(** The keys written on one side are the paths of the suggestions of
    that side. *)
Lemma written_iff_suggested (side : bool) (key : string) :
  In key (map fst (alist_assign [] (writes side project feature formValues M)))
  <-> exists s,
        In s (suggested project feature formValues M)
        /\ String.eqb (s_entity s) "feature" = side
        /\ s_path s = "general." +:+ key.
Proof.
  rewrite alist_assign_key_In. split.
  - intros [[]|H]. apply writes_key_elim in H as (e & n & He & Hs & Hk & Ho).
    eexists. split; [by apply (suggested_intro e n)|].
    split; [exact Hs|]. by apply general_key_path.
  - intros (s & Hs & Hside & Hpath). right.
    apply suggested_In in Hs as (e & n & He & Ho & ->).
    destruct (simple_paths_In _ _ HM He) as [key' Hk].
    cbn [s_path s_entity suggestion_for] in Hpath, Hside.
    rewrite (general_key_path _ _ Hk) in Hpath.
    apply append_inj_r in Hpath as ->.
    by apply (writes_key_intro side e key n).
Qed.

End Payload.

(** X21.  The payload and the suggestions of a submission say the
    same: on well-formed inputs a key is written under [general] of the
    project updates exactly when some suggestion for the project has its
    path, and likewise for the feature. *)
Theorem payload_matches_suggestions
    (root : option (list semanticEl)) (project feature : option entityRec)
    (formId : string) (formValues : list (string * value)) :
  all_strings formValues = true ->
  simple_paths (buildSemanticMap root formId) = true ->
  flat_entity project = true ->
  flat_entity feature = true ->
  exists d pu fu,
    deriveProjectUpdates root project feature formId formValues = Ok d
    /\ projectUpdates d = VObj [("general", VObj pu)]
    /\ featureUpdates d = VObj [("general", VObj fu)]
    /\ forall key,
         (In key (map fst pu) <->
          exists s, In s (suggestions d)
                    /\ String.eqb (s_entity s) "feature" = false
                    /\ s_path s = "general." +:+ key)
         /\ (In key (map fst fu) <->
             exists s, In s (suggestions d)
                       /\ String.eqb (s_entity s) "feature" = true
                       /\ s_path s = "general." +:+ key).
Proof.
  intros Hfv HM Hp Hf. unfold deriveProjectUpdates.
  change {| projectUpdates := general_empty; featureUpdates := general_empty;
            suggestions := [] |} with (payload_of [] [] []).
  rewrite forward_pass_flat by done.
  eexists _, _, _. split; [reflexivity|]. split; [reflexivity|].
  split; [reflexivity|]. intros key. cbn [suggestions payload_of app].
  split; by apply written_iff_suggested.
Qed.

Lemma payload_matches_suggestions_witness :
  exists d pu fu,
    deriveProjectUpdates None (Some discovery_project) (Some discovery_feature)
      "discovery" two_goals_form = Ok d
    /\ projectUpdates d = VObj [("general", VObj pu)]
    /\ featureUpdates d = VObj [("general", VObj fu)]
    /\ forall key,
         (In key (map fst pu) <->
          exists s, In s (suggestions d)
                    /\ String.eqb (s_entity s) "feature" = false
                    /\ s_path s = "general." +:+ key)
         /\ (In key (map fst fu) <->
             exists s, In s (suggestions d)
                       /\ String.eqb (s_entity s) "feature" = true
                       /\ s_path s = "general." +:+ key).
Proof. apply payload_matches_suggestions; reflexivity. Defined.

(** ** A started workflow *)

Lemma proceedToNextPhase_consistent (s : session) (input : option string) :
  totalPhases (flow s) = length (phases (flow s)) ->
  exists s',
    proceedToNextPhase s input = (s', Normal)
    /\ totalPhases (flow s') = length (phases (flow s'))
    /\ currentPhase (flow s') = currentPhase (flow s) + 1.
Proof.
  intros Hlen. unfold proceedToNextPhase. cbv zeta.
  set (results := match input with Some v => _ | None => _ end).
  clearbody results. cbn [flow currentPhase totalPhases].
  destruct (Nat.ltb_spec (currentPhase (flow s) + 1) (totalPhases (flow s)))
    as [Hlt|Hge]; [|by eexists].
  unfold prePopulateNextPhase. cbn [flow currentPhase phaseResults].
  replace (currentPhase (flow s) + 1) with (S (currentPhase (flow s))) by lia.
  destruct (nonempty (default "" (results !! currentPhase (flow s))));
    [|eexists; split; [reflexivity|]; cbn; split; [done|lia]].
  unfold extractAndPrePopulateNextPhase.
  cbn [default currentPhase totalPhases phases currentFormData].
  change (id (currentPhase (flow s))) with (currentPhase (flow s)).
  destruct (Nat.leb_spec (totalPhases (flow s)) (currentPhase (flow s) + 1))
    as [?|_]; [lia|].
  destruct (lookup_lt_is_Some_2 (phases (flow s)) (currentPhase (flow s) + 1))
    as [title ->]; [lia|].
  eexists. split; [reflexivity|]. cbn. split; [done|lia].
Qed.

(** X22.  A started workflow never throws when the user proceeds:
    [startInteractiveWorkflow] sets the number of phases to the length of
    the phase list, every step keeps it so, and with it the extraction
    always finds the next phase.  After n steps the workflow is at
    phase n. *)
Theorem started_workflow_never_throws (config_phases : list string)
    (inputs : list (option string)) :
  let r := proceed_all (startInteractiveWorkflow config_phases) inputs in
  r.2 = Normal
  /\ currentPhase (flow r.1) = length inputs
  /\ totalPhases (flow r.1) = length (phases (flow r.1)).
Proof.
  unfold proceed_all.
  assert (forall (s : session),
            totalPhases (flow s) = length (phases (flow s)) ->
            let r := foldl (fun st input =>
                              match st.2 with
                              | Normal => proceedToNextPhase st.1 input
                              | Threw => st
                              end) (s, Normal) inputs in
            r.2 = Normal
            /\ currentPhase (flow r.1) = currentPhase (flow s) + length inputs
            /\ totalPhases (flow r.1) = length (phases (flow r.1))) as H.
  { induction inputs as [|input inputs IH]; intros s Hs.
    - simpl. split; [done|]. split; [lia|done].
    - cbn [foldl snd fst].
      destruct (proceedToNextPhase_consistent s input Hs) as (s' & -> & Hs' & Hc).
      destruct (IH s' Hs') as (Hn & Hcur & Hlen). split; [done|].
      split; [|done]. rewrite Hcur, Hc. simpl. lia. }
  apply (H (startInteractiveWorkflow config_phases)). reflexivity.
Qed.

(** ** Prefill with nothing stored *)





Lemma getByPath_empty_obj (p : string) : getByPath empty_obj p = VUndef.
Proof.
  unfold getByPath. cbn [truthy empty_obj negb orb].
  destruct (negb (nonempty p)); [done|].
  destruct (Js.split_char "."%char p) as [|k parts] eqn:E;
    [by destruct (split_char_not_nil _ _ E)|].
  change (get_parts (VObj []) (k :: parts) = VUndef).
  rewrite get_parts_obj. apply get_parts_undef.
Qed.










(** A hint whose name is no CSS identifier stops the prefill, also with
    nothing stored. *)
Lemma prefill_refuses_unselectable_hint :
  prefillFromProject (fun _ => Throw) "discovery"
    (Some {| ent_id := "1"; ent_name := "Acme"; details := VUndef |}) None
    [ {| sem_id := "plan_yes_(recommended)"; sem_name := "plan";
         data_entity := "project"; data_path := "general.plan";
         data_label := None; data_isList := None |} ]
    [text_field "stakeholders" ""]
  = ([text_field "stakeholders" ""], Threw).
Proof. vm_compute. reflexivity. Qed.

(** ** The collected values *)

Lemma collect_lookup (form : list formEl) (acc : list (string * value))
    (k : string) :
  alist_get
    (foldl (fun values el => alist_set values (el_id el) (VStr (el_value el)))
       acc form) k
  = match last (List.filter (fun el => String.eqb (el_id el) k) form) with
    | Some el => Some (VStr (el_value el))
    | None => alist_get acc k
    end.
Proof.
  revert acc. induction form as [|el form IH]; intros acc; [done|].
  cbn [foldl List.filter]. rewrite IH, alist_get_set.
  destruct (String.eqb (el_id el) k); [|done].
  rewrite last_cons. by destruct (last _).
Qed.

Lemma collect_strings (form : list formEl) (acc : list (string * value)) :
  all_strings acc = true -> NoDup (map fst acc) ->
  all_strings
    (foldl (fun values el => alist_set values (el_id el) (VStr (el_value el)))
       acc form) = true
  /\ NoDup (map fst
       (foldl (fun values el => alist_set values (el_id el) (VStr (el_value el)))
          acc form)).
Proof.
  revert acc. induction form as [|el form IH]; intros acc Hs Hnd; [done|].
  cbn [foldl]. apply IH; [by apply all_strings_set|by apply alist_set_keys_NoDup].
Qed.

(** X24.  The values collected from a form are what the forward
    mapping expects: every value is a string, there is one entry for
    each identifier, and where several controls share an identifier the
    value of the last one in document order is the one collected. *)
Theorem collectRawFormValues_gives_strings (form : list formEl) :
  all_strings (collectRawFormValues form) = true
  /\ NoDup (map fst (collectRawFormValues form))
  /\ forall k,
       alist_get (collectRawFormValues form) k
       = match last (List.filter (fun el => String.eqb (el_id el) k)
                       (List.filter is_control form)) with
         | Some el => Some (VStr (el_value el))
         | None => None
         end.
Proof.
  unfold collectRawFormValues.
  destruct (collect_strings (List.filter is_control form) [] eq_refl
              (NoDup_nil_2 : NoDup (map fst ([] : list (string * value)))))
    as [Hs Hnd].
  split; [done|]. split; [done|]. intros k. by rewrite collect_lookup.
Qed.

(** ** Forward mapping, one field within the whole pass *)







(** ** Forward mapping without one of the records *)

Lemma alist_get_key {A} (l : list (string * A)) (k : string) :
  In k (map fst l) -> exists v, alist_get l k = Some v.
Proof.
  induction l as [|[k' v'] l IH]; [done|]. simpl.
  destruct (String.eqb_spec k' k) as [->|Hne]; [by eexists|].
  intros [E|H]; [done|by apply IH].
Qed.

Lemma stored_value_absent (project feature : option entityRec)
    (m : SemanticFieldMeta) :
  (if is_feature m then feature else project) = None ->
  stored_value project feature m = VUndef.
Proof.
  unfold stored_value, target_details.
  destruct (is_feature m); intros ->; apply getByPath_empty_obj.
Qed.

(** What a field asks to store when nothing is stored at its path. *)
Lemma field_outcome_nothing_stored (m : SemanticFieldMeta) (v : string) :
  (if isList m then list_items (Js.trim v) <> [] else Js.trim v <> "") ->
  field_outcome m VUndef (Some (VStr v))
  = Some (if isList m
          then Js.join ", " (first_ci (list_items (Js.trim v)))
          else Js.trim v).
Proof.
  unfold field_outcome. destruct (isList m).
  - intros Hne. destruct (nonempty (Js.trim v)) eqn:Hn.
    2:{ apply nonempty_false in Hn. by rewrite Hn in Hne. }
    change (list_items (stored_text VUndef)) with ([] : list string).
    pose proof (appended_new_items [] (Js.trim v)) as Happ.
    assert (List.filter (fun x => negb (ci_in x [])) (list_items (Js.trim v))
            = list_items (Js.trim v)) as Hall by by apply filter_all.
    rewrite Hall in Happ |- *.
    rewrite bool_decide_eq_false_2 by done.
    by rewrite merge_items_spec, Happ.
  - intros Hne%nonempty_true. rewrite Hne.
    change (Js.trim (stored_text VUndef)) with "".
    destruct (String.eqb_spec "" (Js.trim v)) as [E|_]; [|done].
    rewrite <- E in Hne. done.
Qed.

(** C7, as amended.  When the project record or the feature record (or
    both) is absent, the form values are strings, the paths of the map
    have the form [general.<key>] and the stored values of the record
    that is present are strings, forward mapping throws nothing and
    returns what it returns for a record without stored details in place
    of the absent one.  The absent side gets its updates and suggestions
    like the other: every field of that side with a value that is not
    empty gets a suggestion from the empty old value to its trimmed value
    (for a list field, to its items, each once, joined by a comma and a
    space), and the payload of that side holds a string at its path. *)
Theorem absent_entity_treated_as_empty
    (root : option (list semanticEl)) (project feature : option entityRec)
    (formId : string) (formValues : list (string * value)) :
  project = None \/ feature = None ->
  all_strings formValues = true ->
  simple_paths (buildSemanticMap root formId) = true ->
  flat_entity project = true ->
  flat_entity feature = true ->
  exists d,
    deriveProjectUpdates root project feature formId formValues = Ok d
    /\ deriveProjectUpdates root (Some (or_blank project))
         (Some (or_blank feature)) formId formValues = Ok d
    /\ forall (fieldKey : string) (m : SemanticFieldMeta) (v : string),
         In (fieldKey, m) (buildSemanticMap root formId) ->
         (if is_feature m then feature else project) = None ->
         alist_get formValues fieldKey = Some (VStr v) ->
         (if isList m then list_items (Js.trim v) <> [] else Js.trim v <> "") ->
         In {| s_entity := entity m; s_path := path m;
               s_label := str_or (label m) fieldKey;
               oldValue := VStr "";
               newValue :=
                 VStr (if isList m
                       then Js.join ", " (first_ci (list_items (Js.trim v)))
                       else Js.trim v) |}
            (suggestions d)
         /\ is_str (getByPath (if is_feature m then featureUpdates d
                               else projectUpdates d) (path m)) = true.
Proof.
  intros Habs Hfv HM Hp Hf.
  pose proof (forward_pass_flat project feature formValues
                (buildSemanticMap root formId) [] [] [] Hfv Hp Hf HM) as Hrun.
  eexists. split; [exact Hrun|]. split.
  - rewrite <- Hrun. unfold deriveProjectUpdates.
    destruct Habs as [-> | ->]; [destruct feature|destruct project];
      reflexivity.
  - intros fieldKey m v Hin Hside Hv Hne.
    assert (outcome_of project feature formValues (fieldKey, m)
            = Some (if isList m
                    then Js.join ", " (first_ci (list_items (Js.trim v)))
                    else Js.trim v)) as Hout.
    { unfold outcome_of. cbn [fst snd].
      rewrite (stored_value_absent _ _ _ Hside), Hv.
      by apply field_outcome_nothing_stored. }
    split.
    + cbn [suggestions payload_of app].
      pose proof (suggested_intro project feature formValues _ _ _ Hin Hout)
        as Hs.
      cbn [fst snd] in Hs. rewrite (stored_value_absent _ _ _ Hside) in Hs.
      exact Hs.
    + destruct (simple_paths_In _ _ HM Hin) as [key Hk]. cbn [snd] in Hk.
      pose proof (writes_key_intro project feature formValues _ (is_feature m)
                    _ key _ Hin eq_refl Hk Hout) as Hw.
      set (W := writes (is_feature m) project feature formValues
                  (buildSemanticMap root formId)) in *.
      assert (all_strings (alist_assign [] W) = true) as Hstr
        by (apply all_strings_assign; [done|apply all_strings_writes]).
      assert (exists n, alist_get (alist_assign [] W) key = Some (VStr n))
        as [n Hn].
      { destruct (alist_get_key (alist_assign [] W) key) as [w Hw'].
        { apply alist_assign_key_In. by right. }
        destruct (all_strings_get _ key Hstr) as [E|[n E]]; [congruence|].
        by exists n. }
      assert ((if is_feature m
               then featureUpdates
                      (payload_of
                         (alist_assign [] (writes false project feature
                                             formValues
                                             (buildSemanticMap root formId)))
                         (alist_assign [] (writes true project feature
                                             formValues
                                             (buildSemanticMap root formId)))
                         ([] ++ suggested project feature formValues
                                  (buildSemanticMap root formId)))
               else projectUpdates
                      (payload_of
                         (alist_assign [] (writes false project feature
                                             formValues
                                             (buildSemanticMap root formId)))
                         (alist_assign [] (writes true project feature
                                             formValues
                                             (buildSemanticMap root formId)))
                         ([] ++ suggested project feature formValues
                                  (buildSemanticMap root formId))))
              = VObj [("general", VObj (alist_assign [] W))]) as ->.
      { subst W. by destruct (is_feature m). }
      pose proof (getByPath_general (VObj [("general", VObj (alist_assign [] W))])
                    m key) as Hget.
      unfold flat_details in Hget. cbn in Hget. rewrite Hstr in Hget.
      specialize (Hget eq_refl Hk). cbn in Hget.
      change (js_or (VObj [("general", VObj (alist_assign [] W))]) empty_obj)
        with (VObj [("general", VObj (alist_assign [] W))]) in Hget.
      rewrite Hget.
      change (general_props (VObj [("general", VObj (alist_assign [] W))]))
        with (alist_assign [] W).
      by rewrite Hn.
Qed.

Lemma absent_entity_treated_as_empty_witness :
  exists d,
    deriveProjectUpdates None (Some acme) None "discovery"
      [("featureSize", VStr " M "); ("teamMembers", VStr "Ann; Bob")] = Ok d
    /\ In {| s_entity := "feature"; s_path := "general.tShirtSize";
             s_label := "Feature size";
             oldValue := VStr ""; newValue := VStr "M" |} (suggestions d)
    /\ is_str (getByPath (featureUpdates d) "general.tShirtSize") = true.
Proof.
  destruct (absent_entity_treated_as_empty None (Some acme) None "discovery"
              [("featureSize", VStr " M "); ("teamMembers", VStr "Ann; Bob")]
              (or_intror eq_refl) eq_refl eq_refl eq_refl eq_refl)
    as (d & Hd & _ & Hside).
  exists d. split; [exact Hd|].
  apply (Hside "featureSize"
           (meta "feature" "general.tShirtSize" "Feature size" false) " M ");
    [right; by left|reflexivity|reflexivity|done].
Defined.
